(** * becas-Score: the command execution pipeline, embedded in Rocq

    A shallow embedding of the parts of the repository that the
    specification calls the core: the event bus ([src/core/eventBus.js]),
    the workflow engine ([src/workflow/actionHandler.js], class
    [WorkflowEngine]), the response generator ([src/ai/llmService.js]),
    the action resolver ([src/core/dynamicHandler.js]) and the approval
    gate ([src/core/bot.js]).

    Conventions.
    - JavaScript strings are modelled by [string]; the characters that
      matter to the code (quotes, braces, digits, ASCII letters, white
      space) are single bytes.  Non-ASCII text is carried as its UTF-8
      bytes and is never inspected, except for the fixed literals the code
      compares against and for the duration patterns of the timeout
      command, whose white space and letter case reach outside ASCII.
    - Code that throws returns a [completion]: [Normal v] or [Abrupt e].
    - External collaborators (the generation backend, the action executor,
      event handlers, the reaction collector) are arguments of the model.
    - Mutable fields are threaded explicitly; arrays that are shared by
      reference live in a store and are named by their location.  The
      listener array that [emit] walks while handlers run is given both
      as a list that stays as it is and as an array that each call may
      change. *)

From Stdlib Require Import ZArith QArith Ascii String List Bool Lia Arith DecimalString.
From stdpp Require Import base gmap strings list.

Import ListNotations.
Local Open Scope string_scope.
Local Open Scope list_scope.

(* ================================================================== *)
(** * Part I: definitions                                              *)
(* ================================================================== *)

(** ** JavaScript values and completions *)

(** The values a handler can hand back, as far as [=== true] and
    truthiness can tell them apart. *)
Inductive jsval : Type :=
| VUndefined
| VNull
| VBool (b : bool)
| VNum (z : Z)
| VStr (s : string)
| VObj.

(** [ToBoolean]: what [if (v)] tests. *)
Definition truthy (v : jsval) : bool :=
  match v with
  | VUndefined | VNull => false
  | VBool b => b
  | VNum z => negb (z =? 0)%Z
  | VStr s => negb (String.eqb s EmptyString)
  | VObj => true
  end.

(** [v === true] *)
Definition strict_true (v : jsval) : bool :=
  match v with
  | VBool true => true
  | _ => false
  end.

(** What running a piece of code yields: a value, or a thrown error. *)
Inductive completion (E A : Type) : Type :=
| Normal (v : A)
| Abrupt (e : E).
Arguments Normal {E A} v.
Arguments Abrupt {E A} e.

Definition bind {E A B} (c : completion E A) (k : A -> completion E B)
  : completion E B :=
  match c with
  | Normal v => k v
  | Abrupt e => Abrupt e
  end.

Notation "'let*' x := c 'in' k" := (bind c (fun x => k))
  (at level 10, x name, c at level 100, k at level 200).

(* ------------------------------------------------------------------ *)
(** ** JavaScript string operations                                    *)
(* ------------------------------------------------------------------ *)

Module Js.

Definition code (c : ascii) : nat := nat_of_ascii c.

(** [\s], on ASCII: tab, line feed, vertical tab, form feed, carriage
    return, space. *)
Definition is_space (c : ascii) : bool :=
  (Nat.leb 9 (code c) && Nat.leb (code c) 13) || Nat.eqb (code c) 32.

(** [\d] *)
Definition is_digit (c : ascii) : bool :=
  Nat.leb 48 (code c) && Nat.leb (code c) 57.

Definition is_upper (c : ascii) : bool :=
  Nat.leb 65 (code c) && Nat.leb (code c) 90.

Definition is_lower (c : ascii) : bool :=
  Nat.leb 97 (code c) && Nat.leb (code c) 122.

(** [\w] *)
Definition is_word (c : ascii) : bool :=
  is_upper c || is_lower c || is_digit c || Nat.eqb (code c) 95.

Definition lower (c : ascii) : ascii :=
  if is_upper c then ascii_of_nat (code c + 32) else c.

(** [s.toLowerCase()], on ASCII letters. *)
Fixpoint toLowerCase (s : string) : string :=
  match s with
  | EmptyString => EmptyString
  | String c r => String (lower c) (toLowerCase r)
  end.

(** [s.startsWith(p)] *)
Definition startsWith (p s : string) : bool := String.prefix p s.

(** [s.includes(needle)] *)
Fixpoint includes (needle s : string) : bool :=
  match s with
  | EmptyString => String.prefix needle EmptyString
  | String _ r => String.prefix needle s || includes needle r
  end.

Fixpoint rev_string (s acc : string) : string :=
  match s with
  | EmptyString => acc
  | String c r => rev_string r (String c acc)
  end.

(** [s.endsWith(p)] *)
Definition endsWith (p s : string) : bool :=
  String.prefix (rev_string p EmptyString) (rev_string s EmptyString).

(** [s.indexOf(c)] for a single character; [None] is [-1]. *)
Fixpoint indexOf (c : ascii) (s : string) : option nat :=
  match s with
  | EmptyString => None
  | String d r =>
      if Ascii.eqb c d then Some 0
      else match indexOf c r with
           | Some i => Some (S i)
           | None => None
           end
  end.

(** [s.lastIndexOf(c)] *)
Fixpoint lastIndexOf (c : ascii) (s : string) : option nat :=
  match s with
  | EmptyString => None
  | String d r =>
      match lastIndexOf c r with
      | Some i => Some (S i)
      | None => if Ascii.eqb c d then Some 0 else None
      end
  end.

(** [s.substring(from, to)] for [from <= to]. *)
Definition substring (from to : nat) (s : string) : string :=
  String.substring from (to - from) s.

(** [(s.match(/c/g) || []).length] *)
Fixpoint count (c : ascii) (s : string) : nat :=
  match s with
  | EmptyString => 0
  | String d r => (if Ascii.eqb c d then 1 else 0) + count c r
  end.

(** [s.split(c)] for a one-character separator. *)
Fixpoint split (c : ascii) (s : string) : list string :=
  match s with
  | EmptyString => [EmptyString]
  | String d r =>
      match split c r with
      | [] => [String d EmptyString]
      | x :: xs =>
          if Ascii.eqb c d then EmptyString :: x :: xs
          else String d x :: xs
      end
  end.

(** [parts.join(sep)] *)
Fixpoint join (sep : string) (parts : list string) : string :=
  match parts with
  | [] => EmptyString
  | [x] => x
  | x :: xs => x +:+ sep +:+ join sep xs
  end.

Fixpoint trimStart (s : string) : string :=
  match s with
  | EmptyString => EmptyString
  | String c r => if is_space c then trimStart r else s
  end.

(** [s.trim()] *)
Definition trim (s : string) : string :=
  rev_string (trimStart (rev_string (trimStart s) EmptyString)) EmptyString.

(** [n] copies of [c] appended: [for (...) s += c]. *)
Fixpoint pad (n : nat) (c : ascii) (s : string) : string :=
  match n with
  | 0 => s
  | S k => pad k c (s +:+ String c EmptyString)
  end.

(** The length of the longest prefix whose characters satisfy [p]. *)
Fixpoint span (p : ascii -> bool) (s : string) : nat :=
  match s with
  | EmptyString => 0
  | String c r => if p c then S (span p r) else 0
  end.

Fixpoint drop (n : nat) (s : string) : string :=
  match n, s with
  | 0, _ => s
  | S k, String _ r => drop k r
  | S _, EmptyString => EmptyString
  end.

Definition take (n : nat) (s : string) : string := String.substring 0 n s.

(** A regular expression tried at the start of a string: the number of
    characters the match consumes (at least one) and the text that
    replaces them. *)
Definition matcher : Type := string -> option (nat * string).

(** [s.replace(/re/g, ...)]: matches are found left to right and do
    not overlap.  [skip] counts the characters of the current match
    that are still to be passed over. *)
Fixpoint replaceAll (m : matcher) (s : string) (skip : nat) : string :=
  match s with
  | EmptyString => EmptyString
  | String c r =>
      match skip with
      | S k => replaceAll m r k
      | 0 =>
          match m s with
          | Some (n, out) => out +:+ replaceAll m r (n - 1)
          | None => String c (replaceAll m r 0)
          end
      end
  end.

(** [s.replace(/re/, ...)]: only the leftmost match is replaced. *)
Fixpoint replaceFirst (m : matcher) (s : string) : string :=
  match s with
  | EmptyString => EmptyString
  | String c r =>
      match m s with
      | Some (n, out) => out +:+ drop n s
      | None => String c (replaceFirst m r)
      end
  end.

(** [lit \s* (one of next)]: a literal, any white space, then one
    character satisfying [next]; the answer is the number of white
    space characters. *)
Definition lit_spaces_then (lit : string) (next : ascii -> bool) (s : string)
  : option nat :=
  if String.prefix lit s then
    let r := drop (String.length lit) s in
    let k := span is_space r in
    match drop k r with
    | String c _ => if next c then Some k else None
    | EmptyString => None
    end
  else None.

End Js.

(* ------------------------------------------------------------------ *)
(** ** EventBus ([src/core/eventBus.js])                               *)
(* ------------------------------------------------------------------ *)

Module EventBus.

(** One entry of a topic's listener array.  [callback] is the handler:
    applied to the payload it returns a value or throws.  [exclusive]
    is the truthiness of [options.exclusive]. *)
Record listener (D : Type) : Type := Listener {
  id : string;
  callback : D -> completion string jsval;
  priority : Z;
  extensionId : option string;
  exclusive : bool
}.
Arguments Listener {D}.
Arguments id {D}.
Arguments callback {D}.
Arguments priority {D}.
Arguments extensionId {D}.
Arguments exclusive {D}.

(** [this.listeners]: topic name to listener array. *)
Abbreviation listeners D := (gmap string (list (listener D))).

(** The [for (const listener of listeners)] loop of [emit], with the
    local [handled] as accumulator, on an array that nothing modifies
    while the loop runs.  It also returns the listeners whose callback
    was invoked, in order, and the number of errors logged.  The loop
    on an array that is modified meanwhile is [live_dispatch] below;
    the two agree when nothing is modified and every callback answers
    each of its calls the same. *)
Fixpoint dispatch {D} (ls : list (listener D)) (data : D) (handled : bool)
  : bool * list (listener D) * nat :=
  match ls with
  | [] => (handled, [], 0)
  | l :: rest =>
      match callback l data with
      | Normal result =>
          if strict_true result then
            if exclusive l then (true, [l], 0)
            else
              let '(h, inv, errs) := dispatch rest data true in
              (h, l :: inv, errs)
          else
            let '(h, inv, errs) := dispatch rest data handled in
            (h, l :: inv, errs)
      | Abrupt _ =>
          let '(h, inv, errs) := dispatch rest data handled in
          (h, l :: inv, S errs)
      end
  end.

Definition emit_run {D} (bus : listeners D) (event : string) (data : D)
  : bool * list (listener D) * nat :=
  match bus !! event with
  | None => (false, [], 0)
  | Some ls =>
      if Nat.eqb (List.length ls) 0 then (false, [], 0)
      else dispatch ls data false
  end.

(** [emit(event, data)]: the boolean the promise resolves to. *)
Definition emit {D} (bus : listeners D) (event : string) (data : D) : bool :=
  fst (fst (emit_run bus event data)).

(** The listeners [emit] actually called. *)
Definition invoked {D} (bus : listeners D) (event : string) (data : D)
  : list (listener D) :=
  snd (fst (emit_run bus event data)).

(** *** The loop on the live array

    [emit] keeps the array of the topic, not a copy of it, and waits
    for each handler.  While it waits, the handler, or anything else
    that runs, may register listeners on the topic ([addListener]
    pushes onto this array and sorts it) or remove some
    ([removeListener] splices it).  The loop walks the array by index:
    the [k]-th call is that of the listener standing at index [k] when
    the call starts, and the loop ends when the index reaches the
    length the array has by then.  So a listener may be passed over,
    when one at or before the index is removed, or called again, when
    one is inserted at or before the index. *)

Section Live.
Context {D : Type}.
(** [during k l arr]: what the array holds when the wait for the
    [k]-th call, that of listener [l], is over, given what it held
    when the call started. *)
Variable during : nat -> listener D -> list (listener D) -> list (listener D).
(** [answer k l data]: what the [k]-th call, that of the callback of
    listener [l] on [data], returns or throws.  A callback that is
    called again, its listener having moved to a later index, may
    answer differently. *)
Variable answer : nat -> listener D -> D -> completion string jsval.

(** The loop from index [index] on.  It can go on for ever when
    listeners keep being added: [fuel] bounds the number of calls, and
    [None] says it ran out. *)
Fixpoint live_dispatch (fuel : nat) (arr : list (listener D)) (index : nat)
    (data : D) (handled : bool) : option (bool * list (listener D) * nat) :=
  match fuel with
  | 0 => None
  | S fuel' =>
      match arr !! index with
      | None => Some (handled, [], 0)
      | Some l =>
          let arr' := during index l arr in
          match answer index l data with
          | Normal result =>
              if strict_true result then
                if exclusive l then Some (true, [l], 0)
                else
                  match live_dispatch fuel' arr' (S index) data true with
                  | Some (h, inv, errs) => Some (h, l :: inv, errs)
                  | None => None
                  end
              else
                match live_dispatch fuel' arr' (S index) data handled with
                | Some (h, inv, errs) => Some (h, l :: inv, errs)
                | None => None
                end
          | Abrupt _ =>
              match live_dispatch fuel' arr' (S index) data handled with
              | Some (h, inv, errs) => Some (h, l :: inv, S errs)
              | None => None
              end
          end
      end
  end.

(** [emit(event, data)] on the live array: the boolean the promise
    resolves to, the listeners called and the number of errors
    logged. *)
Definition live_emit_run (fuel : nat) (bus : listeners D) (event : string) (data : D)
  : option (bool * list (listener D) * nat) :=
  match bus !! event with
  | None => Some (false, [], 0)
  | Some ls =>
      if Nat.eqb (List.length ls) 0 then Some (false, [], 0)
      else live_dispatch fuel ls 0 data false
  end.

(** The array after the calls of [calls], the first of which was the
    call number [k], on the array [arr]. *)
Fixpoint live_array (arr : list (listener D)) (calls : list (listener D)) (k : nat)
  : list (listener D) :=
  match calls with
  | [] => arr
  | l :: rest => live_array (during k l arr) rest (S k)
  end.

(** How many of the calls of [calls], the first of which was the call
    number [k], threw. *)
Fixpoint thrown (calls : list (listener D)) (k : nat) (data : D) : nat :=
  match calls with
  | [] => 0
  | l :: rest =>
      match answer k l data with
      | Abrupt _ => S (thrown rest (S k) data)
      | Normal _ => thrown rest (S k) data
      end
  end.

(** The array never holds more than [bound] listeners. *)
Definition bounded (bound : nat) : Prop :=
  forall k l arr, List.length arr <= bound -> List.length (during k l arr) <= bound.

(** Nothing modifies the array during the calls. *)
Definition unmodified : Prop :=
  forall k l arr, during k l arr = arr.

(** Every call of a callback on [data] answers the same. *)
Definition steady (data : D) : Prop :=
  forall k l, answer k l data = callback l data.

End Live.

(** A listener whose handler answers with a non-empty string. *)
Definition chatty_listener : listener unit :=
  Listener "command_1" (fun _ => Normal (VStr "handled")) 0 None false.

(** [removeListener(id)] seen from the array of one topic: the first
    entry with that id is spliced out. *)
Fixpoint splice_id {D} (i : string) (arr : list (listener D)) : list (listener D) :=
  match arr with
  | [] => []
  | l :: rest => if String.eqb (id l) i then rest else l :: splice_id i rest
  end.

(** What happens to the array when the handler of the listener of id
    [i] ends by removing its own registration, as the handler of the
    message monitor does through [cleanup]
    ([src/extensions/moderationHandler.js]), and no other handler
    touches the array. *)
Definition leaves {D} (i : string)
  : nat -> listener D -> list (listener D) -> list (listener D) :=
  fun _ l arr => if String.eqb (id l) i then splice_id i arr else arr.

(** Three listeners of the topic of incoming messages: one whose
    handler removes its own registration and returns nothing, one whose
    handler returns nothing, one whose handler returns [true]. *)
Definition leaving_listener : listener unit :=
  Listener "messageCreate_1" (fun _ => Normal VUndefined) 0 (Some "message-monitor") false.

Definition quiet_listener : listener unit :=
  Listener "messageCreate_2" (fun _ => Normal VUndefined) 0 (Some "emoji-tracker") false.

Definition handling_listener : listener unit :=
  Listener "messageCreate_3" (fun _ => Normal (VBool true)) 0 None false.

End EventBus.

(* ------------------------------------------------------------------ *)
(** ** WorkflowEngine ([src/workflow/actionHandler.js], second class)  *)
(* ------------------------------------------------------------------ *)

Module WorkflowEngine.

(** A plan step.  [action] is [step.params.action]; [None] stands for a
    step whose [params] or whose [params.action] is missing or falsy.
    [critical] is the truthiness of [step.critical]. *)
Record Step : Type := mkStep {
  step_id : string;
  tool : string;
  action : option string;
  critical : bool
}.

(** What the action executor hands back for a step: [success] is the
    truthiness of [result.success], [error] the text of
    [result.error]. *)
Record ExecResult : Type := mkExecResult {
  success : bool;
  error : string
}.

(** An element of a [results] array: [{stepId, success, result}] or
    [{stepId, success: false, error}]. *)
Inductive StepResult : Type :=
| Outcome (stepId : string) (ok : bool) (result : ExecResult)
| Failure (stepId : string) (message : string).

Definition entry_stepId (r : StepResult) : string :=
  match r with
  | Outcome i _ _ => i
  | Failure i _ => i
  end.

(** The [steps] property of the argument of [executeWorkflow]. *)
Inductive steps_field : Type :=
| StepsUndefined
| StepsNull
| StepsNotArray (is_truthy : bool)
| StepsArray (steps : list Step).

(** A plan object; [meta_strategy] is [plan.meta?.strategy]. *)
Record Plan : Type := mkPlan {
  steps : steps_field;
  meta_strategy : option string;
  requiresApproval : bool
}.

Inductive Status : Type := running | completed | failed.

(** Arrays are shared by reference: a record holds the location of its
    [results] array. *)
Definition loc := nat.

(** The id [wf_<Date.now()>_<floor(random*1000)>], kept as its two
    numbers. *)
Definition wfid : Type := nat * nat.

Record WorkflowRecord : Type := mkRecord {
  wf_id : wfid;
  wf_plan : Plan;
  startTime : nat;
  status : Status;
  results : loc;
  currentStep : option nat;
  endTime : option nat;
  wf_error : option string
}.

(** The engine: the registry [this.activeWorkflows] and the store of
    result arrays. *)
Record engine : Type := mkEngine {
  activeWorkflows : gmap wfid WorkflowRecord;
  arrays : gmap loc (list StepResult);
  next_loc : loc
}.

(** [[]]: a fresh empty array. *)
Definition new_array (σ : engine) : engine * loc :=
  (mkEngine (activeWorkflows σ) (<[next_loc σ := []]> (arrays σ)) (S (next_loc σ)),
   next_loc σ).

(** [arr.push(x)] *)
Definition push (σ : engine) (arr : loc) (x : StepResult) : engine :=
  mkEngine (activeWorkflows σ) (alter (fun l => l ++ [x]) arr (arrays σ)) (next_loc σ).

Definition set_record (σ : engine) (w : wfid) (r : WorkflowRecord) : engine :=
  mkEngine (<[w := r]> (activeWorkflows σ)) (arrays σ) (next_loc σ).

Definition read_array (σ : engine) (arr : loc) : list StepResult :=
  default [] (arrays σ !! arr).

(** The readings of the clock and of the random source that one call
    of [executeWorkflow] makes. *)
Record env : Type := mkEnv {
  now_id : nat;
  random1000 : nat;
  now_start : nat;
  now_end : nat
}.

(** What [executeWorkflow] returns. *)
Inductive workflow_return : Type :=
| Invalid (message : string)
| Succeeded (workflowId : wfid) (res : loc)
| Failed (workflowId : wfid) (message : string).

Section Engine.
(** [_executeDiscordRequest]: the external action executor, reached
    through [this.actionHandler]; it returns a result or throws. *)
Variable executor : string -> Step -> completion string ExecResult.

Definition _executeStep (step : Step) : completion string ExecResult :=
  match action step with
  | None => Abrupt "Invalid step configuration"
  | Some a =>
      if String.eqb (tool step) "discord.request" then executor a step
      else Abrupt ("Unknown tool: " +:+ tool step)
  end.

(** The body of the [try] block of one iteration of
    [_executeSequential]. *)
Definition sequential_try (step : Step) (i : nat) (res : loc) (w : wfid)
    (σ : engine) : engine * completion string unit :=
  match _executeStep step with
  | Abrupt e => (σ, Abrupt e)
  | Normal result =>
      let σ1 := push σ res (Outcome (step_id step) (success result) result) in
      let σ2 :=
        match activeWorkflows σ1 !! w with
        | Some wf =>
            set_record σ1 w
              (mkRecord (wf_id wf) (wf_plan wf) (startTime wf) (status wf)
                 res (Some (i + 1)) (endTime wf) (wf_error wf))
        | None => σ1
        end in
      if negb (success result) && critical step then
        (σ2, Abrupt ("Critical step " +:+ step_id step +:+ " failed: "
                       +:+ error result))
      else (σ2, Normal tt)
  end.

(** The [for] loop of [_executeSequential], from index [i] on. *)
Fixpoint sequential_loop (todo : list Step) (i : nat) (res : loc) (w : wfid)
    (σ : engine) : engine * completion string unit :=
  match todo with
  | [] => (σ, Normal tt)
  | step :: rest =>
      match sequential_try step i res w σ with
      | (σ1, Normal _) => sequential_loop rest (S i) res w σ1
      | (σ1, Abrupt e) =>
          (* catch (error) *)
          let σ2 := push σ1 res (Failure (step_id step) e) in
          if critical step then (σ2, Abrupt e)
          else sequential_loop rest (S i) res w σ2
      end
  end.

Definition _executeSequential (todo : list Step) (w : wfid) (σ : engine)
  : engine * completion string loc :=
  let '(σ0, res) := new_array σ in
  match sequential_loop todo 0 res w σ0 with
  | (σ1, Normal _) => (σ1, Normal res)
  | (σ1, Abrupt e) => (σ1, Abrupt e)
  end.

(** One promise of [_executeParallel]: it never rejects. *)
Definition parallel_entry (step : Step) : StepResult :=
  match _executeStep step with
  | Normal result => Outcome (step_id step) (success result) result
  | Abrupt e => Failure (step_id step) e
  end.

(** [_executeParallel]: [Promise.all] keeps the order of the steps. *)
Definition _executeParallel (todo : list Step) (w : wfid) (σ : engine)
  : engine * completion string loc :=
  let '(σ0, res) := new_array σ in
  (mkEngine (activeWorkflows σ0)
     (<[res := map parallel_entry todo]> (arrays σ0)) (next_loc σ0),
   Normal res).

(** [plan.meta?.strategy || 'sequential'] *)
Definition strategy_of (p : Plan) : string :=
  match meta_strategy p with
  | Some s => if String.eqb s EmptyString then "sequential" else s
  | None => "sequential"
  end.

Definition executeWorkflow (plan : option Plan) (e : env) (σ : engine)
  : engine * workflow_return :=
  match plan with
  | None => (σ, Invalid "Invalid workflow plan")
  | Some p =>
      match steps p with
      | StepsUndefined | StepsNull | StepsNotArray _ =>
          (σ, Invalid "Invalid workflow plan")
      | StepsArray todo =>
          let workflowId := (now_id e, random1000 e) in
          let '(σ0, empty) := new_array σ in
          let σ1 :=
            set_record σ0 workflowId
              (mkRecord workflowId p (now_start e) running empty
                 None None None) in
          (* try *)
          let strategy := strategy_of p in
          let '(σ2, c) :=
            if String.eqb strategy "sequential" then
              _executeSequential todo workflowId σ1
            else if String.eqb strategy "parallel" then
              _executeParallel todo workflowId σ1
            else (σ1, Abrupt ("Unknown execution strategy: " +:+ strategy)) in
          let '(σ3, c') :=
            match c with
            | Normal res =>
                match activeWorkflows σ2 !! workflowId with
                | Some wf =>
                    (set_record σ2 workflowId
                       (mkRecord (wf_id wf) (wf_plan wf) (startTime wf)
                          completed res (currentStep wf)
                          (Some (now_end e)) (wf_error wf)),
                     Normal res)
                | None =>
                    (σ2, Abrupt "Cannot set properties of undefined (setting 'status')")
                end
            | Abrupt err => (σ2, Abrupt err)
            end in
          match c' with
          | Normal res => (σ3, Succeeded workflowId res)
          | Abrupt err =>
              (* catch (error) *)
              let σ4 :=
                match activeWorkflows σ3 !! workflowId with
                | Some wf =>
                    set_record σ3 workflowId
                      (mkRecord (wf_id wf) (wf_plan wf) (startTime wf)
                         failed (results wf) (currentStep wf)
                         (Some (now_end e)) (Some err))
                | None => σ3
                end in
              (σ4, Failed workflowId err)
          end
      end
  end.

(** What [getWorkflowStatus] can see of a record, plus the length of
    the array its [results] field points to. *)
Definition record_status (σ : engine) (w : wfid) : option Status :=
  status <$> (activeWorkflows σ !! w).

Definition record_results (σ : engine) (w : wfid) : option (list StepResult) :=
  (fun wf => read_array σ (results wf)) <$> (activeWorkflows σ !! w).

End Engine.

(** A step fails when [_executeStep] throws or when the result it
    returns has a falsy [success]. *)
Definition step_fails (executor : string -> Step -> completion string ExecResult)
    (s : Step) : bool :=
  match _executeStep executor s with
  | Normal r => negb (success r)
  | Abrupt _ => true
  end.

Definition empty_engine : engine := mkEngine ∅ ∅ 0.

(** What [getWorkflowStatus] returns for a known id. *)
Record WorkflowSummary : Type := mkSummary {
  s_id : wfid;
  s_status : Status;
  s_startTime : nat;
  s_endTime : option nat;
  s_currentStep : option nat;
  s_totalSteps : option nat
}.

(** [getWorkflowStatus(workflowId)]: [None] is [null].  [totalSteps] is
    [workflow.plan.steps.length]; the records [executeWorkflow] creates
    hold an array there. *)
Definition getWorkflowStatus (σ : engine) (w : wfid) : option WorkflowSummary :=
  match activeWorkflows σ !! w with
  | None => None
  | Some wf =>
      Some (mkSummary (wf_id wf) (status wf) (startTime wf) (endTime wf)
              (currentStep wf)
              (match steps (wf_plan wf) with
               | StepsArray todo => Some (List.length todo)
               | _ => None
               end))
  end.

(** What a run of the sequential loop on the array [res] for the
    workflow [w] may change in the engine: the array [res], and in the
    record of [w] the fields [currentStep] and [results], the latter
    only to point to [res]. *)
Definition loop_frame (res : loc) (w : wfid) (σ σ' : engine) : Prop :=
  next_loc σ' = next_loc σ /\
  (forall l, l <> res -> arrays σ' !! l = arrays σ !! l) /\
  (forall w', w' <> w -> activeWorkflows σ' !! w' = activeWorkflows σ !! w') /\
  (forall wf, activeWorkflows σ !! w = Some wf ->
     exists wf', activeWorkflows σ' !! w = Some wf' /\
       status wf' = status wf /\ wf_plan wf' = wf_plan wf /\
       wf_id wf' = wf_id wf /\ startTime wf' = startTime wf /\
       endTime wf' = endTime wf /\ wf_error wf' = wf_error wf /\
       (results wf' = results wf \/ results wf' = res)).

End WorkflowEngine.

(* ------------------------------------------------------------------ *)
(** ** [JSON.parse], as far as whether it throws goes                 *)
(* ------------------------------------------------------------------ *)

(** [JSON.parse] is a built-in; the code only asks whether it throws.
    The recogniser below follows the JSON grammar (ECMA-404): it returns
    the text left after one value. *)
Module Json.

Definition is_ws (c : ascii) : bool :=
  let n := nat_of_ascii c in
  Nat.eqb n 32 || Nat.eqb n 9 || Nat.eqb n 10 || Nat.eqb n 13.

Fixpoint skip_ws (s : string) : string :=
  match s with
  | String c r => if is_ws c then skip_ws r else s
  | EmptyString => s
  end.

Definition is_hex (c : ascii) : bool :=
  let n := nat_of_ascii c in
  Js.is_digit c || (Nat.leb 65 n && Nat.leb n 70) || (Nat.leb 97 n && Nat.leb n 102).

Definition is_escape (c : ascii) : bool :=
  existsb (Ascii.eqb c) ["034";"\";"/";"b";"f";"n";"r";"t"]%char.

(** The characters of a string after its opening quote, up to and
    including the closing quote. *)
Fixpoint string_body (s : string) : option string :=
  match s with
  | EmptyString => None
  | String c r =>
      if Ascii.eqb c "034" then Some r
      else if Ascii.eqb c "\" then
        match r with
        | String e r1 =>
            if is_escape e then string_body r1
            else if Ascii.eqb e "u" then
              match r1 with
              | String h1 (String h2 (String h3 (String h4 r2))) =>
                  if is_hex h1 && is_hex h2 && is_hex h3 && is_hex h4
                  then string_body r2 else None
              | _ => None
              end
            else None
        | EmptyString => None
        end
      else if Nat.ltb (nat_of_ascii c) 32 then None
      else string_body r
  end.

(** One or more digits. *)
Definition digits1 (s : string) : option string :=
  match Js.span Js.is_digit s with
  | 0 => None
  | n => Some (Js.drop n s)
  end.

Definition number (s : string) : option string :=
  let s1 := match s with
            | String "-" r => r
            | _ => s
            end in
  let int_part :=
    match s1 with
    | String "0" r => Some r
    | _ => digits1 s1
    end in
  match int_part with
  | None => None
  | Some s2 =>
      let frac :=
        match s2 with
        | String "." r => digits1 r
        | _ => Some s2
        end in
      match frac with
      | None => None
      | Some s3 =>
          match s3 with
          | String c r =>
              if Ascii.eqb c "e" || Ascii.eqb c "E" then
                match r with
                | String sg r' =>
                    if Ascii.eqb sg "+" || Ascii.eqb sg "-" then digits1 r'
                    else digits1 r
                | EmptyString => None
                end
              else Some s3
          | EmptyString => Some s3
          end
      end
  end.

Fixpoint value (fuel : nat) (s : string) : option string :=
  match fuel with
  | 0 => None
  | S f =>
      match skip_ws s with
      | String "{" r =>
          match skip_ws r with
          | String "}" r' => Some r'
          | r' => members f r'
          end
      | String "[" r =>
          match skip_ws r with
          | String "]" r' => Some r'
          | r' => elements f r'
          end
      | String "034" r => string_body r
      | s' =>
          if String.prefix "true" s' then Some (Js.drop 4 s')
          else if String.prefix "false" s' then Some (Js.drop 5 s')
          else if String.prefix "null" s' then Some (Js.drop 4 s')
          else number s'
      end
  end
with members (fuel : nat) (s : string) : option string :=
  match fuel with
  | 0 => None
  | S f =>
      match skip_ws s with
      | String "034" r =>
          match string_body r with
          | Some r1 =>
              match skip_ws r1 with
              | String ":" r2 =>
                  match value f r2 with
                  | Some r3 =>
                      match skip_ws r3 with
                      | String "," r4 => members f r4
                      | String "}" r4 => Some r4
                      | _ => None
                      end
                  | None => None
                  end
              | _ => None
              end
          | None => None
          end
      | _ => None
      end
  end
with elements (fuel : nat) (s : string) : option string :=
  match fuel with
  | 0 => None
  | S f =>
      match value f s with
      | Some r1 =>
          match skip_ws r1 with
          | String "," r2 => elements f r2
          | String "]" r2 => Some r2
          | _ => None
          end
      | None => None
      end
  end.

(** [true] when [JSON.parse(s)] returns, [false] when it throws. *)
Definition parses (s : string) : bool :=
  match value (2 * String.length s + 2) s with
  | Some r => String.eqb (skip_ws r) EmptyString
  | None => false
  end.

End Json.

(* ------------------------------------------------------------------ *)
(** ** LLMService ([src/ai/llmService.js])                             *)
(* ------------------------------------------------------------------ *)

Module LLMService.

(** *** [_fixJsonFormat] *)

Definition quote : string := String "034" EmptyString.
Definition newline : string := String "010" EmptyString.

(** The regular expression: three backticks, [json], any white space. *)
Definition re_fence_json : Js.matcher := fun s =>
  if String.prefix "```json" s
  then Some (7 + Js.span Js.is_space (Js.drop 7 s), EmptyString) else None.

(** Three backticks, any white space. *)
Definition re_fence : Js.matcher := fun s =>
  if String.prefix "```" s
  then Some (3 + Js.span Js.is_space (Js.drop 3 s), EmptyString) else None.

(** A single quote, replaced by a double quote. *)
Definition re_single_quote : Js.matcher := fun s =>
  if String.prefix "'" s then Some (1, quote) else None.

Definition is_closer (c : ascii) : bool := Ascii.eqb c "}" || Ascii.eqb c "]".

(** A comma, any white space, then a closing brace or bracket;
    replaced by the white space and the closer (the group [$1]). *)
Definition re_trailing_comma : Js.matcher := fun s =>
  match Js.lit_spaces_then "," is_closer s with
  | Some k => Some (k + 2, Js.take (k + 1) (Js.drop 1 s))
  | None => None
  end.

(** One or more word characters [p1], then a colon; replaced by the
    callback's result: [p1] between double quotes, then the colon.
    ([p1] consists of word characters, so it neither starts nor ends
    with a quote and the callback never returns the match as it is.) *)
Definition re_key : Js.matcher := fun s =>
  match Js.span Js.is_word s with
  | 0 => None
  | n =>
      match Js.drop n s with
      | String ":" _ => Some (n + 1, quote +:+ Js.take n s +:+ quote +:+ ":")
      | _ => None
      end
  end.

(** A closing brace, any white space, an opening brace; replaced by
    closing brace, comma, line feed, opening brace. *)
Definition re_brace_brace : Js.matcher := fun s =>
  match Js.lit_spaces_then "}" (Ascii.eqb "{") s with
  | Some k => Some (k + 2, "}," +:+ newline +:+ "{")
  | None => None
  end.

(** A closing brace, any white space, a double quote; replaced by
    closing brace, comma, line feed, double quote. *)
Definition re_brace_quote : Js.matcher := fun s =>
  match Js.lit_spaces_then "}" (Ascii.eqb "034") s with
  | Some k => Some (k + 2, "}," +:+ newline +:+ quote)
  | None => None
  end.

(** A double quote, any white space, an opening brace; replaced by
    double quote, comma, line feed, opening brace. *)
Definition re_quote_brace : Js.matcher := fun s =>
  match Js.lit_spaces_then quote (Ascii.eqb "{") s with
  | Some k => Some (k + 2, quote +:+ "," +:+ newline +:+ "{")
  | None => None
  end.

(** The word steps between double quotes, any white space, a colon;
    replaced by the quoted word, colon, space, opening bracket. *)
Definition re_steps : Js.matcher := fun s =>
  match Js.lit_spaces_then (quote +:+ "steps" +:+ quote) (Ascii.eqb ":") s with
  | Some k => Some (k + 8, quote +:+ "steps" +:+ quote +:+ ": [")
  | None => None
  end.

(** A closing brace followed only by white space up to the end of
    the text; replaced by closing bracket, closing brace. *)
Definition re_last_brace : Js.matcher := fun s =>
  match s with
  | String "}" r =>
      if Nat.eqb (Js.span Js.is_space r) (String.length r)
      then Some (1 + String.length r, "]}") else None
  | _ => None
  end.

(** The slice from the first [{] to the last [}]. *)
Definition slice_object (s : string) : string :=
  match Js.indexOf "{" s, Js.lastIndexOf "}" s with
  | Some jsonStartIndex, Some jsonEndIndex =>
      if Nat.ltb jsonStartIndex jsonEndIndex
      then Js.substring jsonStartIndex (jsonEndIndex + 1) s
      else s
  | _, _ => s
  end.

(** The loop over [lines]: each decision reads the original
    [lines[i]] and [lines[i + 1]]. *)
Fixpoint fix_lines (lines : list string) : list string :=
  match lines with
  | l :: ((l' :: _) as rest) =>
      let line := Js.trim l in
      let nextLine := Js.trim l' in
      let l1 :=
        if Js.includes ":" line && Js.includes ":" nextLine &&
           negb (Js.endsWith "," line) && negb (Js.endsWith "{" line) &&
           negb (Js.endsWith "[" line)
        then line +:+ "," else l in
      let l2 :=
        if (Js.endsWith "}" line || Js.endsWith quote line || Js.endsWith "'" line) &&
           (Js.startsWith "{" nextLine || Js.startsWith quote nextLine ||
            Js.startsWith "'" nextLine) &&
           negb (Js.endsWith "," line)
        then line +:+ "," else l1 in
      l2 :: fix_lines rest
  | _ => lines
  end.

(** Appends the closers that are missing: braces first, then
    brackets. *)
Definition balance (s : string) : string :=
  let s1 := Js.pad (Js.count "{" s - Js.count "}" s) "}" s in
  Js.pad (Js.count "[" s1 - Js.count "]" s1) "]" s1.

(** Everything [_fixJsonFormat] does before its final
    [JSON.parse] check. *)
Definition repair (content : string) : string :=
  let s := Js.replaceAll re_fence_json content 0 in
  let s := Js.replaceAll re_fence s 0 in
  let s := slice_object s in
  let s := Js.replaceAll re_single_quote s 0 in
  let s := Js.replaceAll re_trailing_comma s 0 in
  let s := Js.replaceAll re_key s 0 in
  let s := Js.replaceAll re_brace_brace s 0 in
  let s := Js.replaceAll re_brace_quote s 0 in
  let s := Js.replaceAll re_quote_brace s 0 in
  let s := Js.replaceAll re_brace_brace s 0 in
  let s := Js.replaceAll re_brace_brace s 0 in
  let s := Js.join newline (fix_lines (Js.split "010" s)) in
  balance s.

(** The [catch (parseError)] branch. *)
Definition last_resort (jsonContent : string) : string :=
  if Js.includes (quote +:+ "steps" +:+ quote) jsonContent &&
     negb (Js.includes (quote +:+ "steps" +:+ quote +:+ ": [") jsonContent) &&
     negb (Js.includes (quote +:+ "steps" +:+ quote +:+ ":[]") jsonContent)
  then
    let s := Js.replaceFirst re_steps jsonContent in
    if negb (Js.includes (quote +:+ "steps" +:+ quote +:+ ": []") s) &&
       negb (Js.includes "]}" s)
    then Js.replaceFirst re_last_brace s
    else s
  else jsonContent.

(** [_fixJsonFormat(content)] for a string [content]: no statement of
    the outer [try] can throw on a string, so the outer [catch], the
    only place that returns [content] itself, is not reached. *)
Definition _fixJsonFormat (content : string) : string :=
  let jsonContent := repair content in
  if Json.parses jsonContent then jsonContent
  else last_resort jsonContent.

(** *** The fallback synthesizer *)

Definition is_quote (c : ascii) : bool := Ascii.eqb c "034" || Ascii.eqb c "'".

(** The first match of: a quote (double or single), one or more
    characters that are not quotes, a quote.  The answer is the group,
    the text between the quotes. *)
Fixpoint match_quoted (s : string) : option string :=
  match s with
  | EmptyString => None
  | String c r =>
      let n := Js.span (fun d => negb (is_quote d)) r in
      if is_quote c && negb (Nat.eqb n 0) &&
         match Js.drop n r with
         | String d _ => is_quote d
         | EmptyString => false
         end
      then Some (Js.take n r)
      else match_quoted r
  end.

(** The first match of: one or more digits, any white space, then one
    of the words in [units], letter case ignored.  The answer is the
    group, the digits. *)
Fixpoint match_count (units : list string) (s : string) : option string :=
  match s with
  | EmptyString => None
  | String c r =>
      let n := Js.span Js.is_digit s in
      let after := Js.drop n s in
      let rest := Js.drop (Js.span Js.is_space after) after in
      if negb (Nat.eqb n 0) &&
         existsb (fun u => String.prefix u (Js.toLowerCase rest)) units
      then Some (Js.take n s)
      else match_count units r
  end.

(** The first match of a user mention: [<@], an optional [!], one or
    more digits, [>].  The answer is the group, the digits. *)
Fixpoint match_mention (s : string) : option string :=
  match s with
  | EmptyString => None
  | String c r =>
      if String.prefix "<@" s then
        let r1 := Js.drop 2 s in
        let r2 := match r1 with
                  | String "!" r' => r'
                  | _ => r1
                  end in
        let n := Js.span Js.is_digit r2 in
        if negb (Nat.eqb n 0) && String.prefix ">" (Js.drop n r2)
        then Some (Js.take n r2)
        else match_mention r
      else match_mention r
  end.

(** [parseInt] of a string of decimal digits: the exact value.  The
    source gets a double, which is this value up to 2^53 and, above, a
    rounding of it or Infinity, no less than 2^53; the write and the ban
    command only take its minimum with 5 or with 7, which is the same
    for both.  The timeout command multiplies it: see
    [parseInt_number]. *)
Fixpoint parseInt_acc (s : string) (acc : nat) : nat :=
  match s with
  | EmptyString => acc
  | String c r => parseInt_acc r (10 * acc + (nat_of_ascii c - 48))
  end.
Definition parseInt (s : string) : nat := parseInt_acc s 0.

(** The decimal text of a number, as a template literal prints it. *)
Fixpoint toString_acc (fuel n : nat) (acc : string) : string :=
  match fuel with
  | 0 => acc
  | S f =>
      let acc' := String (ascii_of_nat (48 + n mod 10)) acc in
      if Nat.ltb n 10 then acc' else toString_acc f (n / 10) acc'
  end.
Definition toString (n : nat) : string := toString_acc (S n) n EmptyString.

(** A step and a plan as the synthesizer builds them, before
    [JSON.stringify]. *)
Record PlanStep : Type := mkPlanStep {
  ps_tool : string;
  ps_action : string;
  ps_content : string;
  ps_id : string
}.

Record FallbackPlan : Type := mkFallbackPlan {
  fp_steps : list PlanStep;
  fp_strategy : string
}.

Definition hex_digit (n : nat) : ascii :=
  if Nat.ltb n 10 then ascii_of_nat (48 + n) else ascii_of_nat (87 + n).

(** How [JSON.stringify] writes one character of a string. *)
Definition escape_char (c : ascii) : string :=
  let n := nat_of_ascii c in
  if Ascii.eqb c "034" then "\" +:+ quote
  else if Ascii.eqb c "\" then "\\"
  else if Nat.eqb n 8 then "\b"
  else if Nat.eqb n 12 then "\f"
  else if Nat.eqb n 10 then "\n"
  else if Nat.eqb n 13 then "\r"
  else if Nat.eqb n 9 then "\t"
  else if Nat.ltb n 32 then
    "\u00" +:+ String (hex_digit (n / 16)) (String (hex_digit (n mod 16)) EmptyString)
  else String c EmptyString.

Fixpoint escape (s : string) : string :=
  match s with
  | EmptyString => EmptyString
  | String c r => escape_char c +:+ escape r
  end.

Definition json_string (s : string) : string := quote +:+ escape s +:+ quote.

Definition json_field (k v : string) : string := json_string k +:+ ":" +:+ v.

Definition stringify_step (st : PlanStep) : string :=
  "{" +:+ json_field "tool" (json_string (ps_tool st)) +:+ "," +:+
  json_field "params"
    ("{" +:+ json_field "action" (json_string (ps_action st)) +:+ "," +:+
     json_field "content" (json_string (ps_content st)) +:+ "}") +:+ "," +:+
  json_field "id" (json_string (ps_id st)) +:+ "}".

(** [JSON.stringify({steps, meta: {strategy}})] *)
Definition stringify_plan (p : FallbackPlan) : string :=
  "{" +:+ json_field "steps" ("[" +:+ Js.join "," (map stringify_step (fp_steps p)) +:+ "]")
  +:+ "," +:+
  json_field "meta" ("{" +:+ json_field "strategy" (json_string (fp_strategy p)) +:+ "}")
  +:+ "}".

(** The object [_processWriteCommand] builds. *)
Definition write_plan (userPrompt : string) : FallbackPlan :=
  let content :=
    match match_quoted userPrompt with
    | Some c => c
    | None => "Merhaba!"
    end in
  let repeat :=
    match match_count ["times"; "kez"; "defa"] userPrompt with
    | Some d => Nat.min (parseInt d) 5
    | None => 1
    end in
  let mention :=
    match match_mention userPrompt with
    | Some d => "<@" +:+ d +:+ "> "
    | None => EmptyString
    end in
  let shouldNumber :=
    Js.includes "number" (Js.toLowerCase userPrompt) ||
    Js.includes "numara" (Js.toLowerCase userPrompt) ||
    Js.includes "sayı" (Js.toLowerCase userPrompt) in
  let isIncrementing := Js.includes "increment" (Js.toLowerCase userPrompt) in
  let step (i : nat) :=
    let numberedContent :=
      if shouldNumber || isIncrementing then
        if isIncrementing then mention +:+ content +:+ " " +:+ toString (i + 1)
        else toString (i + 1) +:+ ". " +:+ mention +:+ content
      else mention +:+ content in
    mkPlanStep "discord.request" "message.create" numberedContent
      ("s" +:+ toString (i + 1)) in
  mkFallbackPlan (map step (seq 0 repeat)) "sequential".

Definition _processWriteCommand (userPrompt : string) : string :=
  stringify_plan (write_plan userPrompt).

(** *** The timeout command *)

Definition is_colon_or_space (c : ascii) : bool := Ascii.eqb c ":" || Ascii.eqb c " ".

(** The first match of: a label (letter case ignored), one or more
    colons or spaces, a double quote, one or more characters that are
    not double quotes, a double quote.  The answer is the group, the
    text between the quotes. *)
Fixpoint match_labelled (label : string) (s : string) : option string :=
  match s with
  | EmptyString => None
  | String c r =>
      let here :=
        if String.prefix label (Js.toLowerCase s) then
          let r1 := Js.drop (String.length label) s in
          let k := Js.span is_colon_or_space r1 in
          match Js.drop k r1 with
          | String q r2 =>
              let n := Js.span (fun d => negb (Ascii.eqb d "034")) r2 in
              match Js.drop n r2 with
              | String q' _ =>
                  if negb (Nat.eqb k 0) && Ascii.eqb q "034" &&
                     negb (Nat.eqb n 0) && Ascii.eqb q' "034"
                  then Some (Js.take n r2) else None
              | EmptyString => None
              end
          | EmptyString => None
          end
        else None in
      match here with
      | Some group => Some group
      | None => match_labelled label r
      end
  end.

(** The three duration patterns of this command carry the flag [i]
    and use the white-space class, so what they accept depends on
    characters outside ASCII.  They are modelled on the UTF-8 bytes of
    the prompt.

    [wide_space a b c]: the three bytes are one of the white-space
    characters U+1680, U+2000 to U+200A, U+2028, U+2029, U+202F, U+205F,
    U+3000 and U+FEFF. *)
Definition wide_space (a b c : nat) : bool :=
  (Nat.eqb a 225 && Nat.eqb b 154 && Nat.eqb c 128) ||
  (Nat.eqb a 226 && Nat.eqb b 128 &&
     ((Nat.leb 128 c && Nat.leb c 138) ||
      Nat.eqb c 168 || Nat.eqb c 169 || Nat.eqb c 175)) ||
  (Nat.eqb a 226 && Nat.eqb b 129 && Nat.eqb c 159) ||
  (Nat.eqb a 227 && Nat.eqb b 128 && Nat.eqb c 128) ||
  (Nat.eqb a 239 && Nat.eqb b 187 && Nat.eqb c 191).

(** The number of bytes of the white-space character at the head of a
    string, 0 when the string does not start with one: the six of
    ASCII, U+00A0 (two bytes) and those of [wide_space]. *)
Definition space_width (s : string) : nat :=
  match s with
  | String a r =>
      if Js.is_space a then 1
      else
        match r with
        | String b r' =>
            if Nat.eqb (Js.code a) 194 && Nat.eqb (Js.code b) 160 then 2
            else
              match r' with
              | String c _ =>
                  if wide_space (Js.code a) (Js.code b) (Js.code c) then 3 else 0
              | EmptyString => 0
              end
        | EmptyString => 0
        end
  | EmptyString => 0
  end.

(** A string without its first [pending] bytes and without the white
    space that follows them. *)
Fixpoint after_spaces (pending : nat) (s : string) {struct s} : string :=
  match s with
  | EmptyString => EmptyString
  | String _ r =>
      match pending with
      | S p => after_spaces p r
      | 0 =>
          match space_width s with
          | 0 => s
          | S w => after_spaces w r
          end
      end
  end.

(** What the flag [i] compares, for a pattern written in lower case
    with the letters a to z and ü: an ASCII capital counts as its small
    letter, Ü (bytes 195, 156) as ü (bytes 195, 188), and every other
    character as itself.  (Without the flag [u] no character outside
    ASCII counts as an ASCII letter.) *)
Fixpoint fold_case (s : string) : string :=
  match s with
  | EmptyString => EmptyString
  | String a r =>
      match r with
      | String b r' =>
          if Nat.eqb (Js.code a) 195 && Nat.eqb (Js.code b) 156
          then String a (String (ascii_of_nat 188) (fold_case r'))
          else String (Js.lower a) (fold_case r)
      | EmptyString => String (Js.lower a) EmptyString
      end
  end.

(** The first match of: one or more digits, any white space, then one
    of the words of [units], under the flag [i].  The answer is the
    group, the digits. *)
Fixpoint match_amount (units : list string) (s : string) : option string :=
  match s with
  | EmptyString => None
  | String c r =>
      let n := Js.span Js.is_digit s in
      let rest := after_spaces n s in
      if negb (Nat.eqb n 0) &&
         existsb (fun u => String.prefix u (fold_case rest)) units
      then Some (Js.take n s)
      else match_amount units r
  end.

(** The numbers of this command are doubles.  Every natural number up
    to 2^53 is a double, and sums, products and comparisons of naturals
    whose exact result is no greater than 2^53 are exact.  [Int n] is
    such a number; [Rounded] stands for any greater one, which is the
    exact result rounded and whose value is not modelled. *)
Inductive number : Type :=
| Int (n : N)
| Rounded.

Definition max_exact : N := 9007199254740992.

Definition exact (n : N) : number :=
  if (n <=? max_exact)%N then Int n else Rounded.

(** The value of a string of decimal digits. *)
Fixpoint digits_value (s : string) (acc : N) : N :=
  match s with
  | EmptyString => acc
  | String c r => digits_value r (10 * acc + N.of_nat (Js.code c - 48))%N
  end.

(** [parseInt(d)] for a string of decimal digits, as a number. *)
Definition parseInt_number (d : string) : number := exact (digits_value d 0).

(** [x * k] *)
Definition times (x : number) (k : N) : number :=
  match x with
  | Int n => exact (n * k)
  | Rounded => Rounded
  end.

(** The decimal text of a natural number up to 2^53, as a template
    literal prints it. *)
Definition number_toString (n : N) : string :=
  NilZero.string_of_uint (N.to_uint n).

(** [formatDuration(seconds)].  The quotient of a natural up to 2^53
    by 60, 3600 or 86400 is rounded by less than the distance to the
    next natural, so [Math.floor] of it is the exact integer quotient.
    [None]: the text depends on a number that is not modelled. *)
Definition formatDuration (seconds : number) : option string :=
  match seconds with
  | Int s =>
      Some (if (s <? 60)%N then number_toString s +:+ " saniye"
            else if (s <? 3600)%N then number_toString (s / 60) +:+ " dakika"
            else if (s <? 86400)%N then number_toString (s / 3600) +:+ " saat"
            else number_toString (s / 86400) +:+ " gün")
  | Rounded => None
  end.

(** What [_processTimeoutCommand] puts in the plan it builds: the
    [userId], [duration] and [reason] of the [member.timeout] step and
    the [content] of the message step ([None] when it depends on a
    number that is not modelled). *)
Record TimeoutPlan : Type := mkTimeoutPlan {
  tp_userId : string;
  tp_duration : number;
  tp_reason : string;
  tp_content : option string
}.

Definition timeout_plan (userPrompt : string) : TimeoutPlan :=
  let userId :=
    match match_mention userPrompt with
    | Some d => d
    | None => "USER_ID_REQUIRED"
    end in
  let duration := Int 300 in
  let duration :=
    match match_amount ["minute"; "dakika"; "min"; "dk"] userPrompt with
    | Some d => times (parseInt_number d) 60
    | None => duration
    end in
  let duration :=
    match match_amount ["hour"; "saat"; "h"] userPrompt with
    | Some d => times (parseInt_number d) 3600
    | None => duration
    end in
  let duration :=
    match match_amount ["day"; "gün"; "d"] userPrompt with
    | Some d => times (parseInt_number d) 86400
    | None => duration
    end in
  let reason :=
    match match_labelled "reason" userPrompt with
    | Some r => r
    | None => "Requested through bot command"
    end in
  mkTimeoutPlan userId duration reason
    (match formatDuration duration with
     | Some text =>
         Some ("✅ Kullanıcı <@" +:+ userId +:+ "> " +:+ text +:+ " süreyle susturuldu.")
     | None => None
     end).

(** *** The ban command *)

(** The first match of: the word delete (letter case ignored), one or
    more colons or spaces, one or more digits.  The answer is the
    group, the digits. *)
Fixpoint match_delete_days (s : string) : option string :=
  match s with
  | EmptyString => None
  | String c r =>
      let here :=
        if String.prefix "delete" (Js.toLowerCase s) then
          let r1 := Js.drop 6 s in
          let k := Js.span is_colon_or_space r1 in
          let r2 := Js.drop k r1 in
          let n := Js.span Js.is_digit r2 in
          if negb (Nat.eqb k 0) && negb (Nat.eqb n 0) then Some (Js.take n r2) else None
        else None in
      match here with
      | Some group => Some group
      | None => match_delete_days r
      end
  end.

(** What [_processBanCommand] puts in the plan it builds: the
    [userId], [reason] and [deleteMessageDays] of the [member.ban]
    step, the [content] of the message step, and [requiresApproval]. *)
Record BanPlan : Type := mkBanPlan {
  bp_userId : string;
  bp_reason : string;
  bp_deleteMessageDays : nat;
  bp_content : string;
  bp_requiresApproval : bool
}.

Definition ban_plan (userPrompt : string) : BanPlan :=
  let userId :=
    match match_mention userPrompt with
    | Some d => d
    | None => "USER_ID_REQUIRED"
    end in
  let reason :=
    match match_labelled "reason" userPrompt with
    | Some r => r
    | None => "Banned through bot command"
    end in
  let deleteMessageDays :=
    match match_delete_days userPrompt with
    | Some d => Nat.min (parseInt d) 7
    | None => 0
    end in
  mkBanPlan userId reason deleteMessageDays
    ("✅ Kullanıcı <@" +:+ userId +:+ "> sunucudan yasaklandı.") true.

(** The branch [_generateFallbackResponse] takes. *)
Inductive route : Type :=
| WriteCommand | TimeoutCommand | PurgeCommand | BanCommand | KickCommand
| RoleCommand | ChannelCommand | NicknameCommand | RepeatCommand
| DefaultResponse.

Definition route_of (userPrompt : string) : route :=
  let lowerPrompt := Js.toLowerCase userPrompt in
  let has w := Js.includes w lowerPrompt in
  if has "write" || has "send" || has "yaz" then WriteCommand
  else if has "timeout" || has "mute" || has "sustur" then TimeoutCommand
  else if has "purge" || has "clear" || has "delete" || has "sil" || has "temizle"
  then PurgeCommand
  else if has "ban" || has "yasak" then BanCommand
  else if has "kick" || has "at" then KickCommand
  else if has "role" || has "rol" then RoleCommand
  else if has "channel" || has "kanal" then ChannelCommand
  else if has "nickname" || has "nick" || has "isim" then NicknameCommand
  else if has "repeat" || has "tekrarla" then RepeatCommand
  else DefaultResponse.

Definition default_plan : FallbackPlan :=
  mkFallbackPlan
    [mkPlanStep "discord.request" "message.create"
       "API şu anda kullanılamıyor. Komutunuzu işlemek için daha açık ifadeler kullanın veya Ollama servisinin çalıştığından emin olun."
       "s1"]
    "sequential".

(** *** [generateResponse] *)

(** What one call of the backend comes to. *)
Inductive reply : Type :=
| FetchFailed (message : string)
| NotOk (status : nat) (errorBody : string)
| BodyNotJson (message : string)
| Content (content : option string).

Inductive error : Type :=
| Error (message : string)
| ReferenceError (message : string).

(** The fields of the service that [generateResponse] reads;
    [retryDelay] is the one it writes. *)
Record service : Type := mkService {
  retryAttempts : nat;
  retryDelay : N;
  useFallbackOnError : bool;
  fixJsonInResponse : bool
}.

(** The values the constructor sets. *)
Definition new_service : service := mkService 3 1000 true true.

Definition set_retryDelay (svc : service) (d : N) : service :=
  mkService (retryAttempts svc) d (useFallbackOnError svc) (fixJsonInResponse svc).

Inductive effect : Type :=
| Fetch
| Sleep (ms : N).

Section Generate.
(** The eight command handlers of the fallback synthesizer that no
    statement below looks into. *)
Variable other_command : route -> string -> string.

Definition _generateFallbackResponse (userPrompt : string) : string :=
  match route_of userPrompt with
  | WriteCommand => _processWriteCommand userPrompt
  | DefaultResponse => stringify_plan default_plan
  | r => other_command r userPrompt
  end.

(** The body of the [try] block, given what [fetch] came to. *)
Definition attempt (svc : service) (r : reply) : completion string string :=
  match r with
  | FetchFailed m => Abrupt m
  | NotOk status errorBody =>
      Abrupt ("API returned error " +:+ toString status +:+ ": " +:+ errorBody)
  | BodyNotJson m => Abrupt m
  | Content None => Abrupt "Invalid or empty response from API"
  | Content (Some content) =>
      if String.eqb content EmptyString
      then Abrupt "Invalid or empty response from API"
      else Normal (if fixJsonInResponse svc then _fixJsonFormat content
                   else content)
  end.

(** The [while (attemptCount < this.retryAttempts)] loop.  [backend]
    gives the outcome of the call made when [attemptCount] failures
    have occurred.  The loop returns the final content, or falls
    through with [lastError]. *)
Fixpoint retry_loop (fuel : nat) (backend : nat -> reply) (svc : service)
    (attemptCount : nat) (lastError : option string)
  : service * list effect * (string + option string) :=
  match fuel with
  | 0 => (svc, [], inr lastError)
  | S fuel' =>
      if Nat.ltb attemptCount (retryAttempts svc) then
        match attempt svc (backend attemptCount) with
        | Normal finalContent => (svc, [Fetch], inl finalContent)
        | Abrupt e =>
            let attemptCount' := attemptCount + 1 in
            if Nat.ltb attemptCount' (retryAttempts svc) then
              let svc' := set_retryDelay svc (retryDelay svc * 2) in
              let '(svc'', effs, out) :=
                retry_loop fuel' backend svc' attemptCount' (Some e) in
              (svc'', Fetch :: Sleep (retryDelay svc) :: effs, out)
            else
              let '(svc'', effs, out) :=
                retry_loop fuel' backend svc attemptCount' (Some e) in
              (svc'', Fetch :: effs, out)
        end
      else (svc, [], inr lastError)
  end.

(** The bindings visible to the statements that follow the loop:
    the parameters, the [const] and [let] of the function body, the
    module's own bindings and the globals the code uses.  [response],
    [data] and [content] are [const] bindings of the [try] block and
    are out of scope there. *)
Definition scope_after_loop : list string :=
  ["systemPrompt"; "userPrompt"; "jsonEnhancedSystemPrompt";
   "enhancedUserPrompt"; "attemptCount"; "lastError";
   "fetch"; "LLMService"; "formatDuration"; "console"; "JSON"; "Math";
   "Promise"; "setTimeout"; "process"; "require"; "module"].

(** Evaluating an identifier. *)
Definition read (name : string) : completion error unit :=
  if existsb (String.eqb name) scope_after_loop then Normal tt
  else Abrupt (ReferenceError (name +:+ " is not defined")).

Definition generateResponse (backend : nat -> reply) (svc : service)
    (systemPrompt userPrompt : string)
  : service * list effect * completion error string :=
  let '(svc', effs, out) := retry_loop (retryAttempts svc) backend svc 0 None in
  (svc', effs,
   match out with
   | inl finalContent => Normal finalContent
   | inr lastError =>
       (* the debug statements placed after the loop *)
       let* _ := read "response" in
       let* _ := read "response" in
       let* _ := read "content" in
       if useFallbackOnError svc' then
         Normal (_generateFallbackResponse userPrompt)
       else
         Abrupt (Error ("Failed to generate LLM response after " +:+
                        toString (retryAttempts svc') +:+ " attempts: " +:+
                        default "undefined" lastError))
   end).

(** Successive calls on one service object: each call starts from
    the service the previous one left. *)
Fixpoint generate_many (calls : list (nat -> reply)) (svc : service)
    (systemPrompt userPrompt : string) : service * list (list effect) :=
  match calls with
  | [] => (svc, [])
  | backend :: rest =>
      let '(svc', effs, _) := generateResponse backend svc systemPrompt userPrompt in
      let '(svc'', effss) := generate_many rest svc' systemPrompt userPrompt in
      (svc'', effs :: effss)
  end.

End Generate.

Fixpoint fetches (effs : list effect) : nat :=
  match effs with
  | [] => 0
  | Fetch :: r => S (fetches r)
  | Sleep _ :: r => fetches r
  end.

Fixpoint delays (effs : list effect) : list N :=
  match effs with
  | [] => []
  | Fetch :: r => delays r
  | Sleep d :: r => d :: delays r
  end.

(** [n] delays, the first one [d], each the double of the one
    before. *)
Fixpoint backoff (d : N) (n : nat) : list N :=
  match n with
  | 0 => []
  | S k => d :: backoff (d * 2) k
  end.

(** Whether a reply makes the [try] block return. *)
Definition succeeds (r : reply) : bool :=
  match r with
  | Content (Some c) => negb (String.eqb c EmptyString)
  | _ => false
  end.

End LLMService.

(* ------------------------------------------------------------------ *)
(** ** The approval gate ([requestPlanApproval], [src/core/bot.js])    *)
(* ------------------------------------------------------------------ *)

Module Approval.

(** A reaction added to the approval message: the emoji, who added it,
    and when, in milliseconds since the collector was created. *)
Record reaction : Type := mkReaction {
  emoji_name : string;
  user_id : string;
  at_ms : N
}.

Definition accept : string := "✅".
Definition reject : string := "❌".

(** The collector's [filter]. *)
Definition filter (author_id : string) (r : reaction) : bool :=
  (String.eqb (emoji_name r) accept || String.eqb (emoji_name r) reject) &&
  String.eqb (user_id r) author_id.

(** The contract of discord.js's [awaitReactions] with [max: 1] and
    [errors: ['time']]: the promise resolves with the first reaction
    that passes the filter before [time] has elapsed, and rejects when
    the time runs out first.  [events] lists the reactions in the
    order they arrive. *)
Fixpoint awaitReactions (keep : reaction -> bool) (time : N)
    (events : list reaction) : completion string reaction :=
  match events with
  | [] => Abrupt "time"
  | r :: rest =>
      if N.ltb (at_ms r) time && keep r then Normal r
      else awaitReactions keep time rest
  end.

(** What the function does that others can see. *)
Inductive effect : Type :=
| Show (key : string)
| React (emoji : string)
| Reply (key : string)
| OnApproved.

(** The code keeps no state variable: the state a session ends in is
    the branch taken, which the reply tells. *)
Inductive state : Type := Proposed | Approved | Rejected | Expired.

Definition window_ms : N := 30000.

(** [requestPlanApproval(message, plan, onApproved)].  [run_plan] is
    what [onApproved()] comes to if it is called: it returns or
    throws. *)
Definition requestPlanApproval (author_id : string)
    (run_plan : completion string unit) (events : list reaction)
  : state * list effect :=
  let shown := [Show "approvePlan"; React accept; React reject] in
  match awaitReactions (filter author_id) window_ms events with
  | Normal reaction =>
      if String.eqb (emoji_name reaction) accept then
        match run_plan with
        | Normal _ => (Approved, shown ++ [Reply "planApproved"; OnApproved])
        | Abrupt _ =>
            (Approved,
             shown ++ [Reply "planApproved"; OnApproved; Reply "planExpired"])
        end
      else (Rejected, shown ++ [Reply "planRejected"])
  | Abrupt _ => (Expired, shown ++ [Reply "planExpired"])
  end.

(** The number of times the plan was handed to execution. *)
Fixpoint executions (effs : list effect) : nat :=
  match effs with
  | [] => 0
  | OnApproved :: r => S (executions r)
  | _ :: r => executions r
  end.

(** The reactions of one user. *)
Fixpoint by_user (author_id : string) (events : list reaction) : list reaction :=
  match events with
  | [] => []
  | r :: rest =>
      if String.eqb (user_id r) author_id then r :: by_user author_id rest
      else by_user author_id rest
  end.

End Approval.

(* ------------------------------------------------------------------ *)
(** ** DynamicHandler ([src/core/dynamicHandler.js])                   *)
(* ------------------------------------------------------------------ *)

Module DynamicHandler.

(** *** Edit distance *)

(** [matrix[i][j]]; a missing entry reads as 0 (the code never reads
    one). *)
Definition cell (matrix : list (list nat)) (i j : nat) : nat :=
  default 0 (default [] (matrix !! i) !! j).

(** [arr[j] = v]: an index inside the array overwrites, the index
    [arr.length] appends.  (The code writes nowhere else.) *)
Definition array_set (arr : list nat) (j v : nat) : list nat :=
  if Nat.ltb j (List.length arr) then <[j := v]> arr else arr ++ [v].

(** [matrix[i][j] = v] *)
Definition set_cell (matrix : list (list nat)) (i j v : nat) : list (list nat) :=
  <[i := array_set (default [] (matrix !! i)) j v]> matrix.

(** The body of the inner loop of the fill. *)
Definition fill_cell (a b : list ascii) (matrix : list (list nat)) (i j : nat)
  : list (list nat) :=
  set_cell matrix i j
    (if bool_decide (b !! (i - 1) = a !! (j - 1)) then cell matrix (i - 1) (j - 1)
     else Nat.min (cell matrix (i - 1) (j - 1) + 1)
            (Nat.min (cell matrix i (j - 1) + 1) (cell matrix (i - 1) j + 1))).

Definition fill_row (a b : list ascii) (matrix : list (list nat)) (i : nat)
  : list (list nat) :=
  fold_left (fun m j => fill_cell a b m i j) (seq 1 (List.length a)) matrix.

Definition init_matrix (a b : list ascii) : list (list nat) :=
  let matrix := (fun i => [i]) <$> seq 0 (List.length b + 1) in
  fold_left (fun m j => set_cell m 0 j j) (seq 0 (List.length a + 1)) matrix.

Definition levenshtein_matrix (a b : list ascii) : list (list nat) :=
  fold_left (fun m i => fill_row a b m i) (seq 1 (List.length b)) (init_matrix a b).

Definition levenshtein (a b : list ascii) : nat :=
  if Nat.eqb (List.length a) 0 then List.length b
  else if Nat.eqb (List.length b) 0 then List.length a
  else cell (levenshtein_matrix a b) (List.length b) (List.length a).

(** [_levenshteinDistance(a, b)] *)
Definition _levenshteinDistance (a b : string) : nat :=
  levenshtein (list_ascii_of_string a) (list_ascii_of_string b).

(** [_calculateSimilarity(str1, str2)], as an exact fraction. *)
Definition _calculateSimilarity (str1 str2 : string) : Q :=
  let distance := _levenshteinDistance str1 str2 in
  let maxLength := Nat.max (String.length str1) (String.length str2) in
  if Nat.eqb maxLength 0 then 1
  else Z.of_nat (maxLength - distance) # Pos.of_nat maxLength.

(** *** What the edit distance is

    An edit script turns one word into another by keeping or
    substituting a letter, deleting one or inserting one; each of the
    last three costs 1. *)
Inductive edits : list ascii -> list ascii -> nat -> Prop :=
| edits_nil : edits [] [] 0
| edits_keep x s t n : edits s t n -> edits (x :: s) (x :: t) n
| edits_subst x y s t n : edits s t n -> edits (x :: s) (y :: t) (S n)
| edits_delete x s t n : edits s t n -> edits (x :: s) t (S n)
| edits_insert y s t n : edits s t n -> edits s (y :: t) (S n).

(** The Levenshtein distance: the cost of a cheapest script. *)
Definition is_distance (s t : list ascii) (d : nat) : Prop :=
  edits s t d /\ forall n, edits s t n -> d <= n.

(** The textbook recursion. *)
Fixpoint lev (s : list ascii) : list ascii -> nat :=
  fix lev_s (t : list ascii) : nat :=
    match s, t with
    | [], _ => List.length t
    | _, [] => List.length s
    | x :: s', y :: t' =>
        if Ascii.eqb x y then lev s' t'
        else S (Nat.min (lev s' t') (Nat.min (lev_s t') (lev s' t)))
    end.

(** What [matrix[i][j]] is meant to hold: the distance between the
    first [i] letters of [b] and the first [j] letters of [a] (both
    read backwards, which changes nothing). *)
Definition prefix_distance (a b : list ascii) (i j : nat) : nat :=
  lev (rev (take i b)) (rev (take j a)).

(** The matrix at the moment the rows before [i] are filled, row [i]
    has its first [n] entries, and the rows after it still hold the
    single entry they were created with. *)
Definition matrix_state (a b : list ascii) (i n : nat) : list (list nat) :=
  ((fun i' => prefix_distance a b i' <$> seq 0 (List.length a + 1)) <$> seq 0 i) ++
  [prefix_distance a b i <$> seq 0 n] ++
  ((fun i' => [i']) <$> seq (S i) (List.length b - i)).

(** *** The tables *)

(** The keys of [this.actionMappings], in the order the constructor
    writes them, each with the method it is bound to. *)
Definition actionMappings : list (string * string) :=
  [("message.create", "_sendMessage");
   ("message.edit", "_editMessage");
   ("message.delete", "_deleteMessage");
   ("message.react", "_reactToMessage");
   ("message.pin", "_pinMessage");
   ("message.unpin", "_unpinMessage");
   ("channel.create", "_createChannel");
   ("channel.delete", "_deleteChannel");
   ("channel.purge", "_purgeChannel");
   ("channel.lock", "_lockChannel");
   ("channel.unlock", "_unlockChannel");
   ("member.timeout", "_timeoutMember");
   ("member.kick", "_kickMember");
   ("member.ban", "_banMember");
   ("member.unban", "_unbanMember");
   ("member.setNickname", "_setMemberNickname");
   ("role.add", "_addRole");
   ("role.remove", "_removeRole")].

Definition actionAliases : list (string * string) :=
  [("member.edit", "member.setNickname");
   ("member.update", "member.setNickname");
   ("member.nickname", "member.setNickname");
   ("member.nick", "member.setNickname");
   ("member.rename", "member.setNickname");
   ("member.changenick", "member.setNickname");
   ("member.modifyNickname", "member.setNickname");
   ("member.mute", "member.timeout");
   ("member.silence", "member.timeout");
   ("message.send", "message.create");
   ("message.write", "message.create");
   ("message.post", "message.create");
   ("channel.clean", "channel.purge");
   ("channel.clear", "channel.purge");
   ("message.purge", "channel.purge");
   ("message.clear", "channel.purge");
   ("role.give", "role.add");
   ("role.assign", "role.add");
   ("role.revoke", "role.remove");
   ("role.take", "role.remove")].

(** The property names every object literal inherits from
    [Object.prototype]. *)
Definition object_prototype : list string :=
  ["constructor"; "__proto__"; "hasOwnProperty"; "isPrototypeOf";
   "propertyIsEnumerable"; "toLocaleString"; "toString"; "valueOf";
   "__defineGetter__"; "__defineSetter__"; "__lookupGetter__";
   "__lookupSetter__"].

Inductive property : Type :=
| Own (v : string)
| Inherited
| Missing.

Fixpoint own (table : list (string * string)) (key : string) : option string :=
  match table with
  | [] => None
  | (k, v) :: rest => if String.eqb k key then Some v else own rest key
  end.

(** [table[key]] *)
Definition get (table : list (string * string)) (key : string) : property :=
  match own table key with
  | Some v => Own v
  | None =>
      if existsb (String.eqb key) object_prototype then Inherited else Missing
  end.

(** [Object.keys(this.actionMappings)] *)
Definition validActions : list string := map fst actionMappings.

(** *** [_findSimilarAction] *)

Definition SIMILARITY_THRESHOLD : Q := 6 # 10.

(** The [for (const action of ...)] loops, with [bestMatch] and
    [bestScore] as accumulators. *)
Fixpoint best_of (normalizedInvalid : string) (candidates : list string)
    (bestMatch : option string) (bestScore : Q) : option string * Q :=
  match candidates with
  | [] => (bestMatch, bestScore)
  | action :: rest =>
      let score := _calculateSimilarity normalizedInvalid (Js.toLowerCase action) in
      if negb (Qle_bool score bestScore)
      then best_of normalizedInvalid rest (Some action) score
      else best_of normalizedInvalid rest bestMatch bestScore
  end.

(** [normalizedInvalid.split('.')[0]] *)
Definition category_of (normalizedInvalid : string) : string :=
  hd EmptyString (Js.split "." normalizedInvalid).

Definition same_category (normalizedInvalid : string) : list string :=
  if Js.includes "." normalizedInvalid then
    List.filter (fun action => Js.startsWith (category_of normalizedInvalid +:+ ".") action)
      validActions
  else [].

Definition _findSimilarAction (invalidAction : string) : option string :=
  let normalizedInvalid := Js.toLowerCase invalidAction in
  match same_category normalizedInvalid with
  | (first :: _) as sameCategory =>
      let '(bestMatch, bestScore) := best_of normalizedInvalid sameCategory None 0 in
      if Qle_bool SIMILARITY_THRESHOLD bestScore then bestMatch
      else Some first
  | [] =>
      let '(bestMatch, bestScore) := best_of normalizedInvalid validActions None 0 in
      if Qle_bool SIMILARITY_THRESHOLD bestScore then bestMatch
      else None
  end.

(** *** The fuzzy match as the specification words it

    The similarity [(maxLen - editDistance) / maxLen], with the
    textbook edit distance. *)
Definition spec_similarity (x y : string) : Q :=
  let maxLen := Nat.max (String.length x) (String.length y) in
  Z.of_nat (maxLen - lev (list_ascii_of_string x) (list_ascii_of_string y))
    # Pos.of_nat maxLen.

(** The canonical identifiers that share the category prefix of the
    raw identifier: the text before its first dot, when it has one. *)
Definition spec_same_category (raw : string) : list string :=
  if Js.includes "." raw then
    List.filter (fun c => Js.startsWith (category_of raw +:+ ".") c) validActions
  else [].

(** [result] is a fuzzy match for [raw]: the scores are taken between
    [norm raw] and [norm c], over the same-category identifiers or,
    when there is none, over all of them; a highest-scoring candidate
    is returned when its score reaches 0.6, otherwise the first
    same-category identifier if there is one, otherwise nothing.
    [norm] is the identity in the specification's wording. *)
Definition fuzzy_spec (norm : string -> string) (raw : string)
    (result : option string) : Prop :=
  let sameCategory := spec_same_category (norm raw) in
  let candidates := match sameCategory with
                    | [] => validActions
                    | _ => sameCategory
                    end in
  let score c := spec_similarity (norm raw) (norm c) in
  (exists c, In c candidates /\ result = Some c /\ (6 # 10 <= score c)%Q /\
             forall c', In c' candidates -> (score c' <= score c)%Q) \/
  ((forall c, In c candidates -> (score c < 6 # 10)%Q) /\
   result = head sameCategory).

(** *** [executeAction] *)

Definition is_line_end (c : ascii) : bool :=
  Nat.eqb (nat_of_ascii c) 10 || Nat.eqb (nat_of_ascii c) 13.

(** Skips one or more white space characters. *)
Definition spaces1 (s : string) : option string :=
  match Js.span Js.is_space s with
  | 0 => None
  | n => Some (Js.drop n s)
  end.

Definition literal (w : string) (s : string) : option string :=
  if String.prefix w s then Some (Js.drop (String.length w) s) else None.

Definition one_of (ws : list string) (s : string) : option string :=
  fold_right (fun w acc => match literal w s with
                           | Some r => Some r
                           | None => acc
                           end) None ws.

(** Any characters of one line, then one of the words. *)
Fixpoint later_on_line (ws : list string) (s : string) : bool :=
  match s with
  | EmptyString => false
  | String c r =>
      match one_of ws s with
      | Some _ => true
      | None => if is_line_end c then false else later_on_line ws r
      end
  end.

(** The test of the pattern [countAndTimeout] on lower-cased text,
    tried at the start of [s]: white space, [name], white space, [has],
    white space, [how many] or [what number of], white space,
    [letters], then [timeout] or [mute] later on the line. *)
Definition count_and_timeout_here (s : string) : bool :=
  match spaces1 s with
  | Some s1 =>
      match literal "name" s1 with
      | Some s2 =>
          match spaces1 s2 with
          | Some s3 =>
              match literal "has" s3 with
              | Some s4 =>
                  match spaces1 s4 with
                  | Some s5 =>
                      match one_of ["how many"; "what number of"] s5 with
                      | Some s6 =>
                          match spaces1 s6 with
                          | Some s7 =>
                              match literal "letters" s7 with
                              | Some s8 => later_on_line ["timeout"; "mute"] s8
                              | None => false
                              end
                          | None => false
                          end
                      | None => false
                      end
                  | None => false
                  end
              | None => false
              end
          | None => false
          end
      | None => false
      end
  | None => false
  end.

(** The test of the pattern [repeatMessage] on lower-cased text, tried
    after a first character of [s] that is not a line end: white
    space, [repeat] or [say], white space, a digit. *)
Definition repeat_message_here (s : string) : bool :=
  match s with
  | String c r =>
      negb (is_line_end c) &&
      match spaces1 r with
      | Some s1 =>
          match one_of ["repeat"; "say"] s1 with
          | Some s2 =>
              match spaces1 s2 with
              | Some (String d _) => Js.is_digit d
              | _ => false
              end
          | None => false
          end
      | None => false
      end
  | EmptyString => false
  end.

(** [regex.test(text)] for a pattern that may start anywhere. *)
Fixpoint anywhere (here : string -> bool) (s : string) : bool :=
  match s with
  | EmptyString => here EmptyString
  | String _ r => here s || anywhere here r
  end.

(** The first entry of [this.commandPatterns] whose [regex] matches
    the message text. *)
Definition matching_pattern (content : string) : option string :=
  if anywhere count_and_timeout_here (Js.toLowerCase content) then Some "countAndTimeout"
  else if anywhere repeat_message_here (Js.toLowerCase content) then Some "repeatMessage"
  else None.

(** The path by which a handler was found. *)
Inductive source : Type := exact | alias | fuzzy.

(** How [executeAction] goes about a request. *)
Inductive resolution : Type :=
| MissingAction
| Pattern (name : string)
| Resolved (actionUsed : string) (method : string) (via : source)
| Builtin (name : string)
| DynamicExtension.

(** The lookup part of [executeAction]: direct match, aliases, most
    similar action. *)
Definition resolve (action : string) : resolution :=
  match get actionMappings action with
  | Own handler => Resolved action handler exact
  | Inherited => Builtin action
  | Missing =>
      let by_alias :=
        match get actionAliases (Js.toLowerCase action) with
        | Own correctAction =>
            match get actionMappings correctAction with
            | Own handler => Some (Resolved correctAction handler alias)
            | Inherited => Some (Builtin correctAction)
            | Missing => None
            end
        | Inherited | Missing => None
        end in
      match by_alias with
      | Some r => r
      | None =>
          match _findSimilarAction action with
          | Some similarAction =>
              match get actionMappings similarAction with
              | Own handler => Resolved similarAction handler fuzzy
              | Inherited => Builtin similarAction
              | Missing => DynamicExtension
              end
          | None => DynamicExtension
          end
      end
  end.

(** [executeAction(message, params)] up to the call of the handler:
    [content] is [message.content], [action] is [params.action]
    ([None] when [params] or the action is missing or empty). *)
Definition executeAction (content : string) (action : option string) : resolution :=
  match action with
  | None => MissingAction
  | Some a =>
      if String.eqb a EmptyString then MissingAction
      else
        match (if String.eqb content EmptyString then None
               else matching_pattern content) with
        | Some name => Pattern name
        | None => resolve a
        end
  end.

End DynamicHandler.

(* ------------------------------------------------------------------ *)
(** ** WorkflowEngine.executeAction ([src/workflow/actionHandler.js])  *)
(* ------------------------------------------------------------------ *)

Module ActionGate.

(** The value of [step.params.action]: missing, a string, or a value
    that is not a string, kept as the text it prints as. *)
Inductive value : Type :=
| Undefined
| Str (s : string)
| Other (text : string).

(** [`${v}`] *)
Definition text_of (v : value) : string :=
  match v with
  | Undefined => "undefined"
  | Str s => s
  | Other t => t
  end.

(** [step.params], as far as [executeAction] reads and writes it; a
    property is [None] when it is missing. *)
Record Params : Type := mkParams {
  action : value;
  roleId : option string;
  roleName : option string;
  userId : option string
}.

(** The message: [isAdminUser] is the truthiness of
    [message.member?.permissions.has('ADMINISTRATOR')], [mentions] the
    ids of [message.mentions.users] in order, [roles] the name and id
    of each role of [message.guild.roles.cache] in order. *)
Record Message : Type := mkMessage {
  isAdminUser : bool;
  content : string;
  author_id : string;
  mentions : list string;
  roles : list (string * string)
}.

(** The engine: [allowedActions] is [None] while the property is
    undefined, as the constructor leaves it. *)
Record engine : Type := mkEngine {
  allowedActions : option (list string)
}.

Definition new_engine : engine := mkEngine None.

(** How a call ends: it returns [{ success: false, error }], it
    returns what the named method of the engine returns for
    [(message, step.params)], or it throws an error of the given
    name. *)
Inductive outcome : Type :=
| Refused (error : string)
| Called (method : string)
| Threw (name : string).

(** The local table [actionMappings]. *)
Definition actionMappings : list (string * string) :=
  [("member.roles.remove", "role.remove");
   ("member.roles.add", "role.add");
   ("member.role.remove", "role.remove");
   ("member.role.add", "role.add");
   ("roles.remove", "role.remove");
   ("roles.add", "role.add");
   ("message.send", "message.create");
   ("channel.messages.purge", "channel.purge");
   ("messages.delete", "channel.purge")].

(** What the properties an object literal inherits print as. *)
Definition prototype_text (name : string) : string :=
  if String.eqb name "constructor" then "function Object() { [native code] }"
  else if String.eqb name "__proto__" then "[object Object]"
  else "function " +:+ name +:+ "() { [native code] }".

Definition truthy_text (o : option string) : bool :=
  match o with
  | Some s => negb (String.eqb s EmptyString)
  | None => false
  end.

(** The first statement: a known misspelling is replaced, in
    [step.params]. *)
Definition normalise (a : value) : value :=
  match a with
  | Str s =>
      if String.eqb s EmptyString then a
      else
        match DynamicHandler.own actionMappings s with
        | Some correct => Str correct
        | None =>
            if existsb (String.eqb s) DynamicHandler.object_prototype
            then Other (prototype_text s) else a
        end
  | _ => a
  end.

(** The test of the format: one or more small letters, a dot, one or
    more small letters, and nothing else. *)
Definition format_ok (s : string) : bool :=
  let n := Js.span Js.is_lower s in
  negb (Nat.eqb n 0) &&
  match Js.drop n s with
  | String "." r =>
      let m := Js.span Js.is_lower r in
      negb (Nat.eqb m 0) && Nat.eqb m (String.length r)
  | _ => false
  end.

Definition boundary_after (rest : string) : bool :=
  match rest with
  | EmptyString => true
  | String d _ => negb (Js.is_word d)
  end.

(** The test of: a word boundary, one of the words (letter case
    ignored), a word boundary.  Every word starts and ends with a
    letter.  [prev_is_word] tells whether the character before [s] is
    a word character. *)
Fixpoint word_match (words : list string) (prev_is_word : bool) (s : string) : bool :=
  match s with
  | EmptyString => false
  | String c r =>
      (negb prev_is_word &&
       existsb (fun w => String.prefix w (Js.toLowerCase s) &&
                         boundary_after (Js.drop (String.length w) s)) words)
      || word_match words (Js.is_word c) r
  end.

(** [roles.cache.find(r => r.name.toLowerCase() ===
    roleName.toLowerCase())]: the id of the role found. *)
Fixpoint find_role (roles : list (string * string)) (roleName : string) : option string :=
  match roles with
  | [] => None
  | (name, id) :: rest =>
      if String.eqb (Js.toLowerCase name) (Js.toLowerCase roleName) then Some id
      else find_role rest roleName
  end.

(** The checks made for [role.add] and [role.remove]: the parameters
    as the checks leave them, or the error returned. *)
Definition role_checks (message : Message) (a : string) (params : Params)
  : Params * option string :=
  let '(params1, refused1) :=
    if truthy_text (roleId params) then (params, None)
    else
      match roleName params with
      | Some name =>
          if String.eqb name EmptyString
          then (params, Some ("Missing roleId in " +:+ a +:+ " step"))
          else
            match find_role (roles message) name with
            | Some id =>
                (mkParams (action params) (Some id) (roleName params) (userId params), None)
            | None =>
                (params,
                 Some ("Role named " +:+ String "034" EmptyString +:+ name +:+
                       String "034" EmptyString +:+ " not found"))
            end
      | None => (params, Some ("Missing roleId in " +:+ a +:+ " step"))
      end in
  match refused1 with
  | Some e => (params1, Some e)
  | None =>
      if truthy_text (userId params1) then (params1, None)
      else if word_match ["bana"; "kendime"; "me"; "myself"; "kendi"; "self"] false
                (content message)
      then (mkParams (action params1) (roleId params1) (roleName params1)
              (Some (author_id message)), None)
      else if word_match ["all"; "tüm"; "herkes"] false (content message) &&
              negb (Nat.eqb (List.length (mentions message)) 0)
      then (mkParams (action params1) (roleId params1) (roleName params1)
              (head (mentions message)), None)
      else (params1, Some ("Missing userId in " +:+ a +:+ " step"))
  end.

Definition upper (c : ascii) : ascii :=
  if Js.is_lower c then ascii_of_nat (Js.code c - 32) else c.

(** [category.charAt(0).toUpperCase() + category.slice(1)] *)
Definition capitalise (category : string) : string :=
  match category with
  | EmptyString => EmptyString
  | String c r => String (upper c) r
  end.

(** The name of the method the fallback of the [switch] looks for. *)
Definition handlerName (a : string) : string :=
  match Js.split "." a with
  | category :: method :: _ => method +:+ capitalise category
  | [category] => "undefined" +:+ capitalise category
  | [] => "undefined"
  end.

(** The properties of an engine whose value is a function: the
    methods of the class and those every object inherits. *)
Definition methods : list string :=
  ["constructor"; "executeAction"; "executeWorkflow"; "_executeSequential";
   "_executeParallel"; "_executeStep"; "_executeDiscordRequest"; "purgeChannel";
   "purgeMessages"; "getWorkflowStatus";
   "hasOwnProperty"; "isPrototypeOf"; "propertyIsEnumerable"; "toLocaleString";
   "toString"; "valueOf"; "__defineGetter__"; "__defineSetter__";
   "__lookupGetter__"; "__lookupSetter__"].

(** [executeAction(step, message)]; [params] is [step.params], [None]
    when it is missing.  The answer holds [step.params] as the call
    leaves it. *)
Definition executeAction (eng : engine) (message : Message) (params : option Params)
  : option Params * outcome :=
  match params with
  | None => (None, Threw "TypeError")
  | Some params0 =>
      let params1 := mkParams (normalise (action params0)) (roleId params0)
                       (roleName params0) (userId params0) in
      let a := action params1 in
      let isValidActionFormat := format_ok (text_of a) in
      if negb isValidActionFormat then
        (Some params1, Refused ("Invalid action format: '" +:+ text_of a +:+ "'"))
      else if negb (isAdminUser message) &&
              negb (match allowedActions eng, a with
                    | Some allowed, Str s => existsb (String.eqb s) allowed
                    | _, _ => false
                    end)
      then
        (Some params1,
         Refused ("Action '" +:+ text_of a +:+ "' is not allowed for non-admin users"))
      else
        let '(params2, refused) :=
          match a with
          | Str s =>
              if String.eqb s "role.add" || String.eqb s "role.remove"
              then role_checks message s params1
              else (params1, None)
          | _ => (params1, None)
          end in
        match refused with
        | Some e => (Some params2, Refused e)
        | None =>
            (* switch (action) *)
            if match a with
               | Str s => String.eqb s "message.create"
               | _ => false
               end
            then (Some params2, Threw "TypeError")
            else if isAdminUser message then
              if existsb (String.eqb (handlerName (text_of a))) methods
              then (Some params2, Called (handlerName (text_of a)))
              else
                (Some params2,
                 Refused ("Failed to execute '" +:+ text_of a +:+
                          "': Unsupported action: " +:+ text_of a))
            else (Some params2, Refused ("Unknown action: " +:+ text_of a))
        end
  end.

(** Whether a name is small letters, one capital letter, small
    letters, with at least one small letter in front. *)
Definition one_capital (s : string) : bool :=
  let n := Js.span Js.is_lower s in
  negb (Nat.eqb n 0) &&
  match Js.drop n s with
  | String c r => Js.is_upper c && Nat.eqb (Js.span Js.is_lower r) (String.length r)
  | EmptyString => false
  end.

End ActionGate.

(* ------------------------------------------------------------------ *)
(** ** EventBus: the registry ([src/core/eventBus.js])                 *)
(* ------------------------------------------------------------------ *)

Module Registry.
Import EventBus.

(** The [options] argument of [addListener]: [opt_priority] and
    [opt_extensionId] are [None] when the property is missing,
    [opt_exclusive] is the truthiness of [options.exclusive]. *)
Record options : Type := Options {
  opt_priority : option Z;
  opt_extensionId : option string;
  opt_exclusive : bool
}.

(** The bus: [this.listeners], a [Map] (its keys in insertion order
    and its contents), and [this.nextId]. *)
Record bus (D : Type) : Type := Bus {
  events : list string;
  table : listeners D;
  nextId : nat
}.
Arguments Bus {D}.
Arguments events {D}.
Arguments table {D}.
Arguments nextId {D}.

(** The bus the constructor makes. *)
Definition new_bus {D} : bus D := Bus [] ∅ 1.

(** [arr.sort((a, b) => b.priority - a.priority)].  The sort of an
    array is stable: the result is the arrangement in non-increasing
    priority that keeps listeners of equal priority in the order they
    had.  [insert x sorted] puts [x], which stood before the members of
    [sorted], in its place. *)
Fixpoint insert {D} (x : listener D) (sorted : list (listener D)) : list (listener D) :=
  match sorted with
  | [] => [x]
  | y :: rest =>
      if (priority y <=? priority x)%Z then x :: y :: rest
      else y :: insert x rest
  end.

Definition sort {D} (arr : list (listener D)) : list (listener D) :=
  fold_right insert [] arr.

(** [addListener(event, callback, options)]: the id it returns and
    the bus it leaves. *)
Definition addListener {D} (b : bus D) (event : string)
    (callback : D -> completion string jsval) (opts : options) : string * bus D :=
  let '(events1, table1) :=
    match table b !! event with
    | Some _ => (events b, table b)
    | None => (events b ++ [event], <[event := []]> (table b))
    end in
  let id := event +:+ "_" +:+ LLMService.toString (nextId b) in
  let priority := default 0%Z (opt_priority opts) in
  let extensionId :=
    match opt_extensionId opts with
    | Some EmptyString => None
    | e => e
    end in
  let l := Listener id callback priority extensionId (opt_exclusive opts) in
  (id,
   Bus events1 (<[event := sort (default [] (table1 !! event) ++ [l])]> table1)
     (S (nextId b))).

(** [listeners.findIndex(listener => listener.id === id)]; [None] is
    [-1]. *)
Fixpoint findIndex {D} (id : string) (ls : list (listener D)) : option nat :=
  match ls with
  | [] => None
  | l :: rest =>
      if String.eqb (EventBus.id l) id then Some 0
      else match findIndex id rest with
           | Some i => Some (S i)
           | None => None
           end
  end.

(** The loop of [removeListener] over the entries of the map: the
    table it leaves when it removed a listener, [None] when it found
    none. *)
Fixpoint removeListener_loop {D} (evs : list string) (tbl : listeners D)
    (id : string) : option (listeners D) :=
  match evs with
  | [] => None
  | event :: rest =>
      let ls := default [] (tbl !! event) in
      match findIndex id ls with
      | Some index => Some (<[event := delete index ls]> tbl)
      | None => removeListener_loop rest tbl id
      end
  end.

(** [removeListener(id)] *)
Definition removeListener {D} (b : bus D) (id : string) : bool * bus D :=
  match removeListener_loop (events b) (table b) id with
  | Some tbl => (true, Bus (events b) tbl (nextId b))
  | None => (false, b)
  end.

(** [listener.extensionId !== extensionId] *)
Definition kept {D} (extensionId : option string) (l : listener D) : bool :=
  negb (bool_decide (EventBus.extensionId l = extensionId)).

(** The loop of [removeExtensionListeners], with [count] as
    accumulator. *)
Fixpoint removeExtension_loop {D} (evs : list string) (tbl : listeners D)
    (extensionId : option string) (count : nat) : listeners D * nat :=
  match evs with
  | [] => (tbl, count)
  | event :: rest =>
      let ls := default [] (tbl !! event) in
      let initialLength := List.length ls in
      let filtered := List.filter (kept extensionId) ls in
      removeExtension_loop rest (<[event := filtered]> tbl) extensionId
        (count + (initialLength - List.length filtered))
  end.

(** [removeExtensionListeners(extensionId)]: the count it returns and
    the bus it leaves. *)
Definition removeExtensionListeners {D} (b : bus D) (extensionId : option string)
  : nat * bus D :=
  let '(tbl, count) := removeExtension_loop (events b) (table b) extensionId 0 in
  (count, Bus (events b) tbl (nextId b)).

(** [listListeners()]: the object that maps each topic to the length
    of its array. *)
Definition listListeners {D} (b : bus D) : gmap string nat :=
  (fun ls => List.length ls) <$> table b.

(** The listeners of an extension, over all topics. *)
Definition owned_by {D} (extensionId : option string) (b : bus D) : list (listener D) :=
  flat_map (fun event =>
              List.filter (fun l => negb (kept extensionId l))
                (default [] (table b !! event)))
    (events b).

(** Non-increasing priority. *)
Fixpoint sorted {D} (ls : list (listener D)) : Prop :=
  match ls with
  | [] => True
  | x :: rest => Forall (fun y => (priority y <= priority x)%Z) rest /\ sorted rest
  end.

(** What holds of every bus made by the constructor and the three
    operations: the keys are those of the table, each once; every
    array is in non-increasing priority; every id is the topic, an
    underscore and a number below [nextId]. *)
Definition wf {D} (b : bus D) : Prop :=
  NoDup (events b) /\
  (forall e, e ∈ events b <-> is_Some (table b !! e)) /\
  (forall e ls, table b !! e = Some ls ->
     sorted ls /\
     forall l, l ∈ ls ->
       exists n, n < nextId b /\ EventBus.id l = e +:+ "_" +:+ LLMService.toString n).

End Registry.

(* ------------------------------------------------------------------ *)
(** ** Running an approved plan ([executeApprovedPlan], [src/core/bot.js]) *)
(* ------------------------------------------------------------------ *)

Module Bot.

(** A step of the plan as [executeApprovedPlan] reads it: [id] is
    [step.id] and [action] is [step.params?.action], each [None] when
    missing or falsy. *)
Record Step : Type := mkStep {
  id : option string;
  tool : string;
  action : option string
}.

(** What [dynamicHandler.executeAction] hands back: [success] is the
    truthiness of [result.success], [error] is [result.error], [None]
    when missing or falsy. *)
Record Result : Type := mkResult {
  success : bool;
  error : option string
}.

(** An element of [dynamicResults]. *)
Record Entry : Type := mkEntry {
  stepId : string;
  ok : bool;
  message : option string;
  actionName : string
}.

(** What the user sees: [message.channel.send] and [message.reply]. *)
Inductive effect : Type :=
| Send (text : string)
| Reply (text : string).

(** The local state of the loop over the steps, with the steps handed
    to the dynamic handler so far. *)
Record loop_state : Type := mkLoop {
  calls : list Step;
  dynamicResults : list Entry;
  usedDynamicHandler : bool;
  effects : list effect
}.

Section Execute.
(** [dynamicHandler.executeAction(message, step.params || {})]: it
    returns a result ([None] for a falsy one) or throws an error, whose
    [message] is [None] when missing or falsy. *)
Variable executeAction : Step -> completion (option string) (option Result).

(** The body of the [for (const step of plan.steps)] loop.  The
    [config] object is the empty object, so no success notice is
    sent. *)
Definition run_step (st : loop_state) (step : Step) : loop_state :=
  if String.eqb (tool step) "discord.request" then
    let stepId := default "unknown" (id step) in
    let actionName := default "unknown" (action step) in
    match executeAction step with
    | Normal (Some (mkResult true _)) =>
        mkLoop (calls st ++ [step])
          (dynamicResults st ++ [mkEntry stepId true None actionName])
          true (effects st)
    | Normal result =>
        let error := default "Bilinmeyen hata"
                       (match result with
                        | Some r => error r
                        | None => None
                        end) in
        mkLoop (calls st ++ [step])
          (dynamicResults st ++ [mkEntry stepId false (Some error) actionName])
          (usedDynamicHandler st)
          (effects st ++ [Send ("❌ Eylem başarısız: " +:+ error)])
    | Abrupt error_message =>
        mkLoop (calls st ++ [step])
          (dynamicResults st ++
             [mkEntry stepId false
                (Some (default "Exception occurred" error_message)) actionName])
          (usedDynamicHandler st)
          (effects st ++
             [Send ("❌ İşlem hatası: " +:+ default "Bilinmeyen hata" error_message)])
    end
  else st.

(** [executeApprovedPlan(message, plan, ...)]; [steps] is [plan.steps]
    when it is an array, [None] otherwise. *)
Definition executeApprovedPlan (steps : option (list Step)) : loop_state :=
  let st := fold_left run_step (default [] steps) (mkLoop [] [] false []) in
  let successCount := List.length (List.filter ok (dynamicResults st)) in
  let totalCount := List.length (dynamicResults st) in
  if usedDynamicHandler st && negb (Nat.eqb totalCount 0) then
    if Nat.eqb successCount totalCount then
      mkLoop (calls st) (dynamicResults st) (usedDynamicHandler st)
        (effects st ++
           [Reply ("✅ Tüm eylemler (" +:+ LLMService.toString successCount +:+
                   ") başarıyla yürütüldü.")])
    else
      let failCount := totalCount - successCount in
      mkLoop (calls st) (dynamicResults st) (usedDynamicHandler st)
        (effects st ++
           [Reply ("⚠️ " +:+ LLMService.toString successCount +:+ " eylem başarılı, " +:+
                   LLMService.toString failCount +:+ " eylem başarısız oldu.")])
  else if Nat.eqb totalCount 0 then
    mkLoop (calls st) (dynamicResults st) (usedDynamicHandler st)
      (effects st ++
         [Reply "❌ Komut işlenemedi. Lütfen daha açık bir şekilde ifade edin."])
  else st.

End Execute.

Definition is_request (step : Step) : bool := String.eqb (tool step) "discord.request".

(** Whether the dynamic handler reports success on a step. *)
Definition succeeds (executeAction : Step -> completion (option string) (option Result))
    (step : Step) : bool :=
  match executeAction step with
  | Normal (Some r) => success r
  | _ => false
  end.

Definition replies (effs : list effect) : list string :=
  flat_map (fun e => match e with
                     | Reply t => [t]
                     | Send _ => []
                     end) effs.

Definition sends (effs : list effect) : list string :=
  flat_map (fun e => match e with
                     | Send t => [t]
                     | Reply _ => []
                     end) effs.

End Bot.

(* ================================================================== *)
(** * Part II: theorems                                                *)
(* ================================================================== *)

(** ** EventBus *)

Section EventBusFacts.
Import EventBus.
Context {D : Type}.
Implicit Types (ls : list (listener D)) (bus : listeners D).

Lemma dispatch_handled_mono ls data :
  fst (fst (dispatch ls data true)) = true.
Proof.
  induction ls as [|l rest IH]; simpl; [reflexivity|].
  destruct (callback l data) as [v|e].
  - destruct (strict_true v).
    + destruct (exclusive l); [reflexivity|].
      destruct (dispatch rest data true) as [[h inv] errs]; exact IH.
    + destruct (dispatch rest data true) as [[h inv] errs]; exact IH.
  - destruct (dispatch rest data true) as [[h inv] errs]; exact IH.
Qed.

Lemma dispatch_invoked_sub ls data h0 l :
  l ∈ snd (fst (dispatch ls data h0)) -> l ∈ ls.
Proof.
  revert h0; induction ls as [|l0 rest IH]; simpl; intros h0.
  - intros H; exact H.
  - destruct (callback l0 data) as [v|e].
    + destruct (strict_true v).
      * destruct (exclusive l0).
        -- simpl. intros H. apply list_elem_of_singleton in H. subst. left.
        -- specialize (IH true).
           destruct (dispatch rest data true) as [[h inv] errs]; simpl in *.
           intros H. apply elem_of_cons in H as [->|H]; [left|right; auto].
      * specialize (IH h0).
        destruct (dispatch rest data h0) as [[h inv] errs]; simpl in *.
        intros H. apply elem_of_cons in H as [->|H]; [left|right; auto].
    + specialize (IH h0).
      destruct (dispatch rest data h0) as [[h inv] errs]; simpl in *.
      intros H. apply elem_of_cons in H as [->|H]; [left|right; auto].
Qed.

(** From [handled = false], the loop ends with [true] exactly when one
    of the callbacks it invoked returned [true]. *)
Lemma dispatch_true_iff ls data :
  fst (fst (dispatch ls data false)) = true <->
  exists l, l ∈ snd (fst (dispatch ls data false)) /\
            callback l data = Normal (VBool true).
Proof.
  induction ls as [|l0 rest IH]; simpl.
  - split; [discriminate|]. intros (l & H & _). inversion H.
  - destruct (callback l0 data) as [v|e] eqn:Hcb.
    + destruct (strict_true v) eqn:Hv.
      * assert (v = VBool true) as ->
          by (destruct v as [| |[]| | |]; simpl in Hv; congruence).
        destruct (exclusive l0).
        -- simpl. split; [|reflexivity]. intros _. exists l0. split; [left|exact Hcb].
        -- pose proof (dispatch_handled_mono rest data) as Hm.
           destruct (dispatch rest data true) as [[h inv] errs]; simpl in *.
           split; [|exact (fun _ => Hm)].
           intros _. exists l0. split; [left|exact Hcb].
      * destruct (dispatch rest data false) as [[h inv] errs]; simpl in *.
        rewrite IH. split.
        -- intros (l & Hin & Hl). exists l. split; [right; exact Hin|exact Hl].
        -- intros (l & Hin & Hl). apply elem_of_cons in Hin as [->|Hin].
           ++ rewrite Hcb in Hl. inversion Hl; subst. discriminate.
           ++ exists l; auto.
    + destruct (dispatch rest data false) as [[h inv] errs]; simpl in *.
      rewrite IH. split.
      * intros (l & Hin & Hl). exists l. split; [right; exact Hin|exact Hl].
      * intros (l & Hin & Hl). apply elem_of_cons in Hin as [->|Hin].
        -- rewrite Hcb in Hl. discriminate.
        -- exists l; auto.
Qed.

(** A subscribed callback that returns [true] makes the loop answer
    [true], whether or not the loop gets as far as calling it. *)
Lemma dispatch_true_of_subscribed ls data h0 l :
  l ∈ ls -> callback l data = Normal (VBool true) ->
  fst (fst (dispatch ls data h0)) = true.
Proof.
  revert h0; induction ls as [|l0 rest IH]; intros h0 Hin Hl.
  - inversion Hin.
  - simpl. apply elem_of_cons in Hin as [<-|Hin].
    + rewrite Hl. simpl. destruct (exclusive l); [reflexivity|].
      pose proof (dispatch_handled_mono rest data) as Hm.
      destruct (dispatch rest data true) as [[h inv] errs]; exact Hm.
    + destruct (callback l0 data) as [v|e].
      * destruct (strict_true v).
        -- destruct (exclusive l0); [reflexivity|].
           pose proof (dispatch_handled_mono rest data) as Hm.
           destruct (dispatch rest data true) as [[h inv] errs]; exact Hm.
        -- specialize (IH h0 Hin Hl).
           destruct (dispatch rest data h0) as [[h inv] errs]; exact IH.
      * specialize (IH h0 Hin Hl).
        destruct (dispatch rest data h0) as [[h inv] errs]; exact IH.
Qed.

(** On an array that nothing modifies while the loop runs, [emit]
    answers [true] exactly when a handler subscribed to the topic
    returns the boolean [true] (equivalently: when one of the handlers
    it called did). *)
Lemma emit_unmodified_true_iff bus event data :
  (emit bus event data = true <->
     exists ls l, bus !! event = Some ls /\ l ∈ ls /\
                  callback l data = Normal (VBool true)) /\
  (emit bus event data = true <->
     exists l, l ∈ invoked bus event data /\
               callback l data = Normal (VBool true)) /\
  ((forall ls l, bus !! event = Some ls -> l ∈ ls ->
      callback l data <> Normal (VBool true)) ->
   emit bus event data = false) /\
  (bus !! event = None \/ bus !! event = Some [] ->
   emit bus event data = false).
Proof.
  assert (Hiff : emit bus event data = true <->
     exists l, l ∈ invoked bus event data /\
               callback l data = Normal (VBool true)).
  { unfold emit, invoked, emit_run.
    destruct (bus !! event) as [ls|]; simpl.
    - destruct ls as [|l0 rest]; simpl.
      + split; [discriminate|]. intros (l & H & _). inversion H.
      + apply (dispatch_true_iff (l0 :: rest)).
    - split; [discriminate|]. intros (l & H & _). inversion H. }
  assert (Hsub : emit bus event data = true <->
     exists ls l, bus !! event = Some ls /\ l ∈ ls /\
                  callback l data = Normal (VBool true)).
  { split.
    - intros H. apply Hiff in H as (l & Hin & Hl).
      unfold invoked, emit_run in Hin.
      destruct (bus !! event) as [ls|] eqn:Hb; simpl in Hin; [|inversion Hin].
      destruct ls as [|l0 rest]; simpl in Hin; [inversion Hin|].
      exists (l0 :: rest), l. split; [reflexivity|]. split; [|exact Hl].
      eapply (dispatch_invoked_sub (l0 :: rest)); exact Hin.
    - intros (ls & l & Hb & Hin & Hl).
      unfold emit, emit_run. rewrite Hb.
      destruct ls as [|l0 rest]; [inversion Hin|].
      simpl length. simpl Nat.eqb. cbv iota.
      eapply dispatch_true_of_subscribed; eauto. }
  split; [exact Hsub|]. split; [exact Hiff|]. split.
  - intros Hno. apply not_true_is_false. intros He.
    apply Hsub in He as (ls & l & Hb & Hin & Hl).
    exfalso. exact (Hno ls l Hb Hin Hl).
  - intros [Hb|Hb]; unfold emit, emit_run; rewrite Hb; reflexivity.
Qed.


(** *** The loop on the live array *)

Section LiveFacts.
Variable during : nat -> listener D -> list (listener D) -> list (listener D).
Variable answer : nat -> listener D -> D -> completion string jsval.

(** A call among those of [l :: inv] that returned [true] is the first
    one or one of the others. *)
Lemma true_call_cons i l (inv : list (listener D)) data :
  (exists j l', (l :: inv) !! j = Some l' /\
                answer (i + j) l' data = Normal (VBool true)) <->
  answer i l data = Normal (VBool true) \/
  exists j l', inv !! j = Some l' /\ answer (S i + j) l' data = Normal (VBool true).
Proof.
  split.
  - intros (j & l' & Hj & Ha). destruct j as [|j].
    + injection Hj as <-. rewrite Nat.add_0_r in Ha. left. exact Ha.
    + right. exists j, l'. split; [exact Hj|].
      replace (S i + j) with (i + S j) by lia. exact Ha.
  - intros [Ha|(j & l' & Hj & Ha)].
    + exists 0, l. split; [reflexivity|]. rewrite Nat.add_0_r. exact Ha.
    + exists (S j), l'. split; [exact Hj|].
      replace (i + S j) with (S i + j) by lia. exact Ha.
Qed.

(** The loop ends with [true] exactly when it started with [true] or
    one of its calls returned [true]. *)
Lemma live_dispatch_handled fuel : forall arr i data h0 h inv errs,
  live_dispatch during answer fuel arr i data h0 = Some (h, inv, errs) ->
  (h = true <-> h0 = true \/
                exists j l, inv !! j = Some l /\
                            answer (i + j) l data = Normal (VBool true)).
Proof.
  induction fuel as [|fuel IH]; intros arr i data h0 h inv errs H; [discriminate H|].
  cbn [live_dispatch] in H. destruct (arr !! i) as [l|].
  2:{ injection H as <- <- <-. split; [auto|].
      intros [H|(j & l & Hl & _)]; [exact H|]. rewrite lookup_nil in Hl. discriminate Hl. }
  cbv zeta in H. pose proof (true_call_cons i l) as Hcons.
  destruct (answer i l data) as [v|e] eqn:Hcb.
  - destruct (strict_true v) eqn:Hv.
    + assert (v = VBool true) as ->
        by (destruct v as [| |[]| | |]; simpl in Hv; congruence).
      destruct (exclusive l).
      * injection H as <- <- <-. split; [|reflexivity]. intros _. right.
        apply Hcons. left. exact Hcb.
      * destruct (live_dispatch during answer fuel (during i l arr) (S i) data true)
          as [[[h' inv'] errs']|] eqn:Hrec; [|discriminate H].
        injection H as <- <- <-. apply IH in Hrec.
        split; [|intros _; apply Hrec; auto].
        intros _. right. apply Hcons. left. exact Hcb.
    + destruct (live_dispatch during answer fuel (during i l arr) (S i) data h0)
        as [[[h' inv'] errs']|] eqn:Hrec; [|discriminate H].
      injection H as <- <- <-. apply IH in Hrec. rewrite Hrec, Hcons.
      split; [intros [H|H]; auto|].
      intros [H|[H|H]]; auto. rewrite Hcb in H. injection H as ->. discriminate Hv.
  - destruct (live_dispatch during answer fuel (during i l arr) (S i) data h0)
      as [[[h' inv'] errs']|] eqn:Hrec; [|discriminate H].
    injection H as <- <- <-. apply IH in Hrec. rewrite Hrec, Hcons.
    split; [intros [H|H]; auto|].
    intros [H|[H|H]]; auto. rewrite Hcb in H. discriminate H.
Qed.

(** While the array stays within a bound, the loop ends: a number of
    calls above the bound is enough. *)
Lemma live_dispatch_total bound fuel : forall arr i data h0,
  bounded during bound -> List.length arr <= bound ->
  0 < fuel -> bound < fuel + i ->
  exists r, live_dispatch during answer fuel arr i data h0 = Some r.
Proof.
  induction fuel as [|fuel IH]; intros arr i data h0 Hb Hlen Hpos Hfuel; [lia|].
  cbn [live_dispatch]. destruct (arr !! i) as [l|] eqn:Hl; [|eauto].
  cbv zeta. apply lookup_lt_Some in Hl.
  assert (Hrec : forall h1, exists r,
            live_dispatch during answer fuel (during i l arr) (S i) data h1 = Some r).
  { intros h1. apply IH; [exact Hb|apply Hb, Hlen|lia|lia]. }
  destruct (answer i l data) as [v|e].
  - destruct (strict_true v); [destruct (exclusive l); [eauto|]|].
    + destruct (Hrec true) as [[[h inv] errs] ->]. eauto.
    + destruct (Hrec h0) as [[[h inv] errs] ->]. eauto.
  - destruct (Hrec h0) as [[[h inv] errs] ->]. eauto.
Qed.

(** More calls allowed change nothing in a loop that ended. *)
Lemma live_dispatch_fuel fuel : forall arr i data h0 r,
  live_dispatch during answer fuel arr i data h0 = Some r ->
  live_dispatch during answer (S fuel) arr i data h0 = Some r.
Proof.
  induction fuel as [|fuel IH]; intros arr i data h0 r H; [discriminate H|].
  cbn [live_dispatch] in H.
  change (live_dispatch during answer (S (S fuel)) arr i data h0)
    with (match arr !! i with
          | None => Some (h0, [], 0)
          | Some l =>
              match answer i l data with
              | Normal result =>
                  if strict_true result then
                    if exclusive l then Some (true, [l], 0)
                    else match live_dispatch during answer (S fuel)
                                 (during i l arr) (S i) data true with
                         | Some (h, inv, errs) => Some (h, l :: inv, errs)
                         | None => None
                         end
                  else match live_dispatch during answer (S fuel)
                               (during i l arr) (S i) data h0 with
                       | Some (h, inv, errs) => Some (h, l :: inv, errs)
                       | None => None
                       end
              | Abrupt _ =>
                  match live_dispatch during answer (S fuel)
                          (during i l arr) (S i) data h0 with
                  | Some (h, inv, errs) => Some (h, l :: inv, S errs)
                  | None => None
                  end
              end
          end).
  destruct (arr !! i) as [l|]; [|exact H]. cbv zeta in H.
  destruct (answer i l data) as [v|e].
  - destruct (strict_true v); [destruct (exclusive l); [exact H|]|].
    + destruct (live_dispatch during answer fuel (during i l arr) (S i) data true)
        as [r'|] eqn:Hr; [|discriminate H]. rewrite (IH _ _ _ _ _ Hr). exact H.
    + destruct (live_dispatch during answer fuel (during i l arr) (S i) data h0)
        as [r'|] eqn:Hr; [|discriminate H]. rewrite (IH _ _ _ _ _ Hr). exact H.
  - destruct (live_dispatch during answer fuel (during i l arr) (S i) data h0)
      as [r'|] eqn:Hr; [|discriminate H]. rewrite (IH _ _ _ _ _ Hr). exact H.
Qed.

Lemma live_dispatch_fuel_le fuel fuel' arr i data h0 r :
  fuel <= fuel' ->
  live_dispatch during answer fuel arr i data h0 = Some r ->
  live_dispatch during answer fuel' arr i data h0 = Some r.
Proof.
  induction 1 as [|fuel' _ IH]; [auto|]. intros H. apply live_dispatch_fuel, IH, H.
Qed.

(** The call number [j] of the loop is that of the listener standing
    at that index of the array as the calls before it left it; the
    loop stops behind an exclusive listener whose call returned
    [true], or when the index is past the end of the array; one error
    is logged per call that threw. *)
Lemma live_dispatch_calls fuel : forall arr i data h0 h inv errs,
  live_dispatch during answer fuel arr i data h0 = Some (h, inv, errs) ->
  (forall j l, inv !! j = Some l ->
     live_array during arr (take j inv) i !! (i + j) = Some l) /\
  ((exists l, last inv = Some l /\ exclusive l = true /\
              answer (i + List.length inv - 1) l data = Normal (VBool true)) \/
   live_array during arr inv i !! (i + List.length inv) = None) /\
  errs = thrown answer inv i data.
Proof.
  induction fuel as [|fuel IH]; intros arr i data h0 h inv errs H; [discriminate H|].
  cbn [live_dispatch] in H. destruct (arr !! i) as [l|] eqn:Hl.
  2:{ injection H as <- <- <-. split; [intros j l' Hj; inversion Hj|].
      split; [|reflexivity]. right. cbn. rewrite Nat.add_0_r. exact Hl. }
  cbv zeta in H.
  assert (Hstep : forall h1 h' inv' errs',
            live_dispatch during answer fuel (during i l arr) (S i) data h1
              = Some (h', inv', errs') ->
            (forall j l', (l :: inv') !! j = Some l' ->
               live_array during arr (take j (l :: inv')) i !! (i + j) = Some l') /\
            ((exists l', last (l :: inv') = Some l' /\ exclusive l' = true /\
                         answer (i + List.length (l :: inv') - 1) l' data
                           = Normal (VBool true)) \/
             live_array during arr (l :: inv') i !! (i + List.length (l :: inv')) = None) /\
            errs' = thrown answer inv' (S i) data).
  { intros h1 h' inv' errs' Hrec. apply IH in Hrec as (Hcalls & Hstop & Herrs).
    split; [|split; [|exact Herrs]].
    - intros [|j] l' Hj.
      + injection Hj as <-. cbn. rewrite Nat.add_0_r. exact Hl.
      + cbn [take live_array]. replace (i + S j) with (S i + j) by lia.
        apply Hcalls. exact Hj.
    - cbn [live_array List.length]. replace (i + S (List.length inv'))
        with (S i + List.length inv') by lia.
      destruct Hstop as [(l' & Hlast & Hx & Ha)|Hend]; [left|right; exact Hend].
      exists l'. destruct inv' as [|x inv']; [discriminate Hlast|].
      split; [exact Hlast|]. split; [exact Hx|exact Ha]. }
  destruct (answer i l data) as [v|e] eqn:Hcb.
  - destruct (strict_true v) eqn:Hv.
    + assert (v = VBool true) as ->
        by (destruct v as [| |[]| | |]; simpl in Hv; congruence).
      destruct (exclusive l) eqn:Hex.
      * injection H as <- <- <-. split; [|split].
        -- intros [|j] l' Hj; [|inversion Hj].
           injection Hj as <-. cbn. rewrite Nat.add_0_r. exact Hl.
        -- left. exists l. split; [reflexivity|]. split; [exact Hex|].
           cbn [List.length]. replace (i + 1 - 1) with i by lia. exact Hcb.
        -- cbn. rewrite Hcb. reflexivity.
      * destruct (live_dispatch during answer fuel (during i l arr) (S i) data true)
          as [[[h' inv'] errs']|] eqn:Hrec; [|discriminate H].
        injection H as <- <- <-. destruct (Hstep _ _ _ _ Hrec) as (H1 & H2 & H3).
        split; [exact H1|]. split; [exact H2|]. cbn. rewrite Hcb. exact H3.
    + destruct (live_dispatch during answer fuel (during i l arr) (S i) data h0)
        as [[[h' inv'] errs']|] eqn:Hrec; [|discriminate H].
      injection H as <- <- <-. destruct (Hstep _ _ _ _ Hrec) as (H1 & H2 & H3).
      split; [exact H1|]. split; [exact H2|]. cbn. rewrite Hcb. exact H3.
  - destruct (live_dispatch during answer fuel (during i l arr) (S i) data h0)
      as [[[h' inv'] errs']|] eqn:Hrec; [|discriminate H].
    injection H as <- <- <-. destruct (Hstep _ _ _ _ Hrec) as (H1 & H2 & H3).
    split; [exact H1|]. split; [exact H2|]. cbn. rewrite Hcb. f_equal. exact H3.
Qed.

(** On an array that nothing modifies and with callbacks that answer
    every call the same, the loop is [dispatch] on the part of the
    array from the index on. *)
Lemma live_dispatch_unmodified fuel : forall arr i data h0,
  unmodified during -> steady answer data ->
  0 < fuel -> List.length arr < fuel + i ->
  live_dispatch during answer fuel arr i data h0 = Some (dispatch (drop i arr) data h0).
Proof.
  induction fuel as [|fuel IH]; intros arr i data h0 Hid Hst Hpos Hfuel; [lia|].
  cbn [live_dispatch]. destruct (arr !! i) as [l|] eqn:Hl.
  - rewrite (drop_S _ _ _ Hl). cbn [dispatch]. cbv zeta. rewrite Hid, Hst.
    apply lookup_lt_Some in Hl.
    rewrite !IH by (auto; lia).
    destruct (callback l data) as [v|e].
    + destruct (strict_true v); [destruct (exclusive l); [reflexivity|]|].
      * destruct (dispatch (drop (S i) arr) data true) as [[h inv] errs]. reflexivity.
      * destruct (dispatch (drop (S i) arr) data h0) as [[h inv] errs]. reflexivity.
    + destruct (dispatch (drop (S i) arr) data h0) as [[h inv] errs]. reflexivity.
  - apply lookup_ge_None in Hl. rewrite drop_ge by lia. reflexivity.
Qed.

(** The whole of [emit] on the live array: while the array stays
    within a bound the call ends, with the same answer for every
    number of calls allowed above the bound. *)
Lemma live_emit_run_total bound bus event data :
  bounded during bound ->
  (forall ls, bus !! event = Some ls -> List.length ls <= bound) ->
  exists handled inv errs,
    live_emit_run during answer (S bound) bus event data = Some (handled, inv, errs) /\
    forall fuel, bound < fuel ->
      live_emit_run during answer fuel bus event data = Some (handled, inv, errs).
Proof.
  intros Hb Hlen. unfold live_emit_run.
  destruct (bus !! event) as [ls|] eqn:Hbus; [|eauto 10].
  destruct (Nat.eqb (List.length ls) 0); [eauto 10|].
  destruct (live_dispatch_total bound (S bound) ls 0 data false Hb (Hlen ls eq_refl))
    as [[[h inv] errs] Hr]; [lia|lia|].
  exists h, inv, errs. split; [exact Hr|].
  intros fuel Hfuel. eapply live_dispatch_fuel_le; [|exact Hr]. lia.
Qed.

(** When nothing modifies the array and the callbacks answer every
    call the same, [emit] on the live array is [emit_run]. *)
Lemma live_emit_run_unmodified fuel bus event data :
  unmodified during -> steady answer data ->
  (forall ls, bus !! event = Some ls -> List.length ls < fuel) ->
  live_emit_run during answer fuel bus event data = Some (emit_run bus event data).
Proof.
  intros Hid Hst Hlen. unfold live_emit_run, emit_run.
  destruct (bus !! event) as [ls|] eqn:Hbus; [|reflexivity].
  destruct (Nat.eqb (List.length ls) 0); [reflexivity|].
  specialize (Hlen ls eq_refl).
  rewrite live_dispatch_unmodified; [reflexivity|exact Hid|exact Hst|lia|lia].
Qed.

(** The array [leaves] makes is never longer than the one it is given. *)
Lemma splice_id_length i (arr : list (listener D)) :
  List.length (splice_id i arr) <= List.length arr.
Proof.
  induction arr as [|l arr IH]; [reflexivity|].
  cbn [splice_id]. destruct (String.eqb (id l) i); cbn [List.length]; lia.
Qed.

Lemma leaves_bounded i bound : bounded (leaves (D:=D) i) bound.
Proof.
  intros k l arr Hlen. unfold leaves.
  destruct (String.eqb (id l) i); [|exact Hlen].
  pose proof (splice_id_length i arr). lia.
Qed.

(** C9.  [emit] answers [true] exactly when one of the handlers of the
    topic returned the boolean [true] to it: one of its calls, each of
    the listener standing at the index of the loop at that moment,
    returned [true].  A call that returns any other value, truthy or
    not, or that throws, never makes the answer [true]; and a topic
    that is absent or has an empty listener array gives [false] with no
    handler called.  When nothing modifies the array during the call
    and the handlers answer every call the same, the handlers called
    are those subscribed: the answer is [true] exactly when a
    subscribed handler returns [true]. *)
Theorem emit_true_iff_handler_returned_true bound bus event data :
  bounded during bound ->
  (forall ls, bus !! event = Some ls -> List.length ls <= bound) ->
  exists handled inv errs,
    (forall fuel, bound < fuel ->
       live_emit_run during answer fuel bus event data = Some (handled, inv, errs)) /\
    (handled = true <->
       exists k l, inv !! k = Some l /\ answer k l data = Normal (VBool true)) /\
    ((forall k l, inv !! k = Some l -> answer k l data <> Normal (VBool true)) ->
     handled = false) /\
    (bus !! event = None \/ bus !! event = Some [] -> handled = false /\ inv = []) /\
    (unmodified during -> steady answer data ->
     handled = emit bus event data /\ inv = invoked bus event data /\
     (handled = true <->
        exists ls l, bus !! event = Some ls /\ l ∈ ls /\
                     callback l data = Normal (VBool true))).
Proof.
  intros Hb Hlen.
  destruct (live_emit_run_total bound bus event data Hb Hlen)
    as (h & inv & errs & Hrun & Hall).
  exists h, inv, errs. split; [exact Hall|].
  assert (Hiff : h = true <->
            exists k l, inv !! k = Some l /\ answer k l data = Normal (VBool true)).
  { unfold live_emit_run in Hrun. destruct (bus !! event) as [ls|].
    - destruct (Nat.eqb (List.length ls) 0).
      + injection Hrun as <- <- <-. split; [discriminate|].
        intros (k & l & Hl & _). rewrite lookup_nil in Hl. discriminate Hl.
      + apply live_dispatch_handled in Hrun. rewrite Hrun. cbn [Nat.add].
        split; [intros [H|H]; [discriminate H|exact H]|auto].
    - injection Hrun as <- <- <-. split; [discriminate|].
      intros (k & l & Hl & _). rewrite lookup_nil in Hl. discriminate Hl. }
  split; [exact Hiff|]. split; [|split].
  - intros Hno. apply not_true_is_false. intros Ht.
    apply Hiff in Ht as (k & l & Hl & Hcb). exact (Hno k l Hl Hcb).
  - intros Hempty. unfold live_emit_run in Hrun.
    destruct Hempty as [He|He]; rewrite He in Hrun; cbn in Hrun;
      injection Hrun as <- <- <-; auto.
  - intros Hid Hst.
    assert (Hpure : Some (h, inv, errs) = Some (emit_run bus event data)).
    { rewrite <- Hrun. apply live_emit_run_unmodified; [exact Hid|exact Hst|].
      intros ls Hls. specialize (Hlen ls Hls). lia. }
    injection Hpure as Hpure.
    assert (h = emit bus event data) as Hh by (unfold emit; rewrite <- Hpure; reflexivity).
    split; [exact Hh|]. split; [unfold invoked; rewrite <- Hpure; reflexivity|].
    rewrite Hh. apply emit_unmodified_true_iff.
Qed.

End LiveFacts.

End EventBusFacts.

(** ** WorkflowEngine *)

Section WorkflowFacts.
Import WorkflowEngine.
Variable executor : string -> Step -> completion string ExecResult.

(** C10.  When the argument is null (or otherwise falsy), or its
    [steps] is missing, null or not an array, [executeWorkflow] returns
    the failure ['Invalid workflow plan'] and the engine, registry
    included, is what it was: no record is created or modified. *)
Theorem executeWorkflow_invalid_plan (plan : option Plan) (e : env) (σ : engine) :
  (plan = None \/ exists p, plan = Some p /\ forall l, steps p <> StepsArray l) ->
  executeWorkflow executor plan e σ = (σ, Invalid "Invalid workflow plan") /\
  activeWorkflows (fst (executeWorkflow executor plan e σ)) = activeWorkflows σ.
Proof.
  intros Hbad.
  assert (H : executeWorkflow executor plan e σ = (σ, Invalid "Invalid workflow plan")).
  { destruct Hbad as [->|(p & -> & Hp)]; [reflexivity|].
    unfold executeWorkflow.
    destruct (steps p) as [| | b | l] eqn:Hs; try reflexivity.
    exfalso. exact (Hp l eq_refl). }
  split; [exact H|]. rewrite H. reflexivity.
Qed.

(** *** The sequential loop and the array it fills *)

Lemma push_lookup σ res x l :
  arrays σ !! res = Some l ->
  arrays (push σ res x) !! res = Some (l ++ [x]).
Proof.
  intros H. unfold push; simpl. rewrite lookup_alter_eq, H. reflexivity.
Qed.

Lemma sequential_try_normal step i res w σ l r :
  arrays σ !! res = Some l ->
  _executeStep executor step = Normal r ->
  exists σ1,
    sequential_try executor step i res w σ =
      (σ1, if negb (success r) && critical step
           then Abrupt ("Critical step " +:+ step_id step +:+ " failed: "
                          +:+ error r)
           else Normal tt) /\
    arrays σ1 !! res = Some (l ++ [Outcome (step_id step) (success r) r]).
Proof.
  intros Hl Hr. unfold sequential_try. rewrite Hr.
  pose proof (push_lookup σ res (Outcome (step_id step) (success r) r) l Hl) as Hp.
  destruct (activeWorkflows (push σ res (Outcome (step_id step) (success r) r)) !! w)
    as [wf|]; eexists; (split; [destruct (negb (success r) && critical step); reflexivity|]);
    exact Hp.
Qed.

(** Steps that are not failing critical steps each add one entry and
    let the loop go on. *)
Lemma sequential_loop_prefix pre : forall rest i res w σ l,
  arrays σ !! res = Some l ->
  Forall (fun s => critical s && step_fails executor s = false) pre ->
  exists σ' l',
    sequential_loop executor (pre ++ rest) i res w σ =
      sequential_loop executor rest (i + List.length pre) res w σ' /\
    arrays σ' !! res = Some l' /\
    List.length l' = List.length l + List.length pre.
Proof.
  induction pre as [|s pre IH]; intros rest i res w σ l Hl Hpre.
  - exists σ, l. simpl. rewrite Nat.add_0_r. repeat split; [exact Hl|lia].
  - apply Forall_cons in Hpre as [Hs Hpre].
    simpl app. cbn [sequential_loop].
    unfold step_fails in Hs.
    destruct (_executeStep executor s) as [r|e] eqn:Hex.
    + destruct (sequential_try_normal s i res w σ l r Hl Hex) as (σ1 & Htry & Hl1).
      rewrite Htry. rewrite andb_comm in Hs. rewrite Hs.
      destruct (IH rest (S i) res w σ1 _ Hl1 Hpre) as (σ' & l' & Hloop & Hl' & Hlen).
      exists σ', l'. rewrite Hloop. split; [f_equal; simpl; lia|].
      split; [exact Hl'|]. rewrite Hlen, length_app. simpl. lia.
    + unfold sequential_try. rewrite Hex.
      rewrite andb_true_r in Hs. rewrite Hs.
      pose proof (push_lookup σ res (Failure (step_id s) e) l Hl) as Hl1.
      destruct (IH rest (S i) res w _ _ Hl1 Hpre) as (σ' & l' & Hloop & Hl' & Hlen).
      exists σ', l'. rewrite Hloop. split; [f_equal; simpl; lia|].
      split; [exact Hl'|]. rewrite Hlen, length_app. simpl. lia.
Qed.

(** A critical step whose executor throws: the loop stops with the
    error, and the array holds one entry per step up to and including
    the failing one. *)
Lemma sequential_critical_throw pre s post e w σ :
  Forall (fun s => critical s && step_fails executor s = false) pre ->
  critical s = true ->
  _executeStep executor s = Abrupt e ->
  exists σ',
    _executeSequential executor (pre ++ s :: post) w σ = (σ', Abrupt e) /\
    List.length (read_array σ' (next_loc σ)) = List.length pre + 1.
Proof.
  intros Hpre Hc Hex. unfold _executeSequential, new_array.
  set (σ0 := mkEngine _ _ _).
  assert (Hl : arrays σ0 !! next_loc σ = Some []) by apply lookup_insert_eq.
  destruct (sequential_loop_prefix pre (s :: post) 0 (next_loc σ) w σ0 [] Hl Hpre)
    as (σ1 & l1 & Hloop & Hl1 & Hlen).
  rewrite Hloop. cbn [sequential_loop]. unfold sequential_try. rewrite Hex, Hc.
  eexists. split; [reflexivity|].
  unfold read_array. rewrite (push_lookup _ _ _ _ Hl1). simpl.
  rewrite length_app, Hlen. simpl. lia.
Qed.

(** A critical step whose executor returns a result with a falsy
    [success]: the [throw] inside the [try] block is caught by the
    [catch] of the same iteration, which records the step a second
    time before re-throwing.  The array holds one entry more than the
    number of steps executed. *)
Lemma sequential_critical_failed_result pre s post r w σ :
  Forall (fun s => critical s && step_fails executor s = false) pre ->
  critical s = true ->
  _executeStep executor s = Normal r ->
  success r = false ->
  exists σ',
    _executeSequential executor (pre ++ s :: post) w σ =
      (σ', Abrupt ("Critical step " +:+ step_id s +:+ " failed: " +:+ error r)) /\
    List.length (read_array σ' (next_loc σ)) = List.length pre + 2.
Proof.
  intros Hpre Hc Hex Hr. unfold _executeSequential, new_array.
  set (σ0 := mkEngine _ _ _).
  assert (Hl : arrays σ0 !! next_loc σ = Some []) by apply lookup_insert_eq.
  destruct (sequential_loop_prefix pre (s :: post) 0 (next_loc σ) w σ0 [] Hl Hpre)
    as (σ1 & l1 & Hloop & Hl1 & Hlen).
  rewrite Hloop. cbn [sequential_loop].
  destruct (sequential_try_normal s (0 + List.length pre) (next_loc σ) w σ1 l1 r Hl1 Hex)
    as (σ2 & Htry & Hl2).
  rewrite Htry, Hr, Hc. simpl negb. simpl andb. cbv iota.
  eexists. split; [reflexivity|].
  unfold read_array. rewrite (push_lookup _ _ _ _ Hl2). simpl.
  rewrite !length_app, Hlen. simpl. lia.
Qed.

(** The parallel strategy: one entry per step, in step order, whatever
    the steps do; the workflow ends [completed]. *)
Lemma parallel_one_result_per_step todo req e σ :
  exists σ' res,
    executeWorkflow executor
      (Some (mkPlan (StepsArray todo) (Some "parallel") req)) e σ
      = (σ', Succeeded (now_id e, random1000 e) res) /\
    record_status σ' (now_id e, random1000 e) = Some completed /\
    record_results σ' (now_id e, random1000 e) =
      Some (map (parallel_entry executor) todo) /\
    List.length (map (parallel_entry executor) todo) = List.length todo.
Proof.
  unfold executeWorkflow, _executeParallel, new_array, set_record,
    record_status, record_results, read_array, strategy_of.
  cbn -[String.eqb]. 
  change (String.eqb "parallel" EmptyString) with false.
  change (String.eqb "parallel" "sequential") with false.
  change (String.eqb "parallel" "parallel") with true.
  cbn. rewrite lookup_insert_eq. cbn.
  eexists _, _. split; [reflexivity|]. cbn.
  rewrite !lookup_insert_eq. cbn. rewrite lookup_insert_eq. cbn.
  repeat split. apply length_map.
Qed.

(** C2, at the smallest plan that shows the defect: a single critical
    step ([k = 1]) whose executor returns [{success: false}], run
    sequentially.  The workflow ends [failed], but its record holds two
    entries for the one step that ran, not one. *)
Theorem sequential_critical_failure_recorded_twice :
  let step := mkStep "s1" "discord.request" (Some "member.ban") true in
  let plan := mkPlan (StepsArray [step]) (Some "sequential") true in
  let exec := fun (_ : string) (_ : Step) =>
                Normal (mkExecResult false "Missing Permissions")
                : completion string ExecResult in
  let '(σ', ret) := executeWorkflow exec (Some plan) (mkEnv 17 3 17 18) empty_engine in
  ret = Failed (17, 3) "Critical step s1 failed: Missing Permissions" /\
  record_status σ' (17, 3) = Some failed /\
  record_results σ' (17, 3) =
    Some [Outcome "s1" false (mkExecResult false "Missing Permissions");
          Failure "s1" "Critical step s1 failed: Missing Permissions"] /\
  (List.length <$> record_results σ' (17, 3)) = Some 2.
Proof. vm_compute. repeat split. Qed.

End WorkflowFacts.

(** ** LLMService: retries and backoff *)

Section GenerateFacts.
Import LLMService.
Variable other_command : route -> string -> string.

Lemma attempt_succeeds svc r :
  succeeds r = true -> exists c, attempt svc r = Normal c.
Proof.
  destruct r as [m|st b|m|[c|]]; simpl; try discriminate.
  destruct (String.eqb c EmptyString); simpl; [discriminate|eauto].
Qed.

Lemma attempt_fails svc r :
  succeeds r = false -> exists e, attempt svc r = Abrupt e.
Proof.
  destruct r as [m|st b|m|[c|]]; simpl; eauto.
  destruct (String.eqb c EmptyString); simpl; [eauto|discriminate].
Qed.

Lemma backoff_lookup n : forall d i x,
  backoff d n !! i = Some x -> x = (d * 2 ^ N.of_nat i)%N.
Proof.
  induction n as [|n IH]; intros d i x H; [discriminate|].
  destruct i as [|i]; simpl in H.
  - inversion H; subst. simpl. lia.
  - apply IH in H. subst x. rewrite Nat2N.inj_succ, N.pow_succ_r'. lia.
Qed.

Lemma backoff_length n : forall d, List.length (backoff d n) = n.
Proof. induction n as [|n IH]; intros d; simpl; [reflexivity|]. now rewrite IH. Qed.

Lemma backoff_app n : forall d m,
  backoff d (n + m) = backoff d n ++ backoff (d * 2 ^ N.of_nat n) m.
Proof.
  induction n as [|n IH]; intros d m.
  - simpl. now rewrite N.mul_1_r.
  - cbn [Nat.add backoff app]. rewrite IH. do 3 f_equal.
    rewrite Nat2N.inj_succ, N.pow_succ_r'. lia.
Qed.

(** The loop, started with enough fuel for the attempts that are
    left. *)
Lemma retry_loop_spec fuel : forall backend svc a lastError,
  retryAttempts svc - a <= fuel ->
  exists svc' effs out,
    retry_loop fuel backend svc a lastError = (svc', effs, out) /\
    retryAttempts svc' = retryAttempts svc /\
    useFallbackOnError svc' = useFallbackOnError svc /\
    delays effs = backoff (retryDelay svc) (fetches effs - 1) /\
    retryDelay svc' = (retryDelay svc * 2 ^ N.of_nat (fetches effs - 1))%N /\
    (a < retryAttempts svc -> 1 <= fetches effs) /\
    (forall k, a <= k -> succeeds (backend k) = true ->
       (forall j, a <= j < k -> succeeds (backend j) = false) ->
       fetches effs = Nat.min (retryAttempts svc - a) (k - a + 1)) /\
    ((forall j, a <= j < retryAttempts svc -> succeeds (backend j) = false) ->
     fetches effs = retryAttempts svc - a /\ exists e, out = inr e).
Proof.
  induction fuel as [|fuel IH]; intros backend svc a lastError Hfuel.
  - exists svc, [], (inr lastError). simpl.
    repeat split; try lia; eauto.
  - cbn [retry_loop].
    destruct (Nat.ltb a (retryAttempts svc)) eqn:Hlt.
    2:{ apply Nat.ltb_ge in Hlt. exists svc, [], (inr lastError). simpl.
        repeat split; try lia; eauto. }
    apply Nat.ltb_lt in Hlt.
    destruct (succeeds (backend a)) eqn:Hs.
    + destruct (attempt_succeeds svc _ Hs) as (c & ->).
      exists svc, [Fetch], (inl c). simpl.
      split; [reflexivity|]. split; [reflexivity|]. split; [reflexivity|].
      split; [reflexivity|]. split; [lia|]. split; [lia|]. split.
      * intros k Hk Hks Hbefore.
        destruct (Nat.eq_dec k a) as [->|Hne]; [lia|].
        rewrite Hbefore in Hs by lia. discriminate.
      * intros Hfail. rewrite Hfail in Hs by lia. discriminate.
    + destruct (attempt_fails svc _ Hs) as (e & ->).
      destruct (Nat.ltb (a + 1) (retryAttempts svc)) eqn:Hlt'.
      * apply Nat.ltb_lt in Hlt'.
        destruct (IH backend (set_retryDelay svc (retryDelay svc * 2)) (a + 1) (Some e))
          as (svc' & effs & out & Heq & Hn & Hfb & Hd & Hrd & Hge & Hk & Hall);
          [simpl; lia|].
        simpl in Hn, Hfb, Hd, Hrd, Hge, Hk, Hall.
        rewrite Heq. exists svc', (Fetch :: Sleep (retryDelay svc) :: effs), out.
        specialize (Hge Hlt').
        split; [reflexivity|]. split; [exact Hn|]. split; [exact Hfb|].
        cbn [fetches delays]. rewrite Nat.sub_succ, Nat.sub_0_r.
        split; [|split; [|split; [lia|split]]].
        -- rewrite Hd. destruct (fetches effs) as [|f]; [lia|].
           simpl. now rewrite Nat.sub_0_r.
        -- rewrite Hrd. destruct (fetches effs) as [|f]; [lia|].
           simpl Nat.sub. rewrite Nat.sub_0_r, Nat2N.inj_succ, N.pow_succ_r'. lia.
        -- intros k Hak Hks Hbefore.
           assert (k <> a) by (intros ->; congruence).
           rewrite (Hk k) by (try lia; auto; intros; apply Hbefore; lia). lia.
        -- intros Hfail. destruct Hall as [Hf Hout]; [intros; apply Hfail; lia|].
           split; [lia|exact Hout].
      * apply Nat.ltb_ge in Hlt'.
        destruct (IH backend svc (a + 1) (Some e))
          as (svc' & effs & out & Heq & Hn & Hfb & Hd & Hrd & Hge & Hk & Hall);
          [lia|].
        rewrite Heq. exists svc', (Fetch :: effs), out.
        destruct Hall as [Hf Hout]; [intros; lia|].
        assert (Hz : fetches effs = 0) by lia.
        split; [reflexivity|]. split; [exact Hn|]. split; [exact Hfb|].
        cbn [fetches delays]. rewrite Hz in *. simpl in *.
        repeat split; auto; try lia.
Qed.

Lemma generateResponse_spec backend svc sys user :
  exists svc' effs out,
    generateResponse other_command backend svc sys user = (svc', effs, out) /\
    retryAttempts svc' = retryAttempts svc /\
    delays effs = backoff (retryDelay svc) (fetches effs - 1) /\
    retryDelay svc' = (retryDelay svc * 2 ^ N.of_nat (fetches effs - 1))%N /\
    (forall k, succeeds (backend k) = true ->
       (forall j, j < k -> succeeds (backend j) = false) ->
       fetches effs = Nat.min (retryAttempts svc) (k + 1)) /\
    ((forall j, j < retryAttempts svc -> succeeds (backend j) = false) ->
     fetches effs = retryAttempts svc /\
     out = Abrupt (ReferenceError "response is not defined")).
Proof.
  unfold generateResponse.
  destruct (retry_loop_spec (retryAttempts svc) backend svc 0 None)
    as (svc' & effs & out & Heq & Hn & Hfb & Hd & Hrd & Hge & Hk & Hall); [lia|].
  rewrite Heq. eexists _, _, _. split; [reflexivity|].
  split; [exact Hn|]. split; [exact Hd|]. split; [exact Hrd|]. split.
  - intros k Hks Hbefore. rewrite (Hk k); [f_equal; lia|lia|auto|].
    intros; apply Hbefore; lia.
  - intros Hfail. destruct Hall as [Hf [e ->]]; [intros; apply Hfail; lia|].
    split; [lia|reflexivity].
Qed.

Lemma generate_many_delays calls : forall svc sys user,
  let ds := concat (map delays (snd (generate_many other_command calls svc sys user))) in
  ds = backoff (retryDelay svc) (List.length ds).
Proof.
  induction calls as [|backend rest IH]; intros svc sys user; [reflexivity|].
  cbn [generate_many].
  destruct (generateResponse_spec backend svc sys user)
    as (svc' & effs & out & Heq & _ & Hd & Hrd & _).
  rewrite Heq. specialize (IH svc' sys user).
  destruct (generate_many other_command rest svc' sys user) as [svc'' effss].
  cbn [snd map concat] in *. cbv zeta in *.
  rewrite length_app, Hd, backoff_length, backoff_app, <- Hrd, <- IH.
  reflexivity.
Qed.


(** When every attempt fails, the call ends with the reference error
    raised by the debug statements that follow the loop; neither the
    fallback synthesizer nor the final [throw] is reached, whatever
    [useFallbackOnError] says. *)
Lemma generateResponse_all_attempts_fail backend svc sys user :
  (forall j, j < retryAttempts svc -> succeeds (backend j) = false) ->
  snd (generateResponse other_command backend svc sys user) =
    Abrupt (ReferenceError "response is not defined") /\
  fetches (snd (fst (generateResponse other_command backend svc sys user))) =
    retryAttempts svc.
Proof.
  intros Hfail.
  destruct (generateResponse_spec backend svc sys user)
    as (svc' & effs & out & Heq & _ & _ & _ & _ & Hall).
  rewrite Heq. cbn [fst snd]. destruct (Hall Hfail) as [-> ->]. split; reflexivity.
Qed.

(** C1, at a backend that refuses every connection, with the settings
    of the constructor (three attempts, fallback enabled): the three
    attempts are made, and the call then throws the reference error of
    the statement that reads [response] after the loop.  The plan of
    the fallback synthesizer is not returned. *)
Theorem generateResponse_throws_before_fallback :
  generateResponse other_command (fun _ => FetchFailed "ECONNREFUSED") new_service
    "You are a moderation bot." "send hello 3 times"
  = (mkService 3 4000 true true,
     [Fetch; Sleep 1000; Fetch; Sleep 2000; Fetch],
     Abrupt (ReferenceError "response is not defined")) /\
  useFallbackOnError new_service = true /\
  Normal (_generateFallbackResponse other_command "send hello 3 times")
    <> snd (generateResponse other_command (fun _ => FetchFailed "ECONNREFUSED")
              new_service "You are a moderation bot." "send hello 3 times").
Proof.
  split; [reflexivity|]. split; [reflexivity|]. intros H. discriminate H.
Qed.

End GenerateFacts.



(** ** LLMService: the fallback synthesizer and the JSON repair *)

Section FallbackFacts.
Import LLMService.
Variable other_command : route -> string -> string.

(** C6 as the specification words it fails: the synthesizer takes the
    message text from a quoted span only; [send hello 3 times] has
    none, so the steps carry the default text, not [hello]. *)
Lemma send_hello_content_is_not_hello :
  ~ (let plan := write_plan "send hello 3 times" in
     route_of "send hello 3 times" = WriteCommand /\
     List.length (fp_steps plan) = 3 /\
     fp_strategy plan = "sequential" /\
     Forall (fun st => ps_action st = "message.create" /\ ps_content st = "hello")
       (fp_steps plan)).
Proof.
  intros (_ & _ & _ & H). vm_compute in H.
  inversion H as [|? ? [_ Hc] _]. discriminate Hc.
Qed.

(** C6, amended.  For [send hello 3 times] the fallback synthesizer
    returns the serialised plan of the write command: exactly three
    steps, strategy sequential, every step's action [message.create],
    every step's content the default text [Merhaba!].  When the text is
    quoted, as in [send 'hello' 3 times], every step's content is
    [hello]. *)
Theorem send_hello_three_default_messages :
  let plan := write_plan "send hello 3 times" in
  let quoted := write_plan "send 'hello' 3 times" in
  _generateFallbackResponse other_command "send hello 3 times" = stringify_plan plan /\
  List.length (fp_steps plan) = 3 /\
  fp_strategy plan = "sequential" /\
  Forall (fun st => ps_action st = "message.create" /\ ps_content st = "Merhaba!")
    (fp_steps plan) /\
  _generateFallbackResponse other_command "send 'hello' 3 times" = stringify_plan quoted /\
  List.length (fp_steps quoted) = 3 /\
  fp_strategy quoted = "sequential" /\
  Forall (fun st => ps_action st = "message.create" /\ ps_content st = "hello")
    (fp_steps quoted).
Proof.
  cbv zeta. repeat split; try reflexivity.
  - vm_compute. repeat constructor.
  - vm_compute. repeat constructor.
Qed.

End FallbackFacts.

Section RepairFacts.
Import LLMService.


Lemma truncated_answer_repaired :
  _fixJsonFormat "{'steps': [" = "{" +:+ quote +:+ "steps" +:+ quote +:+ ": [}]" /\
  Json.parses (_fixJsonFormat "{'steps': [") = false.
Proof. split; reflexivity. Qed.



End RepairFacts.

(** ** Runs on concrete inputs *)

(** The first listener's handler removes its own registration: the
    second listener moves to the index the loop has passed and its
    handler, which would have returned [true], is not called; the
    third handler returns a non-empty string, a truthy value.  [emit]
    answers [false].  On the same array left as it is, it answers
    [true]. *)
Lemma emit_true_iff_handler_returned_true_witness :
  (forall fuel, 3 < fuel ->
     EventBus.live_emit_run (EventBus.leaves "messageCreate_1")
       (fun _ => EventBus.callback) fuel
       ({["messageCreate" := [EventBus.leaving_listener; EventBus.handling_listener;
                              EventBus.chatty_listener]]}
          : EventBus.listeners unit) "messageCreate" tt
     = Some (false, [EventBus.leaving_listener; EventBus.chatty_listener], 0)) /\
  EventBus.emit
    ({["messageCreate" := [EventBus.leaving_listener; EventBus.handling_listener;
                           EventBus.chatty_listener]]}
       : EventBus.listeners unit) "messageCreate" tt = true.
Proof.
  destruct (emit_true_iff_handler_returned_true (EventBus.leaves "messageCreate_1")
    (fun _ => EventBus.callback) 3
    ({["messageCreate" := [EventBus.leaving_listener; EventBus.handling_listener;
                           EventBus.chatty_listener]]}
       : EventBus.listeners unit) "messageCreate" tt (leaves_bounded _ 3))
    as (h & inv & errs & Hrun & _).
  { intros ls Hls. rewrite lookup_singleton_eq in Hls. injection Hls as <-. simpl. lia. }
  assert (H4 : Some (h, inv, errs)
               = Some (false, [EventBus.leaving_listener; EventBus.chatty_listener], 0)).
  { rewrite <- (Hrun 4) by lia. unfold EventBus.live_emit_run.
    rewrite lookup_singleton_eq. reflexivity. }
  injection H4 as -> -> ->.
  split; [exact Hrun|].
  unfold EventBus.emit, EventBus.emit_run. rewrite lookup_singleton_eq. reflexivity.
Defined.

Lemma executeWorkflow_invalid_plan_witness :
  WorkflowEngine.executeWorkflow (fun _ _ => Normal (WorkflowEngine.mkExecResult true EmptyString))
    (Some (WorkflowEngine.mkPlan WorkflowEngine.StepsUndefined None false))
    (WorkflowEngine.mkEnv 17 3 17 18) WorkflowEngine.empty_engine
  = (WorkflowEngine.empty_engine, WorkflowEngine.Invalid "Invalid workflow plan").
Proof.
  apply executeWorkflow_invalid_plan. right.
  exists (WorkflowEngine.mkPlan WorkflowEngine.StepsUndefined None false).
  split; [reflexivity|]. intros l Hl. discriminate Hl.
Defined.

(** ** The approval gate *)

Section ApprovalFacts.
Import Approval.

Lemma awaitReactions_by_user author_id time events :
  awaitReactions (filter author_id) time (by_user author_id events) =
  awaitReactions (filter author_id) time events.
Proof.
  induction events as [|r rest IH]; [reflexivity|].
  cbn [by_user awaitReactions].
  destruct (String.eqb (user_id r) author_id) eqn:Hu.
  - cbn [awaitReactions]. rewrite IH. reflexivity.
  - unfold filter at 2. rewrite Hu, andb_false_r, andb_false_r. exact IH.
Qed.

Lemma awaitReactions_timeout author_id time events :
  (forall r, r ∈ events -> filter author_id r = true -> (time <= at_ms r)%N) ->
  awaitReactions (filter author_id) time events = Abrupt "time".
Proof.
  induction events as [|r rest IH]; intros Hlate; [reflexivity|].
  cbn [awaitReactions].
  destruct (filter author_id r) eqn:Hf.
  - assert (time <= at_ms r)%N as Hle by (apply Hlate; [left|exact Hf]).
    apply N.ltb_ge in Hle. rewrite Hle. simpl.
    apply IH. intros r' Hin. apply Hlate. right. exact Hin.
  - rewrite andb_false_r. apply IH. intros r' Hin. apply Hlate. right. exact Hin.
Qed.

(** C7.  If every accept or reject reaction of the requester comes
    when the 30 s window has elapsed (or there is none), the session
    ends [Expired]: the only reply is the expiry notice and the plan
    is never handed to execution.  Reactions of other users are
    ignored: dropping them from the stream changes neither the final
    state nor what the function does. *)
Theorem approval_expires_without_requester_ack
    (author_id : string) (run_plan : completion string unit)
    (events : list reaction) :
  ((forall r, r ∈ events -> filter author_id r = true -> (window_ms <= at_ms r)%N) ->
   requestPlanApproval author_id run_plan events =
     (Expired, [Show "approvePlan"; React accept; React reject; Reply "planExpired"]) /\
   executions (snd (requestPlanApproval author_id run_plan events)) = 0) /\
  requestPlanApproval author_id run_plan (by_user author_id events) =
    requestPlanApproval author_id run_plan events /\
  window_ms = 30000%N.
Proof.
  split; [|split; [|reflexivity]].
  - intros Hlate. unfold requestPlanApproval.
    rewrite (awaitReactions_timeout _ _ _ Hlate). split; reflexivity.
  - unfold requestPlanApproval. rewrite awaitReactions_by_user. reflexivity.
Qed.

End ApprovalFacts.

(** A moderator and a bystander both click accept, the requester clicks
    only after 31 s: the session expires and nothing runs. *)
Lemma approval_expires_without_requester_ack_witness :
  Approval.requestPlanApproval "requester" (Normal tt)
    [Approval.mkReaction Approval.accept "moderator" 1200;
     Approval.mkReaction Approval.accept "bystander" 5000;
     Approval.mkReaction Approval.accept "requester" 31000]
  = (Approval.Expired,
     [Approval.Show "approvePlan"; Approval.React Approval.accept;
      Approval.React Approval.reject; Approval.Reply "planExpired"]).
Proof.
  apply approval_expires_without_requester_ack.
  intros r Hin Hf.
  repeat (apply elem_of_cons in Hin as [->|Hin]);
    [discriminate Hf|discriminate Hf|unfold Approval.window_ms; simpl; lia|inversion Hin].
Defined.

(** ** DynamicHandler: the edit distance *)

Section EditDistance.
Import DynamicHandler.

Lemma lev_nil_l t : lev [] t = List.length t.
Proof. destruct t; reflexivity. Qed.

Lemma lev_nil_r s : lev s [] = List.length s.
Proof. destruct s; reflexivity. Qed.

Lemma lev_cons x s y t :
  lev (x :: s) (y :: t) =
  if Ascii.eqb x y then lev s t
  else S (Nat.min (lev s t) (Nat.min (lev (x :: s) t) (lev s (y :: t)))).
Proof. reflexivity. Qed.

(** Adding or removing one letter on either side moves the value of
    the recursion by at most one. *)
Lemma lev_step n : forall s t, List.length s + List.length t <= n -> forall x,
  lev (x :: s) t <= S (lev s t) /\ lev s (x :: t) <= S (lev s t) /\
  lev s t <= S (lev (x :: s) t) /\ lev s t <= S (lev s (x :: t)).
Proof.
  induction n as [|n IH]; intros s t Hn x.
  - destruct s, t; simpl in Hn; try lia.
    rewrite !lev_nil_l, !lev_nil_r. simpl. lia.
  - repeat split.
    + destruct t as [|y t]; [rewrite !lev_nil_r; simpl; lia|].
      rewrite lev_cons. destruct (Ascii.eqb x y).
      * apply (IH s t); simpl in *; lia.
      * lia.
    + destruct s as [|y s]; [rewrite !lev_nil_l; simpl; lia|].
      rewrite lev_cons. destruct (Ascii.eqb y x).
      * apply (IH s t); simpl in *; lia.
      * lia.
    + destruct t as [|y t]; [rewrite !lev_nil_r; simpl; lia|].
      rewrite lev_cons.
      assert (Hs : List.length s + List.length t <= n) by (simpl in *; lia).
      destruct (IH s t Hs y) as (_ & HB & _ & _).
      destruct (IH s t Hs x) as (_ & _ & HC & _).
      destruct (Ascii.eqb x y); lia.
    + destruct s as [|y s]; [rewrite !lev_nil_l; simpl; lia|].
      rewrite lev_cons.
      assert (Hs : List.length s + List.length t <= n) by (simpl in *; lia).
      destruct (IH s t Hs y) as (HA & _ & _ & _).
      destruct (IH s t Hs x) as (_ & _ & _ & HD).
      destruct (Ascii.eqb y x); lia.
Qed.

Lemma edits_all_insert t : edits [] t (List.length t).
Proof. induction t; simpl; constructor; auto. Qed.

Lemma edits_all_delete s : edits s [] (List.length s).
Proof. induction s; simpl; constructor; auto. Qed.

Lemma lev_edits s : forall t, edits s t (lev s t).
Proof.
  induction s as [|x s IHs]; intros t; [rewrite lev_nil_l; apply edits_all_insert|].
  induction t as [|y t IHt]; [rewrite lev_nil_r; apply edits_all_delete|].
  rewrite lev_cons. destruct (Ascii.eqb x y) eqn:Hxy.
  - apply Ascii.eqb_eq in Hxy. subst y. apply edits_keep, IHs.
  - destruct (Nat.min_spec (lev s t) (Nat.min (lev (x :: s) t) (lev s (y :: t))))
      as [[_ ->]|[_ ->]].
    + apply edits_subst, IHs.
    + destruct (Nat.min_spec (lev (x :: s) t) (lev s (y :: t))) as [[_ ->]|[_ ->]].
      * apply edits_insert, IHt.
      * apply edits_delete, IHs.
Qed.

Lemma lev_lower s t n : edits s t n -> lev s t <= n.
Proof.
  induction 1 as [|x s t n _ IH|x y s t n _ IH|x s t n _ IH|y s t n _ IH].
  - simpl. lia.
  - rewrite lev_cons, Ascii.eqb_refl. exact IH.
  - rewrite lev_cons. destruct (Ascii.eqb x y); lia.
  - destruct (lev_step _ s t (Nat.le_refl _) x) as (HA & _). lia.
  - destruct (lev_step _ s t (Nat.le_refl _) y) as (_ & HB & _). lia.
Qed.

(** The recursion computes the cost of a cheapest edit script. *)
Lemma lev_is_distance s t : is_distance s t (lev s t).
Proof. split; [apply lev_edits|intros n; apply lev_lower]. Qed.

Lemma is_distance_unique s t d d' :
  is_distance s t d -> is_distance s t d' -> d = d'.
Proof. intros [H1 H2] [H3 H4]. apply Nat.le_antisymm; auto. Qed.

(** Scripts read backwards and scripts read in the other direction. *)
Lemma edits_snoc_keep x s t n : edits s t n -> edits (s ++ [x]) (t ++ [x]) n.
Proof. induction 1; simpl; repeat constructor; auto. Qed.

Lemma edits_snoc_subst x y s t n : edits s t n -> edits (s ++ [x]) (t ++ [y]) (S n).
Proof. induction 1; simpl; repeat constructor; auto. Qed.

Lemma edits_snoc_delete x s t n : edits s t n -> edits (s ++ [x]) t (S n).
Proof. induction 1; simpl; repeat constructor; auto. Qed.

Lemma edits_snoc_insert y s t n : edits s t n -> edits s (t ++ [y]) (S n).
Proof. induction 1; simpl; repeat constructor; auto. Qed.

Lemma edits_rev s t n : edits s t n -> edits (rev s) (rev t) n.
Proof.
  induction 1; simpl;
    auto using edits_nil, edits_snoc_keep, edits_snoc_subst,
      edits_snoc_delete, edits_snoc_insert.
Qed.

Lemma edits_sym s t n : edits s t n -> edits t s n.
Proof. induction 1; constructor; auto. Qed.

Lemma is_distance_rev s t d : is_distance (rev s) (rev t) d -> is_distance s t d.
Proof.
  intros [H1 H2]. split.
  - apply edits_rev in H1. now rewrite !rev_involutive in H1.
  - intros n Hn. apply H2, edits_rev, Hn.
Qed.

Lemma is_distance_sym s t d : is_distance s t d -> is_distance t s d.
Proof.
  intros [H1 H2]. split; [apply edits_sym, H1|].
  intros n Hn. apply H2, edits_sym, Hn.
Qed.

End EditDistance.

(** ** DynamicHandler: the matrix computes the edit distance *)

Section Matrix.
Import DynamicHandler.
Variables a b : list ascii.

Local Abbreviation D := (prefix_distance a b).
Local Abbreviation st := (matrix_state a b).

Lemma D_0_r i : i <= List.length b -> D i 0 = i.
Proof.
  intros Hi. unfold prefix_distance. rewrite take_0. simpl rev.
  rewrite lev_nil_r, length_rev, length_take_le; auto.
Qed.

Lemma D_0_l j : j <= List.length a -> D 0 j = j.
Proof.
  intros Hj. unfold prefix_distance. rewrite take_0. simpl rev.
  rewrite lev_nil_l, length_rev, length_take_le; auto.
Qed.

Lemma D_S i j y x :
  b !! i = Some y -> a !! j = Some x ->
  D (S i) (S j) =
    if Ascii.eqb y x then D i j
    else S (Nat.min (D i j) (Nat.min (D (S i) j) (D i (S j)))).
Proof.
  intros Hy Hx. unfold prefix_distance.
  rewrite (take_S_r b i y Hy), (take_S_r a j x Hx), !rev_unit.
  apply lev_cons.
Qed.

Lemma st_prefix_length i :
  List.length ((fun i' => D i' <$> seq 0 (List.length a + 1)) <$> seq 0 i) = i.
Proof. now rewrite length_fmap, length_seq. Qed.

Lemma st_row_lt i n i' :
  i' < i -> st i n !! i' = Some (D i' <$> seq 0 (List.length a + 1)).
Proof.
  intros Hlt. unfold matrix_state.
  rewrite lookup_app_l by (rewrite st_prefix_length; lia).
  rewrite list_lookup_fmap, lookup_seq_lt by lia. reflexivity.
Qed.

Lemma st_row_eq i n : st i n !! i = Some (D i <$> seq 0 n).
Proof.
  unfold matrix_state.
  rewrite lookup_app_r by (rewrite st_prefix_length; lia).
  rewrite st_prefix_length, Nat.sub_diag. reflexivity.
Qed.

Lemma cell_lt i n i' j :
  i' < i -> j <= List.length a -> cell (st i n) i' j = D i' j.
Proof.
  intros Hi Hj. unfold cell. rewrite st_row_lt by lia. simpl.
  rewrite list_lookup_fmap, lookup_seq_lt by lia. reflexivity.
Qed.

Lemma cell_eq i n j : j < n -> cell (st i n) i j = D i j.
Proof.
  intros Hj. unfold cell. rewrite st_row_eq. simpl.
  rewrite list_lookup_fmap, lookup_seq_lt by lia. reflexivity.
Qed.

(** Writing the next entry of the current row. *)
Lemma set_cell_st i n : set_cell (st i n) i n (D i n) = st i (S n).
Proof.
  unfold set_cell. rewrite st_row_eq. simpl default.
  unfold array_set. rewrite length_fmap, length_seq, Nat.ltb_irrefl.
  unfold matrix_state. rewrite seq_S, fmap_app.
  rewrite insert_app_r_alt by (rewrite st_prefix_length; lia).
  rewrite st_prefix_length, Nat.sub_diag. reflexivity.
Qed.

Lemma fill_cell_st i j :
  1 <= i <= List.length b -> 1 <= j <= List.length a ->
  fill_cell a b (st i j) i j = st i (S j).
Proof.
  intros Hi Hj. destruct i as [|i]; [lia|]. destruct j as [|j]; [lia|].
  unfold fill_cell. simpl Nat.sub. rewrite !Nat.sub_0_r.
  rewrite (cell_lt (S i) (S j) i j), (cell_eq (S i) (S j) j),
    (cell_lt (S i) (S j) i (S j)) by lia.
  destruct (lookup_lt_is_Some_2 b i) as [y Hy]; [lia|].
  destruct (lookup_lt_is_Some_2 a j) as [x Hx]; [lia|].
  rewrite Hy, Hx. etransitivity; [|apply set_cell_st]. f_equal.
  rewrite (D_S i j y x Hy Hx).
  destruct (Ascii.eqb_spec y x) as [->|Hne].
  - rewrite bool_decide_eq_true_2 by reflexivity. reflexivity.
  - rewrite bool_decide_eq_false_2 by congruence. lia.
Qed.

(** A filled row, seen from the next one. *)
Lemma st_next_row i :
  i < List.length b -> st i (List.length a + 1) = st (S i) 1.
Proof.
  intros Hi. unfold matrix_state.
  rewrite (seq_S i 0), fmap_app. simpl.
  replace (List.length b - i) with (S (List.length b - S i)) by lia.
  simpl. rewrite D_0_r by lia. rewrite <- app_assoc. reflexivity.
Qed.

Lemma first_row_loop k : forall j,
  1 <= j -> j + k = List.length a + 1 ->
  fold_left (fun m j => set_cell m 0 j j) (seq j k) (st 0 j) = st 0 (List.length a + 1).
Proof.
  induction k as [|k IH]; intros j Hj Hjk.
  - simpl. replace (List.length a + 1) with j by lia. reflexivity.
  - cbn [seq fold_left].
    replace (set_cell (st 0 j) 0 j j) with (st 0 (S j))
      by (rewrite <- set_cell_st, D_0_l by lia; reflexivity).
    apply IH; lia.
Qed.

Lemma init_matrix_st : init_matrix a b = st 0 (List.length a + 1).
Proof.
  unfold init_matrix.
  replace (List.length a + 1) with (S (List.length a)) at 1 by lia.
  replace (List.length b + 1) with (S (List.length b)) by lia.
  cbn [seq fold_left].
  assert (H0 : (fun i => [i]) <$> (0 :: seq 1 (List.length b)) = st 0 1).
  { unfold matrix_state. simpl. rewrite D_0_l by lia.
    rewrite Nat.sub_0_r. reflexivity. }
  rewrite H0.
  assert (H1 : set_cell (st 0 1) 0 0 0 = st 0 1).
  { unfold set_cell. rewrite st_row_eq. unfold matrix_state. simpl.
    rewrite !D_0_l by lia. reflexivity. }
  rewrite H1. apply first_row_loop; lia.
Qed.

Lemma fill_row_loop i k : forall j,
  1 <= i <= List.length b ->
  1 <= j -> j + k = List.length a + 1 ->
  fold_left (fun m j => fill_cell a b m i j) (seq j k) (st i j)
    = st i (List.length a + 1).
Proof.
  induction k as [|k IH]; intros j Hi Hj Hjk.
  - simpl. replace (List.length a + 1) with j by lia. reflexivity.
  - cbn [seq fold_left]. rewrite fill_cell_st by lia. apply IH; lia.
Qed.

Lemma fill_rows_loop k : forall i,
  i + k = List.length b ->
  fold_left (fun m i => fill_row a b m i) (seq (S i) k) (st i (List.length a + 1))
    = st (List.length b) (List.length a + 1).
Proof.
  induction k as [|k IH]; intros i Hik.
  - simpl. replace (List.length b) with i by lia. reflexivity.
  - cbn [seq fold_left]. rewrite st_next_row by lia. unfold fill_row at 2.
    rewrite (fill_row_loop (S i) (List.length a) 1) by lia.
    apply IH. lia.
Qed.

(** The value the code returns is the value of the recursion on the
    reversed words. *)
Lemma levenshtein_lev : levenshtein a b = lev (rev b) (rev a).
Proof.
  unfold levenshtein.
  destruct (Nat.eqb_spec (List.length a) 0) as [Ha|Ha].
  { destruct a; [|discriminate]. simpl. now rewrite lev_nil_r, length_rev. }
  destruct (Nat.eqb_spec (List.length b) 0) as [Hb|Hb].
  { destruct b; [|discriminate]. simpl. now rewrite lev_nil_l, length_rev. }
  unfold levenshtein_matrix. rewrite init_matrix_st.
  rewrite (fill_rows_loop (List.length b) 0) by lia.
  replace (List.length a + 1) with (S (List.length a)) by lia.
  rewrite cell_eq by lia. unfold prefix_distance.
  rewrite !firstn_all. reflexivity.
Qed.

End Matrix.

(** The matrix computation returns the Levenshtein distance. *)
Lemma levenshtein_is_distance (a b : list ascii) :
  DynamicHandler.is_distance a b (DynamicHandler.levenshtein a b).
Proof.
  rewrite levenshtein_lev.
  apply is_distance_sym, is_distance_rev, lev_is_distance.
Qed.

(** ** DynamicHandler: resolution *)

Section ResolverFacts.
Import DynamicHandler.

Lemma levenshteinDistance_lev x y :
  _levenshteinDistance x y = lev (list_ascii_of_string x) (list_ascii_of_string y).
Proof.
  unfold _levenshteinDistance.
  eapply is_distance_unique; [apply levenshtein_is_distance|apply lev_is_distance].
Qed.

(** C5, first half: the distance the code computes is the cost of a
    cheapest edit script. *)
Lemma levenshteinDistance_is_distance x y :
  is_distance (list_ascii_of_string x) (list_ascii_of_string y)
    (_levenshteinDistance x y).
Proof. apply levenshtein_is_distance. Qed.

Lemma calculateSimilarity_spec x y :
  y <> EmptyString -> _calculateSimilarity x y = spec_similarity x y.
Proof.
  intros Hy. unfold _calculateSimilarity, spec_similarity.
  rewrite levenshteinDistance_lev.
  destruct (Nat.eqb_spec (Nat.max (String.length x) (String.length y)) 0) as [H0|H0];
    [|reflexivity].
  destruct y; [congruence|]. simpl in H0. lia.
Qed.

Lemma toLowerCase_nonempty c : c <> EmptyString -> Js.toLowerCase c <> EmptyString.
Proof. destruct c; [congruence|]. simpl. discriminate. Qed.

Lemma validActions_nonempty c : In c validActions -> c <> EmptyString.
Proof.
  intros Hin ->. revert Hin. vm_compute. intuition discriminate.
Qed.

(** The accumulator loop returns the first candidate with the highest
    score above the starting score, if there is one. *)
Lemma best_of_spec n cands : forall bestMatch bestScore,
  let score c := _calculateSimilarity n (Js.toLowerCase c) in
  let '(m, sc) := best_of n cands bestMatch bestScore in
  (bestScore <= sc)%Q /\
  (forall c, In c cands -> (score c <= sc)%Q) /\
  ((m = bestMatch /\ sc = bestScore) \/
   (exists c, In c cands /\ m = Some c /\ sc = score c)).
Proof.
  induction cands as [|c cands IH]; intros bestMatch bestScore; cbn [best_of].
  - split; [apply Qle_refl|]. split; [intros c []|]. left. split; reflexivity.
  - cbv zeta.
    destruct (Qle_bool (_calculateSimilarity n (Js.toLowerCase c)) bestScore) eqn:Hle;
      cbn [negb].
    + apply Qle_bool_iff in Hle.
      specialize (IH bestMatch bestScore). cbv zeta in IH.
      destruct (best_of n cands bestMatch bestScore) as [m sc].
      destruct IH as (Hge & Hall & Hm).
      split; [exact Hge|]. split.
      * intros c' [<-|Hin]; [eapply Qle_trans; eauto|auto].
      * destruct Hm as [Hm|(c' & Hin & Hm)]; [left; exact Hm|].
        right. exists c'. split; [right; exact Hin|exact Hm].
    + assert (Hlt : (bestScore < _calculateSimilarity n (Js.toLowerCase c))%Q).
      { apply Qnot_le_lt. intros H. apply Qle_bool_iff in H. congruence. }
      specialize (IH (Some c) (_calculateSimilarity n (Js.toLowerCase c))).
      cbv zeta in IH.
      destruct (best_of n cands (Some c) (_calculateSimilarity n (Js.toLowerCase c)))
        as [m sc].
      destruct IH as (Hge & Hall & Hm).
      split; [eapply Qle_trans; [apply Qlt_le_weak; exact Hlt|exact Hge]|]. split.
      * intros c' [<-|Hin]; [exact Hge|auto].
      * right. destruct Hm as [[-> ->]|(c' & Hin & Hm)].
        -- exists c. split; [left; reflexivity|split; reflexivity].
        -- exists c'. split; [right; exact Hin|exact Hm].
Qed.

(** The choice made after the loop, over a list of canonical
    identifiers. *)
Lemma threshold_choice n cands fallback :
  (forall c, In c cands -> In c validActions) ->
  let score c := spec_similarity n (Js.toLowerCase c) in
  let '(m, sc) := best_of n cands None 0 in
  let result := if Qle_bool SIMILARITY_THRESHOLD sc then m else fallback in
  (exists c, In c cands /\ result = Some c /\ (6 # 10 <= score c)%Q /\
             forall c', In c' cands -> (score c' <= score c)%Q) \/
  ((forall c, In c cands -> (score c < 6 # 10)%Q) /\ result = fallback).
Proof.
  intros Hsub. cbv zeta.
  assert (Heq : forall c, In c cands ->
            _calculateSimilarity n (Js.toLowerCase c) = spec_similarity n (Js.toLowerCase c)).
  { intros c Hin. apply calculateSimilarity_spec, toLowerCase_nonempty,
      validActions_nonempty, Hsub, Hin. }
  pose proof (best_of_spec n cands None 0) as H. cbv zeta in H.
  destruct (best_of n cands None 0) as [m sc].
  destruct H as (_ & Hall & Hm).
  destruct (Qle_bool SIMILARITY_THRESHOLD sc) eqn:Hth.
  - apply Qle_bool_iff in Hth. unfold SIMILARITY_THRESHOLD in Hth.
    destruct Hm as [[_ ->]|(c & Hin & -> & ->)].
    + exfalso. revert Hth. vm_compute. intros H. apply H. reflexivity.
    + left. exists c. rewrite <- (Heq c Hin).
      split; [exact Hin|]. split; [reflexivity|]. split; [exact Hth|].
      intros c' Hin'. rewrite <- (Heq c' Hin'). apply Hall, Hin'.
  - right. split; [|reflexivity].
    intros c Hin. rewrite <- (Heq c Hin).
    eapply Qle_lt_trans; [apply Hall, Hin|].
    apply Qnot_le_lt. intros H. apply Qle_bool_iff in H.
    unfold SIMILARITY_THRESHOLD in Hth. congruence.
Qed.

(** C5 as the specification words it fails: read without case folding,
    [member.nickchange] is at similarity 10/18 from
    [member.setNickname] and no member action reaches 0.6, so the
    first member action should come back; the code compares
    lower-cased identifiers, finds 11/18 and returns
    [member.setNickname]. *)
Lemma fuzzy_match_is_case_folded :
  ~ (forall raw, get actionMappings raw = Missing ->
                 own actionAliases (Js.toLowerCase raw) = None ->
                 fuzzy_spec (fun s => s) raw (_findSimilarAction raw)).
Proof.
  intros H. specialize (H "member.nickchange" eq_refl eq_refl).
  unfold fuzzy_spec in H. cbv zeta in H.
  change (_findSimilarAction "member.nickchange") with (Some "member.setNickname") in H.
  change (spec_same_category "member.nickchange")
    with ["member.timeout"; "member.kick"; "member.ban"; "member.unban";
          "member.setNickname"] in H.
  cbv iota in H.
  destruct H as [(c & _ & Hc & Hge & _)|(_ & Hres)].
  - inversion Hc; subst c.
    rewrite <- calculateSimilarity_spec in Hge by discriminate.
    revert Hge. vm_compute. intros Hge. apply Hge. reflexivity.
  - discriminate Hres.
Qed.

Lemma same_category_valid n c : In c (same_category n) -> In c validActions.
Proof.
  unfold same_category. destruct (Js.includes "." n); [|intros []].
  intros Hin. apply filter_In in Hin. tauto.
Qed.

Lemma findSimilarAction_fuzzy_spec raw :
  fuzzy_spec Js.toLowerCase raw (_findSimilarAction raw).
Proof.
  unfold fuzzy_spec, _findSimilarAction. cbv zeta.
  change (spec_same_category (Js.toLowerCase raw))
    with (same_category (Js.toLowerCase raw)).
  destruct (same_category (Js.toLowerCase raw)) as [|first rest] eqn:Hsc.
  - pose proof (threshold_choice (Js.toLowerCase raw) validActions None
                  (fun c H => H)) as H.
    cbv zeta in H.
    destruct (best_of (Js.toLowerCase raw) validActions None 0) as [m sc].
    exact H.
  - assert (Hsub : forall c, In c (first :: rest) -> In c validActions).
    { intros c Hin. rewrite <- Hsc in Hin. eapply same_category_valid, Hin. }
    pose proof (threshold_choice (Js.toLowerCase raw) (first :: rest)
                  (Some first) Hsub) as H.
    cbv zeta in H.
    destruct (best_of (Js.toLowerCase raw) (first :: rest) None 0) as [m sc].
    exact H.
Qed.

Lemma findSimilarAction_valid raw c :
  _findSimilarAction raw = Some c -> In c validActions.
Proof.
  intros Hc. pose proof (findSimilarAction_fuzzy_spec raw) as H.
  unfold fuzzy_spec in H. cbv zeta in H.
  change (spec_same_category (Js.toLowerCase raw))
    with (same_category (Js.toLowerCase raw)) in H.
  rewrite Hc in H.
  destruct (same_category (Js.toLowerCase raw)) as [|first rest] eqn:Hsc.
  - destruct H as [(c' & Hin & Heq & _)|(_ & Heq)]; [|discriminate].
    inversion Heq; subst. exact Hin.
  - destruct H as [(c' & Hin & Heq & _)|(_ & Heq)]; inversion Heq; subst.
    + rewrite <- Hsc in Hin. eapply same_category_valid, Hin.
    + eapply same_category_valid. rewrite Hsc. left. reflexivity.
Qed.

Lemma validActions_own c :
  In c validActions -> exists handler, get actionMappings c = Own handler.
Proof.
  intros Hin. vm_compute in Hin.
  repeat (destruct Hin as [<-|Hin]; [eexists; reflexivity|]). destruct Hin.
Qed.

(** C5, amended.  For a raw identifier with no exact and no alias
    match, the resolver takes the result of the fuzzy match when there
    is one and otherwise finds no handler.  The fuzzy match lower-cases
    the raw identifier and each canonical identifier before comparing
    them: the similarity is [(maxLen - d) / maxLen] with [d] the
    Levenshtein distance of the lower-cased texts; the candidates are
    the canonical identifiers that start with the lower-cased category
    prefix, or all of them when there is none; a highest-scoring
    candidate is returned when its score is at least 0.6, otherwise the
    first same-category identifier when there is one, otherwise
    nothing. *)
Theorem fuzzy_match_on_lowercased_identifiers (raw : string) :
  fuzzy_spec Js.toLowerCase raw (_findSimilarAction raw) /\
  (forall x y, is_distance (list_ascii_of_string x) (list_ascii_of_string y)
                 (_levenshteinDistance x y)) /\
  (forall s t, is_distance s t (lev s t)) /\
  (get actionMappings raw = Missing ->
   own actionAliases (Js.toLowerCase raw) = None ->
   match _findSimilarAction raw with
   | Some c => exists handler, resolve raw = Resolved c handler fuzzy
   | None => resolve raw = DynamicExtension
   end).
Proof.
  split; [apply findSimilarAction_fuzzy_spec|].
  split; [exact levenshteinDistance_is_distance|].
  split; [exact lev_is_distance|].
  intros Hexact Halias. unfold resolve. rewrite Hexact.
  assert (Hmiss : match get actionAliases (Js.toLowerCase raw) with
                  | Own _ => False
                  | _ => True
                  end).
  { unfold get. rewrite Halias. destruct (existsb _ _); exact I. }
  destruct (get actionAliases (Js.toLowerCase raw)) as [v| |]; [destruct Hmiss| |].
  - destruct (_findSimilarAction raw) as [c|] eqn:Hc; [|reflexivity].
    destruct (validActions_own c (findSimilarAction_valid raw c Hc)) as [h ->].
    exists h. reflexivity.
  - destruct (_findSimilarAction raw) as [c|] eqn:Hc; [|reflexivity].
    destruct (validActions_own c (findSimilarAction_valid raw c Hc)) as [h ->].
    exists h. reflexivity.
Qed.

End ResolverFacts.

(** The spec's own example of a misspelt category: no canonical
    identifier starts with [memeber.], so the whole table is compared,
    and [member.timeout], two edits away, is returned. *)
Lemma fuzzy_match_on_lowercased_identifiers_witness :
  DynamicHandler.resolve "memeber.timeot"
  = DynamicHandler.Resolved "member.timeout" "_timeoutMember" DynamicHandler.fuzzy.
Proof.
  pose proof (proj2 (proj2 (proj2 (fuzzy_match_on_lowercased_identifiers "memeber.timeot")))
                eq_refl eq_refl) as H.
  vm_compute in H. destruct H as [h H]. vm_compute. reflexivity.
Defined.

(** ** DynamicHandler: the alias table *)

(** C4, at the one entry the lookup cannot reach.  The key
    [member.modifyNickname] has a capital letter, and the alias table is
    indexed with the lower-cased identifier, which is not a key: the
    alias path is skipped and the identifier is resolved by the fuzzy
    match (similarity 15/21 to [member.setNickname]).  Every other entry
    of the table is resolved to its target by the alias path. *)
Theorem alias_modifyNickname_resolved_by_fuzzy_match :
  In ("member.modifyNickname", "member.setNickname") DynamicHandler.actionAliases /\
  DynamicHandler.own DynamicHandler.actionAliases (Js.toLowerCase "member.modifyNickname") = None /\
  DynamicHandler.executeAction "change my nickname please" (Some "member.modifyNickname")
    = DynamicHandler.Resolved "member.setNickname" "_setMemberNickname" DynamicHandler.fuzzy /\
  DynamicHandler._calculateSimilarity "member.modifynickname" "member.setnickname" = (15 # 21)%Q /\
  Forall (fun '(k, v) =>
            k = "member.modifyNickname" \/
            exists handler,
              DynamicHandler.executeAction "change my nickname please" (Some k)
              = DynamicHandler.Resolved v handler DynamicHandler.alias)
    DynamicHandler.actionAliases.
Proof.
  split; [vm_compute; tauto|]. split; [reflexivity|]. split; [reflexivity|].
  split; [reflexivity|].
  repeat (apply List.Forall_cons;
          [first [left; reflexivity | right; eexists; vm_compute; reflexivity]|]).
  apply List.Forall_nil.
Qed.

(** ** WorkflowEngine: strategies, the registry and the status query *)

Section WorkflowMore.
Import WorkflowEngine.
Variable executor : string -> Step -> completion string ExecResult.

Lemma loop_frame_refl res w σ : loop_frame res w σ σ.
Proof.
  repeat split; auto. intros wf H. exists wf. repeat split; auto.
Qed.

Lemma loop_frame_trans res w σ1 σ2 σ3 :
  loop_frame res w σ1 σ2 -> loop_frame res w σ2 σ3 -> loop_frame res w σ1 σ3.
Proof.
  intros (Hn & Ha & Ho & Hw) (Hn' & Ha' & Ho' & Hw').
  split; [congruence|]. split; [intros l Hl; rewrite Ha', Ha; auto|].
  split; [intros w' Hw1; rewrite Ho', Ho; auto|].
  intros wf Hwf. destruct (Hw wf Hwf) as (wf1 & H1 & Hs & Hp & Hi & Ht & He & Hr & Hres).
  destruct (Hw' wf1 H1) as (wf2 & H2 & Hs' & Hp' & Hi' & Ht' & He' & Hr' & Hres').
  exists wf2. split; [exact H2|]. repeat split; try congruence.
  destruct Hres' as [Hres'|Hres']; [|right; exact Hres'].
  destruct Hres as [Hres|Hres]; [left|right]; congruence.
Qed.

Lemma loop_frame_push res w σ x : loop_frame res w σ (push σ res x).
Proof.
  unfold push. split; [reflexivity|]. split.
  - intros l Hl. simpl. apply lookup_alter_ne. congruence.
  - split; [reflexivity|]. intros wf H. exists wf. simpl. repeat split; auto.
Qed.

Lemma loop_frame_try step i res w σ :
  loop_frame res w σ (fst (sequential_try executor step i res w σ)).
Proof.
  unfold sequential_try.
  destruct (_executeStep executor step) as [r|e]; [|apply loop_frame_refl].
  set (σ1 := push σ res _).
  assert (H1 : loop_frame res w σ σ1) by apply loop_frame_push.
  assert (H2 : loop_frame res w σ1
                 match activeWorkflows σ1 !! w with
                 | Some wf =>
                     set_record σ1 w
                       (mkRecord (wf_id wf) (wf_plan wf) (startTime wf) (status wf)
                          res (Some (i + 1)) (endTime wf) (wf_error wf))
                 | None => σ1
                 end).
  { destruct (activeWorkflows σ1 !! w) as [wf|] eqn:Hwf; [|apply loop_frame_refl].
    unfold set_record. split; [reflexivity|]. split; [reflexivity|]. split.
    - intros w' Hw'. simpl. apply lookup_insert_ne. congruence.
    - intros wf0 H0. rewrite Hwf in H0. inversion H0; subst wf0.
      eexists. simpl. split; [apply lookup_insert_eq|]. simpl.
      repeat split; auto. }
  destruct (negb (success r) && critical step); simpl;
    eapply loop_frame_trans; eauto.
Qed.

Lemma loop_frame_loop todo : forall i res w σ,
  loop_frame res w σ (fst (sequential_loop executor todo i res w σ)).
Proof.
  induction todo as [|step rest IH]; intros i res w σ; [apply loop_frame_refl|].
  cbn [sequential_loop].
  pose proof (loop_frame_try step i res w σ) as Htry.
  destruct (sequential_try executor step i res w σ) as [σ1 [v|e]]; simpl in Htry.
  - eapply loop_frame_trans; [exact Htry|apply IH].
  - assert (H2 : loop_frame res w σ (push σ1 res (Failure (step_id step) e)))
      by (eapply loop_frame_trans; [exact Htry|apply loop_frame_push]).
    destruct (critical step); [exact H2|].
    eapply loop_frame_trans; [exact H2|apply IH].
Qed.

(** Steps that are not failing critical steps: the loop runs to its end
    and appends, for each step, the entry the parallel strategy would
    produce for it. *)
Lemma sequential_loop_no_abort todo : forall i res w σ l,
  arrays σ !! res = Some l ->
  Forall (fun s => critical s && step_fails executor s = false) todo ->
  exists σ',
    sequential_loop executor todo i res w σ = (σ', Normal tt) /\
    arrays σ' !! res = Some (l ++ map (parallel_entry executor) todo).
Proof.
  induction todo as [|s todo IH]; intros i res w σ l Hl Hok.
  - exists σ. simpl. rewrite app_nil_r. auto.
  - apply Forall_cons in Hok as [Hs Hok].
    cbn [sequential_loop map]. unfold step_fails in Hs. unfold parallel_entry at 1.
    destruct (_executeStep executor s) as [r|e] eqn:Hex.
    + destruct (sequential_try_normal executor s i res w σ l r Hl Hex) as (σ1 & Htry & Hl1).
      rewrite Htry. rewrite andb_comm in Hs. rewrite Hs.
      destruct (IH (S i) res w σ1 _ Hl1 Hok) as (σ' & Hloop & Hl').
      exists σ'. split; [exact Hloop|]. rewrite Hl'. f_equal.
      rewrite <- app_assoc. reflexivity.
    + unfold sequential_try. rewrite Hex.
      rewrite andb_true_r in Hs. rewrite Hs.
      pose proof (push_lookup σ res (Failure (step_id s) e) l Hl) as Hl1.
      destruct (IH (S i) res w _ _ Hl1 Hok) as (σ' & Hloop & Hl').
      exists σ'. split; [exact Hloop|]. rewrite Hl'. f_equal.
      rewrite <- app_assoc. reflexivity.
Qed.

(** The state in which [executeWorkflow] starts the strategy: a fresh
    empty array and a fresh record in state [running]. *)
Lemma executeWorkflow_unfold (p : Plan) todo e σ :
  steps p = StepsArray todo ->
  let w := (now_id e, random1000 e) in
  let σ1 := set_record (fst (new_array σ)) w
              (mkRecord w p (now_start e) running (next_loc σ) None None None) in
  executeWorkflow executor (Some p) e σ =
    let '(σ2, c) :=
      if String.eqb (strategy_of p) "sequential" then _executeSequential executor todo w σ1
      else if String.eqb (strategy_of p) "parallel" then _executeParallel executor todo w σ1
      else (σ1, Abrupt ("Unknown execution strategy: " +:+ strategy_of p)) in
    let '(σ3, c') :=
      match c with
      | Normal res =>
          match activeWorkflows σ2 !! w with
          | Some wf =>
              (set_record σ2 w
                 (mkRecord (wf_id wf) (wf_plan wf) (startTime wf) completed res
                    (currentStep wf) (Some (now_end e)) (wf_error wf)),
               Normal res)
          | None => (σ2, Abrupt "Cannot set properties of undefined (setting 'status')")
          end
      | Abrupt err => (σ2, Abrupt err)
      end in
    match c' with
    | Normal res => (σ3, Succeeded w res)
    | Abrupt err =>
        (match activeWorkflows σ3 !! w with
         | Some wf =>
             set_record σ3 w
               (mkRecord (wf_id wf) (wf_plan wf) (startTime wf) failed (results wf)
                  (currentStep wf) (Some (now_end e)) (Some err))
         | None => σ3
         end, Failed w err)
    end.
Proof. intros Hs. unfold executeWorkflow. rewrite Hs. reflexivity. Qed.

(** Whatever the strategy does, it leaves the record of the workflow in
    place with its identity, plan, state and times, leaves every other
    record alone, and does not touch the arrays that existed before. *)
Lemma strategy_run_frame (p : Plan) todo w σ1 wf1 :
  activeWorkflows σ1 !! w = Some wf1 ->
  let run :=
    if String.eqb (strategy_of p) "sequential" then _executeSequential executor todo w σ1
    else if String.eqb (strategy_of p) "parallel" then _executeParallel executor todo w σ1
    else (σ1, Abrupt ("Unknown execution strategy: " +:+ strategy_of p)) in
  (exists wf2, activeWorkflows (fst run) !! w = Some wf2 /\
     status wf2 = status wf1 /\ wf_plan wf2 = wf_plan wf1 /\
     wf_id wf2 = wf_id wf1 /\ startTime wf2 = startTime wf1 /\
     endTime wf2 = endTime wf1 /\ wf_error wf2 = wf_error wf1) /\
  (forall w', w' <> w -> activeWorkflows (fst run) !! w' = activeWorkflows σ1 !! w') /\
  (forall l, l < next_loc σ1 -> arrays (fst run) !! l = arrays σ1 !! l) /\
  next_loc σ1 <= next_loc (fst run).
Proof.
  intros Hwf run. subst run.
  destruct (String.eqb (strategy_of p) "sequential").
  - unfold _executeSequential, new_array.
    set (σ0 := mkEngine _ _ _).
    pose proof (loop_frame_loop todo 0 (next_loc σ1) w σ0) as (Hn & Ha & Ho & Hw).
    destruct (sequential_loop executor todo 0 (next_loc σ1) w σ0) as [σ2 [v|err]];
      simpl in *.
    + destruct (Hw wf1 Hwf) as (wf2 & H2 & ? & ? & ? & ? & ? & ? & _).
      split; [exists wf2; auto 10|]. split; [exact Ho|].
      split; [|lia]. intros l Hl. rewrite Ha by lia. apply lookup_insert_ne. lia.
    + destruct (Hw wf1 Hwf) as (wf2 & H2 & ? & ? & ? & ? & ? & ? & _).
      split; [exists wf2; auto 10|]. split; [exact Ho|].
      split; [|lia]. intros l Hl. rewrite Ha by lia. apply lookup_insert_ne. lia.
  - destruct (String.eqb (strategy_of p) "parallel").
    + unfold _executeParallel, new_array. simpl.
      split; [exists wf1; auto 10|]. split; [auto|]. split; [|lia].
      intros l Hl. rewrite !lookup_insert_ne by lia. reflexivity.
    + simpl. split; [exists wf1; auto 10|]. auto.
Qed.

(** X1.  Every call of [executeWorkflow] on a plan with a [steps] array
    leaves a record under the id it returns, and the record is never
    left [running]: it is [completed] exactly when the call reports
    success and [failed], with the error it reports, otherwise.  The
    status query finds the record, with the number of steps of the
    plan.  The records of other workflows and the result arrays that
    existed before the call are as they were. *)
Theorem executeWorkflow_settles_record (p : Plan) todo e σ :
  steps p = StepsArray todo ->
  let w := (now_id e, random1000 e) in
  let σ' := fst (executeWorkflow executor (Some p) e σ) in
  let ret := snd (executeWorkflow executor (Some p) e σ) in
  (exists wf, activeWorkflows σ' !! w = Some wf /\ wf_plan wf = p /\
     getWorkflowStatus σ' w =
       Some (mkSummary w (status wf) (now_start e) (Some (now_end e))
               (currentStep wf) (Some (List.length todo))) /\
     ((exists res, ret = Succeeded w res /\ status wf = completed /\
                   results wf = res /\ wf_error wf = None) \/
      (exists err, ret = Failed w err /\ status wf = failed /\
                   wf_error wf = Some err))) /\
  (forall w', w' <> w -> activeWorkflows σ' !! w' = activeWorkflows σ !! w') /\
  (forall l, l < next_loc σ -> arrays σ' !! l = arrays σ !! l).
Proof.
  intros Hs w σ' ret. subst σ' ret.
  rewrite (executeWorkflow_unfold p todo e σ Hs). cbv zeta. subst w.
  set (w := (now_id e, random1000 e)).
  set (σ1 := set_record (fst (new_array σ)) w _).
  assert (Hwf1 : activeWorkflows σ1 !! w
                 = Some (mkRecord w p (now_start e) running (next_loc σ) None None None))
    by apply lookup_insert_eq.
  pose proof (strategy_run_frame p todo w σ1 _ Hwf1) as Hrun. cbv zeta in Hrun.
  destruct (if String.eqb (strategy_of p) "sequential"
            then _executeSequential executor todo w σ1
            else if String.eqb (strategy_of p) "parallel"
                 then _executeParallel executor todo w σ1
                 else (σ1, Abrupt ("Unknown execution strategy: " +:+ strategy_of p)))
    as [σ2 c].
  simpl in Hrun. destruct Hrun as ((wf2 & H2 & Hst & Hp & Hi & Ht & He & Hr) & Ho & Ha & Hn).
  simpl in Hst, Hp, Hi, Ht, He, Hr.
  assert (Hold : forall w', w' <> w -> activeWorkflows σ1 !! w' = activeWorkflows σ !! w').
  { intros w' Hw'. unfold σ1, set_record, new_array. simpl.
    apply lookup_insert_ne. congruence. }
  assert (Harr : forall l, l < next_loc σ -> arrays σ1 !! l = arrays σ !! l).
  { intros l Hl. unfold σ1, set_record, new_array. simpl.
    apply lookup_insert_ne. lia. }
  assert (Hn1 : next_loc σ1 = S (next_loc σ)) by reflexivity.
  unfold wfid in *.
  destruct c as [res|err].
  - rewrite H2. cbn [fst snd].
    split; [|split].
    + eexists. split; [apply lookup_insert_eq|]. cbn.
      split; [exact Hp|]. split.
      * unfold getWorkflowStatus. cbn. rewrite lookup_insert_eq. cbn.
        rewrite Hi, Ht, Hp, Hs. reflexivity.
      * left. exists res. rewrite Hr. auto.
    + intros w' Hw'. cbn. rewrite lookup_insert_ne by congruence.
      rewrite Ho by exact Hw'. apply Hold, Hw'.
    + intros l Hl. cbn. rewrite Ha by lia. apply Harr, Hl.
  - rewrite H2. cbn [fst snd].
    split; [|split].
    + eexists. split; [apply lookup_insert_eq|]. cbn.
      split; [exact Hp|]. split.
      * unfold getWorkflowStatus. cbn. rewrite lookup_insert_eq. cbn.
        rewrite Hi, Ht, Hp, Hs. reflexivity.
      * right. exists err. auto.
    + intros w' Hw'. cbn. rewrite lookup_insert_ne by congruence.
      rewrite Ho by exact Hw'. apply Hold, Hw'.
    + intros l Hl. cbn. rewrite Ha by lia. apply Harr, Hl.
Qed.

(** X2.  A strategy other than [sequential] and [parallel] is refused before
    any step runs: the call fails with the message that names the
    strategy, the record ends [failed] with no result and no current
    step, and nothing of this depends on the action executor. *)
Theorem unknown_strategy_rejected (p : Plan) todo strategy e σ :
  steps p = StepsArray todo ->
  meta_strategy p = Some strategy ->
  strategy <> EmptyString -> strategy <> "sequential" -> strategy <> "parallel" ->
  let w := (now_id e, random1000 e) in
  let σ' := fst (executeWorkflow executor (Some p) e σ) in
  snd (executeWorkflow executor (Some p) e σ)
    = Failed w ("Unknown execution strategy: " +:+ strategy) /\
  getWorkflowStatus σ' w =
    Some (mkSummary w failed (now_start e) (Some (now_end e)) None
            (Some (List.length todo))) /\
  record_results σ' w = Some [] /\
  forall executor', executeWorkflow executor' (Some p) e σ
                    = executeWorkflow executor (Some p) e σ.
Proof.
  intros Hs Hm Hne Hseq Hpar w σ'. subst σ'.
  assert (Hstr : strategy_of p = strategy).
  { unfold strategy_of. rewrite Hm.
    destruct (String.eqb_spec strategy EmptyString); [contradiction|reflexivity]. }
  assert (Hrun : forall ex, executeWorkflow ex (Some p) e σ =
            (set_record
               (set_record (fst (new_array σ)) w
                  (mkRecord w p (now_start e) running (next_loc σ) None None None)) w
               (mkRecord w p (now_start e) failed (next_loc σ) None (Some (now_end e))
                  (Some ("Unknown execution strategy: " +:+ strategy))),
             Failed w ("Unknown execution strategy: " +:+ strategy))).
  { intros ex. unfold executeWorkflow. rewrite Hs. cbv zeta. rewrite Hstr.
    destruct (String.eqb_spec strategy "sequential"); [contradiction|].
    destruct (String.eqb_spec strategy "parallel"); [contradiction|].
    unfold new_array. cbn. rewrite lookup_insert_eq. reflexivity. }
  rewrite (Hrun executor). cbn [fst snd].
  split; [reflexivity|]. split.
  - unfold getWorkflowStatus. cbn. rewrite lookup_insert_eq. cbn. rewrite Hs. reflexivity.
  - split.
    + unfold record_results, read_array. cbn. rewrite lookup_insert_eq. cbn.
      rewrite lookup_insert_eq. reflexivity.
    + intros ex. rewrite (Hrun ex). reflexivity.
Qed.


End WorkflowMore.

(** ** EventBus: the order of dispatch *)

Section DispatchOrder.
Import EventBus.
Context {D : Type}.
Implicit Types (ls : list (listener D)) (bus : listeners D).

(** Whether a listener's handler throws on a payload. *)
Local Abbreviation throws data :=
  (fun l : listener D => match callback l data with
                         | Abrupt _ => true
                         | Normal _ => false
                         end).

Lemma dispatch_prefix ls data : forall h0,
  exists rest,
    ls = snd (fst (dispatch ls data h0)) ++ rest /\
    (rest <> [] ->
     exists l, last (snd (fst (dispatch ls data h0))) = Some l /\
               exclusive l = true /\ callback l data = Normal (VBool true)) /\
    snd (dispatch ls data h0)
      = List.length (List.filter (throws data) (snd (fst (dispatch ls data h0)))).
Proof.
  induction ls as [|l0 ls IH]; intros h0.
  - exists []. simpl. repeat split. intros H. congruence.
  - cbn [dispatch].
    destruct (callback l0 data) as [v|e] eqn:Hcb.
    + destruct (strict_true v) eqn:Hv.
      * assert (v = VBool true) as ->
          by (destruct v as [| |[]| | |]; simpl in Hv; congruence).
        destruct (exclusive l0) eqn:Hex.
        -- exists ls. simpl. rewrite Hcb. repeat split. intros _. exists l0. auto.
        -- destruct (IH true) as (rest & Heq & Hlast & Herr).
           destruct (dispatch ls data true) as [[h inv] errs]. simpl in *.
           exists rest. rewrite Hcb. split; [congruence|]. split; [|exact Herr].
           intros Hr. destruct (Hlast Hr) as (l & Hl & Hx).
           exists l. split; [|exact Hx].
           destruct inv as [|x inv]; [discriminate Hl|exact Hl].
      * destruct (IH h0) as (rest & Heq & Hlast & Herr).
        destruct (dispatch ls data h0) as [[h inv] errs]. simpl in *.
        exists rest. rewrite Hcb. split; [congruence|]. split; [|exact Herr].
        intros Hr. destruct (Hlast Hr) as (l & Hl & Hx).
        exists l. split; [|exact Hx].
        destruct inv as [|x inv]; [discriminate Hl|exact Hl].
    + destruct (IH h0) as (rest & Heq & Hlast & Herr).
      destruct (dispatch ls data h0) as [[h inv] errs]. simpl in *.
      exists rest. rewrite Hcb. simpl. split; [congruence|]. split; [|congruence].
      intros Hr. destruct (Hlast Hr) as (l & Hl & Hx).
      exists l. split; [|exact Hx].
      destruct inv as [|x inv]; [discriminate Hl|exact Hl].
Qed.

(** On an array that nothing modifies while the loop runs, [emit]
    calls the listeners of the topic in array order, without skipping
    any, and stops early only behind an exclusive listener whose
    handler returned [true]. *)
Lemma emit_unmodified_calls_in_order bus event data ls :
  bus !! event = Some ls ->
  (exists rest,
     ls = invoked bus event data ++ rest /\
     (rest <> [] ->
      exists l, last (invoked bus event data) = Some l /\
                exclusive l = true /\ callback l data = Normal (VBool true))) /\
  snd (emit_run bus event data)
    = List.length (List.filter (throws data) (invoked bus event data)) /\
  ((forall l, l ∈ ls -> exclusive l = true ->
      callback l data <> Normal (VBool true)) ->
   invoked bus event data = ls).
Proof.
  intros Hb. unfold invoked, emit_run. rewrite Hb.
  destruct ls as [|l0 ls'].
  { simpl. split; [exists []; split; [reflexivity|congruence]|]. split; auto. }
  change (Nat.eqb (List.length (l0 :: ls')) 0) with false. cbv iota.
  destruct (dispatch_prefix (l0 :: ls') data false) as (rest & Heq & Hlast & Herr).
  split; [exists rest; split; assumption|]. split; [exact Herr|].
  intros Hnone. destruct rest as [|r rest].
  - rewrite app_nil_r in Heq. congruence.
  - destruct Hlast as (l & Hl & Hx & Hc); [discriminate|].
    exfalso. apply (Hnone l); auto.
    rewrite Heq. apply elem_of_app. left.
    apply last_Some in Hl as [l' ->]. apply elem_of_app. right. left.
Qed.

(** With callbacks that answer every call the same, the calls that
    threw are those of the handlers that throw. *)
Lemma thrown_steady (answer : nat -> listener D -> D -> completion string jsval)
    data (calls : list (listener D)) :
  steady answer data ->
  forall k, thrown answer calls k data = List.length (List.filter (throws data) calls).
Proof.
  intros Hst. induction calls as [|l calls IH]; intros k; [reflexivity|].
  cbn [thrown List.filter]. rewrite Hst, IH.
  destruct (callback l data); reflexivity.
Qed.

(** X5.  [emit] walks the array of the topic by index: its call number
    [j] is that of the listener standing at index [j] of the array as
    the calls before it left it.  It stops behind an exclusive listener
    whose call returned [true], or when the index is past the end of
    the array; a call that throws stops nothing, and one error is
    logged per call that threw.  When nothing modifies the array during
    the call and the handlers answer every call the same, the listeners
    are called in array order without skipping any, and all of them
    when no exclusive listener returns [true].  (A handler that removes
    a listener standing at or before its own index makes the loop skip
    the next one.) *)
Theorem emit_calls_listeners_in_order
    (during : nat -> listener D -> list (listener D) -> list (listener D))
    (answer : nat -> listener D -> D -> completion string jsval)
    bound bus event data ls :
  bounded during bound ->
  bus !! event = Some ls ->
  List.length ls <= bound ->
  exists handled inv errs,
    (forall fuel, bound < fuel ->
       live_emit_run during answer fuel bus event data = Some (handled, inv, errs)) /\
    (forall j l, inv !! j = Some l ->
       live_array during ls (take j inv) 0 !! j = Some l) /\
    ((exists l, last inv = Some l /\ exclusive l = true /\
                answer (List.length inv - 1) l data = Normal (VBool true)) \/
     live_array during ls inv 0 !! List.length inv = None) /\
    errs = thrown answer inv 0 data /\
    (unmodified during -> steady answer data ->
     (exists rest,
        ls = inv ++ rest /\
        (rest <> [] ->
         exists l, last inv = Some l /\
                   exclusive l = true /\ callback l data = Normal (VBool true))) /\
     errs = List.length (List.filter (throws data) inv) /\
     ((forall l, l ∈ ls -> exclusive l = true ->
         callback l data <> Normal (VBool true)) ->
      inv = ls)).
Proof.
  intros Hb Hbus Hlen.
  destruct (live_emit_run_total during answer bound bus event data Hb)
    as (h & inv & errs & Hrun & Hall).
  { intros ls' Hls'. rewrite Hbus in Hls'. injection Hls' as <-. exact Hlen. }
  exists h, inv, errs. split; [exact Hall|].
  assert (Hlive : (forall j l, inv !! j = Some l ->
                     live_array during ls (take j inv) 0 !! j = Some l) /\
                  ((exists l, last inv = Some l /\ exclusive l = true /\
                              answer (List.length inv - 1) l data
                                = Normal (VBool true)) \/
                   live_array during ls inv 0 !! List.length inv = None) /\
                  errs = thrown answer inv 0 data).
  { pose proof Hrun as Hr. unfold live_emit_run in Hr. rewrite Hbus in Hr.
    destruct ls as [|l0 ls'].
    - cbn in Hr. injection Hr as <- <- <-.
      split; [intros j l Hj; inversion Hj|]. split; [right|]; reflexivity.
    - change (Nat.eqb (List.length (l0 :: ls')) 0) with false in Hr. cbv iota in Hr.
      apply live_dispatch_calls in Hr. exact Hr. }
  destruct Hlive as (Hcalls & Hstop & Herrs).
  split; [exact Hcalls|]. split; [exact Hstop|]. split; [exact Herrs|].
  intros Hid Hst.
  assert (Hpure : Some (h, inv, errs) = Some (emit_run bus event data)).
  { rewrite <- Hrun. apply live_emit_run_unmodified; [exact Hid|exact Hst|].
    intros ls' Hls'. rewrite Hbus in Hls'. injection Hls' as <-. lia. }
  injection Hpure as Hpure.
  assert (inv = invoked bus event data) as Hinv
    by (unfold invoked; rewrite <- Hpure; reflexivity).
  destruct (emit_unmodified_calls_in_order bus event data ls Hbus) as (H1 & _ & H3).
  rewrite <- Hinv in H1, H3.
  split; [exact H1|]. split; [|exact H3].
  rewrite Herrs. apply thrown_steady, Hst.
Qed.

End DispatchOrder.

(** ** LLMService: every outcome of [generateResponse] *)

Section GenerateOutcome.
Import LLMService.
Variable other_command : route -> string -> string.

Lemma succeeds_content r :
  succeeds r = true -> exists c, r = Content (Some c) /\ c <> EmptyString.
Proof.
  destruct r as [m|st b|m|[c|]]; simpl; try discriminate.
  intros H. exists c. split; [reflexivity|]. intros ->. discriminate H.
Qed.

Lemma attempt_content svc c :
  c <> EmptyString ->
  attempt svc (Content (Some c))
    = Normal (if fixJsonInResponse svc then _fixJsonFormat c else c).
Proof.
  intros Hc. simpl. destruct (String.eqb_spec c EmptyString); [contradiction|reflexivity].
Qed.

Lemma retry_loop_outcome fuel : forall backend svc a lastError,
  retryAttempts svc - a <= fuel ->
  (exists k c,
     a <= k < retryAttempts svc /\
     (forall j, a <= j < k -> succeeds (backend j) = false) /\
     backend k = Content (Some c) /\ c <> EmptyString /\
     snd (retry_loop fuel backend svc a lastError)
       = inl (if fixJsonInResponse svc then _fixJsonFormat c else c) /\
     fetches (snd (fst (retry_loop fuel backend svc a lastError))) = k + 1 - a) \/
  ((forall j, a <= j < retryAttempts svc -> succeeds (backend j) = false) /\
   (exists e, snd (retry_loop fuel backend svc a lastError) = inr e) /\
   fetches (snd (fst (retry_loop fuel backend svc a lastError)))
     = retryAttempts svc - a).
Proof.
  induction fuel as [|fuel IH]; intros backend svc a lastError Hfuel.
  - right. simpl. split; [intros j Hj; lia|]. split; [eauto|lia].
  - cbn [retry_loop]. destruct (Nat.ltb_spec a (retryAttempts svc)) as [Hlt|Hge].
    2:{ right. simpl. split; [intros j Hj; lia|]. split; [eauto|lia]. }
    destruct (succeeds (backend a)) eqn:Hs.
    + destruct (succeeds_content _ Hs) as (c & Hb & Hc).
      rewrite Hb, (attempt_content svc c Hc). left. exists a, c. simpl.
      repeat split; auto; try lia.
    + destruct (attempt_fails svc _ Hs) as [e ->].
      destruct (Nat.ltb_spec (a + 1) (retryAttempts svc)) as [Hlt'|Hge'].
      * specialize (IH backend (set_retryDelay svc (retryDelay svc * 2)) (a + 1) (Some e)).
        destruct (retry_loop fuel backend (set_retryDelay svc (retryDelay svc * 2))
                    (a + 1) (Some e)) as [[svc'' effs] out].
        cbn [fst snd fetches set_retryDelay retryAttempts fixJsonInResponse] in *.
        destruct IH as [(k & c & Hk & Hbefore & Hb & Hc & Hout & Hf)|(Hall & Hout & Hf)];
          [lia| |].
        -- left. exists k, c. repeat split; auto; try lia.
           intros j Hj. destruct (Nat.eq_dec j a) as [->|]; [exact Hs|apply Hbefore; lia].
        -- right. split; [|split; [exact Hout|lia]].
           intros j Hj. destruct (Nat.eq_dec j a) as [->|]; [exact Hs|apply Hall; lia].
      * specialize (IH backend svc (a + 1) (Some e)).
        destruct (retry_loop fuel backend svc (a + 1) (Some e)) as [[svc'' effs] out].
        cbn [fst snd fetches] in *.
        destruct IH as [(k & c & Hk & _)|(Hall & Hout & Hf)]; [lia|lia|].
        right. split; [|split; [exact Hout|lia]].
        intros j Hj. assert (j = a) as -> by lia. exact Hs.
Qed.

(** X9.  Whatever the backend answers and however the service is set up, a
    call of [generateResponse] ends in one of two ways.  Either one of
    the permitted attempts got a non-empty content: then the call
    returns the content of the first such attempt (repaired when
    [fixJsonInResponse] is set), after exactly that many backend calls.
    Or no permitted attempt did: then the call throws the reference
    error of the statements after the loop.  The fallback synthesizer
    and the final [throw] are reached in neither case. *)
Theorem generateResponse_outcome backend svc sys user :
  let run := generateResponse other_command backend svc sys user in
  (exists k c,
     k < retryAttempts svc /\
     (forall j, j < k -> succeeds (backend j) = false) /\
     backend k = Content (Some c) /\ c <> EmptyString /\
     snd run = Normal (if fixJsonInResponse svc then _fixJsonFormat c else c) /\
     fetches (snd (fst run)) = k + 1) \/
  ((forall j, j < retryAttempts svc -> succeeds (backend j) = false) /\
   snd run = Abrupt (ReferenceError "response is not defined") /\
   fetches (snd (fst run)) = retryAttempts svc).
Proof.
  intros run. subst run. unfold generateResponse.
  destruct (retry_loop_outcome (retryAttempts svc) backend svc 0 None)
    as [(k & c & Hk & Hbefore & Hb & Hc & Hout & Hf)|(Hall & [e Hout] & Hf)]; [lia| |].
  - left. exists k, c.
    destruct (retry_loop (retryAttempts svc) backend svc 0 None) as [[svc' effs] out].
    cbn [fst snd] in *. subst out.
    repeat split; auto; try lia. intros j Hj; apply Hbefore; lia.
  - right.
    destruct (retry_loop (retryAttempts svc) backend svc 0 None) as [[svc' effs] out].
    cbn [fst snd] in *. subst out.
    split; [intros j Hj; apply Hall; lia|]. split; [reflexivity|lia].
Qed.

End GenerateOutcome.

(** ** LLMService: the branches of the fallback synthesizer *)

Section RoutingFacts.
Import LLMService.

Lemma prefix_nil_l s : String.prefix EmptyString s = true.
Proof. destruct s; reflexivity. Qed.

Lemma includes_prefix needle s :
  String.prefix needle s = true -> Js.includes needle s = true.
Proof.
  destruct s as [|c r]; [auto|]. intros H.
  change (String.prefix needle (String c r) || Js.includes needle r = true).
  rewrite H. reflexivity.
Qed.

Lemma includes_cons needle c s :
  Js.includes needle s = true -> Js.includes needle (String c s) = true.
Proof.
  intros H. change (String.prefix needle (String c s) || Js.includes needle s = true).
  rewrite H. apply orb_true_r.
Qed.

(** A needle is found wherever a word that contains it is found. *)
Lemma includes_weaken n1 n2 :
  (forall s, String.prefix n1 s = true -> Js.includes n2 s = true) ->
  forall s, Js.includes n1 s = true -> Js.includes n2 s = true.
Proof.
  intros Hp s. induction s as [|c r IH]; intros H.
  - apply Hp. exact H.
  - change (String.prefix n1 (String c r) || Js.includes n1 r = true) in H.
    apply orb_true_iff in H as [H|H]; [apply Hp; exact H|].
    apply includes_cons, IH, H.
Qed.

Lemma prefix_cons_inv a n s :
  String.prefix (String a n) s = true ->
  exists r, s = String a r /\ String.prefix n r = true.
Proof.
  destruct s as [|b r]; simpl; [discriminate|].
  destruct (ascii_dec a b) as [->|]; [eauto|discriminate].
Qed.

Lemma prefix_trans a : forall b s,
  String.prefix a b = true -> String.prefix b s = true -> String.prefix a s = true.
Proof.
  induction a as [|x a IH]; intros b s Hab Hbs; [apply prefix_nil_l|].
  apply prefix_cons_inv in Hab as (b' & -> & Hab).
  apply prefix_cons_inv in Hbs as (s' & -> & Hbs).
  simpl. destruct (ascii_dec x x) as [_|Hne]; [|contradiction].
  eapply IH; eassumption.
Qed.

(** A needle found in a word is found wherever the word is found. *)
Lemma includes_trans needle word : forall s,
  Js.includes needle word = true -> Js.includes word s = true ->
  Js.includes needle s = true.
Proof.
  intros s Hw. revert s. apply includes_weaken.
  induction word as [|c word IH]; intros s Hp.
  - simpl in Hw. destruct needle; [|discriminate Hw].
    apply includes_prefix, prefix_nil_l.
  - change (String.prefix needle (String c word) || Js.includes needle word = true) in Hw.
    apply orb_true_iff in Hw as [Hw|Hw].
    + apply includes_prefix. eapply prefix_trans; eassumption.
    + apply prefix_cons_inv in Hp as (s' & -> & Hp).
      apply includes_cons, IH; assumption.
Qed.

(** X10.  A prompt that contains a word with the letters a, t in a row is
    taken by one of the five branches up to the kick command, which
    answers to those two letters.  The word repeat, the first keyword
    of the repeat command, is such a word, and so is the word create,
    which the channel command looks for: a prompt with either of them
    reaches neither the repeat command nor the channel command, nor
    any branch after the kick command. *)
Theorem prompt_with_at_routed_to_kick_or_earlier (word userPrompt : string) :
  Js.includes "at" word = true ->
  Js.includes word (Js.toLowerCase userPrompt) = true ->
  In (route_of userPrompt)
     [WriteCommand; TimeoutCommand; PurgeCommand; BanCommand; KickCommand] /\
  ~ In (route_of userPrompt)
       [RoleCommand; ChannelCommand; NicknameCommand; RepeatCommand; DefaultResponse] /\
  Js.includes "at" "repeat" = true /\ Js.includes "at" "create" = true.
Proof.
  intros Hw H. pose proof (includes_trans _ _ _ Hw H) as Hat. clear Hw H.
  assert (Hin : In (route_of userPrompt)
     [WriteCommand; TimeoutCommand; PurgeCommand; BanCommand; KickCommand]).
  { unfold route_of. cbv zeta. rewrite Hat.
    set (has := fun w => Js.includes w (Js.toLowerCase userPrompt)).
    change (Js.includes ?w (Js.toLowerCase userPrompt)) with (has w).
    destruct (has "write"); [simpl; auto|].
    destruct (has "send"); [simpl; auto|].
    destruct (has "yaz"); [simpl; auto|].
    destruct (has "timeout"); [simpl; auto|].
    destruct (has "mute"); [simpl; auto|].
    destruct (has "sustur"); [simpl; auto|].
    destruct (has "purge"); [simpl; auto|].
    destruct (has "clear"); [simpl; auto|].
    destruct (has "delete"); [simpl; auto|].
    destruct (has "sil"); [simpl; auto|].
    destruct (has "temizle"); [simpl; auto|].
    destruct (has "ban"); [simpl; auto|].
    destruct (has "yasak"); [simpl; auto|].
    destruct (has "kick"); simpl; auto 10. }
  split; [exact Hin|]. split; [|split; reflexivity].
  intros Hout. destruct (route_of userPrompt); simpl in Hin, Hout;
    intuition discriminate.
Qed.

End RoutingFacts.

(** ** Decimal numerals *)

Section Numerals.
Import LLMService.

Lemma digit_code d : d < 10 -> nat_of_ascii (ascii_of_nat (48 + d)) - 48 = d.
Proof. intros H. rewrite nat_ascii_embedding; lia. Qed.

Lemma parseInt_toString_acc fuel : forall n acc,
  n < fuel -> parseInt_acc (toString_acc fuel n acc) 0 = parseInt_acc acc n.
Proof.
  induction fuel as [|fuel IH]; intros n acc Hn; [lia|].
  cbn [toString_acc]. destruct (Nat.ltb_spec n 10) as [Hlt|Hge].
  - cbn [parseInt_acc]. rewrite Nat.mod_small, digit_code by lia.
    f_equal.
  - rewrite IH.
    + cbn [parseInt_acc]. rewrite digit_code by (apply Nat.mod_upper_bound; lia).
      f_equal. symmetry. rewrite Nat.add_comm, Nat.mul_comm.
      rewrite (Nat.div_mod_eq n 10) at 1. lia.
    + pose proof (Nat.div_lt n 10). lia.
Qed.

(** Reading back the decimal text of a number gives the number. *)
Lemma parseInt_toString n : parseInt (toString n) = n.
Proof. unfold parseInt, toString. rewrite parseInt_toString_acc by lia. reflexivity. Qed.

Lemma toString_inj n m : toString n = toString m -> n = m.
Proof.
  intros H. rewrite <- (parseInt_toString n), <- (parseInt_toString m), H. reflexivity.
Qed.

End Numerals.

(** ** LLMService: the plan of the write command *)

Section WritePlanFacts.
Import LLMService.

Lemma NoDup_map_inj {A B} (f : A -> B) l :
  (forall x y, f x = f y -> x = y) -> NoDup l -> NoDup (map f l).
Proof.
  intros Hf. induction 1 as [|x l Hx Hl IH]; simpl; constructor; auto.
  intros Hin. change (map f l) with (f <$> l) in Hin.
  apply list_elem_of_fmap in Hin as (y & Hy & Hin).
  apply Hf in Hy. subst y. exact (Hx Hin).
Qed.

(** X11.  The write command never plans more than five messages, whatever
    count the prompt asks for, and exactly one when the prompt gives no
    count.  Step number [i] (from 0) of the plan is a
    [message.create] request with id [s] followed by [i + 1]; so the
    ids of a plan are distinct. *)
Theorem write_plan_at_most_five_steps (userPrompt : string) :
  let steps := fp_steps (write_plan userPrompt) in
  List.length steps <= 5 /\
  (match_count ["times"; "kez"; "defa"] userPrompt = None -> List.length steps = 1) /\
  (forall d, match_count ["times"; "kez"; "defa"] userPrompt = Some d ->
             List.length steps = Nat.min (parseInt d) 5) /\
  (forall i st, steps !! i = Some st ->
     ps_tool st = "discord.request" /\ ps_action st = "message.create" /\
     ps_id st = "s" +:+ toString (i + 1)) /\
  NoDup (map ps_id steps) /\
  fp_strategy (write_plan userPrompt) = "sequential".
Proof.
  intros steps. subst steps. unfold write_plan. cbv zeta. cbn [fp_steps fp_strategy].
  set (repeat := match match_count _ userPrompt with
                 | Some d => Nat.min (parseInt d) 5
                 | None => 1
                 end).
  set (step := fun i : nat => mkPlanStep _ _ _ _).
  assert (Hrep : repeat <= 5).
  { subst repeat. destruct (match_count _ userPrompt); lia. }
  rewrite length_map, length_seq.
  split; [exact Hrep|]. split.
  { subst repeat. intros ->. reflexivity. }
  split.
  { subst repeat. intros d ->. reflexivity. }
  split.
  { intros i st Hi. change (map step ?l) with (step <$> l) in Hi.
    apply list_lookup_fmap_Some in Hi as (j & -> & Hj).
    apply lookup_seq in Hj as [-> _]. subst step. cbn. auto. }
  split; [|reflexivity].
  rewrite map_map. apply NoDup_map_inj; [|apply NoDup_seq].
  intros x y Hxy. subst step. cbn in Hxy.
  injection Hxy as Hxy. apply toString_inj in Hxy. lia.
Qed.

End WritePlanFacts.

(** ** LLMService: closing what was left open *)

Section BalanceFacts.
Import LLMService.

Lemma count_app c s t : Js.count c (s +:+ t) = Js.count c s + Js.count c t.
Proof. induction s as [|d s IH]; simpl; [reflexivity|]. rewrite IH. lia. Qed.

Lemma count_pad c d n : forall s,
  Js.count c (Js.pad n d s) = Js.count c s + (if Ascii.eqb c d then n else 0).
Proof.
  induction n as [|n IH]; intros s; cbn [Js.pad].
  - destruct (Ascii.eqb c d); lia.
  - rewrite IH, count_app. simpl. destruct (Ascii.eqb c d); lia.
Qed.

Lemma append_empty_r s : s +:+ EmptyString = s.
Proof.
  induction s as [|c s IH]; [reflexivity|].
  change (String c (s +:+ EmptyString) = String c s). f_equal. exact IH.
Qed.

Lemma append_assoc s t u : (s +:+ t) +:+ u = s +:+ (t +:+ u).
Proof.
  induction s as [|c s IH]; [reflexivity|].
  change (String c ((s +:+ t) +:+ u) = String c (s +:+ (t +:+ u))). f_equal. exact IH.
Qed.

Lemma pad_app n d : forall s, exists t, Js.pad n d s = s +:+ t.
Proof.
  induction n as [|n IH]; intros s; cbn [Js.pad].
  - exists EmptyString. symmetry. apply append_empty_r.
  - destruct (IH (s +:+ String d EmptyString)) as [t ->].
    exists (String d EmptyString +:+ t). apply append_assoc.
Qed.

Lemma balance_counts s :
  Js.count "}" (balance s) = Nat.max (Js.count "{" s) (Js.count "}" s) /\
  Js.count "{" (balance s) = Js.count "{" s /\
  Js.count "]" (balance s) = Nat.max (Js.count "[" s) (Js.count "]" s) /\
  Js.count "[" (balance s) = Js.count "[" s.
Proof.
  unfold balance. cbv zeta. rewrite !count_pad. cbn [Ascii.eqb Bool.eqb].
  repeat split; lia.
Qed.

(** X14.  The text that [_fixJsonFormat] hands to [JSON.parse] never has more
    opening braces than closing ones, nor more opening brackets than
    closing ones; a text in which both counts already agree is left as
    it is by the balancing step, and balancing twice changes nothing
    more. *)
Theorem repair_closes_braces_and_brackets (content : string) :
  Js.count "{" (repair content) <= Js.count "}" (repair content) /\
  Js.count "[" (repair content) <= Js.count "]" (repair content) /\
  (forall s, Js.count "{" s <= Js.count "}" s ->
             Js.count "[" s <= Js.count "]" s -> balance s = s) /\
  (forall s, balance (balance s) = balance s) /\
  (forall s, exists closers, balance s = s +:+ closers).
Proof.
  assert (Hfix : forall s, Js.count "{" s <= Js.count "}" s ->
                           Js.count "[" s <= Js.count "]" s -> balance s = s).
  { intros s H1 H2. unfold balance. cbv zeta.
    replace (Js.count "{" s - Js.count "}" s) with 0 by lia. cbn [Js.pad].
    replace (Js.count "[" s - Js.count "]" s) with 0 by lia. reflexivity. }
  assert (Hle : forall s, Js.count "{" (balance s) <= Js.count "}" (balance s) /\
                          Js.count "[" (balance s) <= Js.count "]" (balance s)).
  { intros s. destruct (balance_counts s) as (-> & -> & -> & ->). lia. }
  split; [apply (Hle _)|]. split; [apply (Hle _)|]. split; [exact Hfix|]. split.
  - intros s. apply Hfix; apply Hle.
  - intros s. unfold balance. cbv zeta.
    destruct (pad_app (Js.count "{" s - Js.count "}" s) "}" s) as [t Ht].
    rewrite Ht.
    destruct (pad_app (Js.count "[" (s +:+ t) - Js.count "]" (s +:+ t)) "]" (s +:+ t))
      as [u ->].
    exists (t +:+ u). apply append_assoc.
Qed.

End BalanceFacts.

(** ** DynamicHandler: the distance is a metric *)

Section Metric.
Import DynamicHandler.

Lemma edits_refl s : edits s s 0.
Proof. induction s as [|x s IH]; constructor; exact IH. Qed.

Lemma edits_zero s t n : edits s t n -> n = 0 -> s = t.
Proof.
  induction 1 as [|x s t n _ IH| | |]; intros Hn; try discriminate Hn.
  - reflexivity.
  - f_equal. apply IH, Hn.
Qed.

Lemma edits_lengths s t n :
  edits s t n -> List.length s <= List.length t + n /\ List.length t <= List.length s + n.
Proof. induction 1; simpl; lia. Qed.

Lemma edits_max s : forall t, edits s t (Nat.max (List.length s) (List.length t)).
Proof.
  induction s as [|x s IH]; intros t.
  - apply edits_all_insert.
  - destruct t as [|y t]; [apply edits_all_delete|].
    cbn [List.length]. rewrite <- Nat.succ_max_distr. apply edits_subst, IH.
Qed.

(** Two scripts in a row make a script from the first word to the
    last, at no more than the sum of the costs. *)
Lemma edits_trans s t n :
  edits s t n -> forall u m, edits t u m -> exists k, k <= n + m /\ edits s u k.
Proof.
  induction 1 as [|x s t n _ IH|x y s t n _ IH|x s t n _ IH|y s t n _ IH].
  - intros u m H. exists m. split; [lia|exact H].
  - intros u m H. remember (x :: t) as t' eqn:Ht.
    induction H as [|x' t1 u1 m1 H1 _|x' y' t1 u1 m1 H1 _|x' t1 u1 m1 H1 _|y' t1 u1 m1 H1 IH2];
      try discriminate Ht.
    + injection Ht as -> ->. destruct (IH _ _ H1) as (k & Hk & Hs).
      exists k. split; [lia|apply edits_keep, Hs].
    + injection Ht as -> ->. destruct (IH _ _ H1) as (k & Hk & Hs).
      exists (S k). split; [lia|apply edits_subst, Hs].
    + injection Ht as -> ->. destruct (IH _ _ H1) as (k & Hk & Hs).
      exists (S k). split; [lia|apply edits_delete, Hs].
    + destruct (IH2 Ht) as (k & Hk & Hs).
      exists (S k). split; [lia|apply edits_insert, Hs].
  - intros u m H. remember (y :: t) as t' eqn:Ht.
    induction H as [|x' t1 u1 m1 H1 _|x' y' t1 u1 m1 H1 _|x' t1 u1 m1 H1 _|y' t1 u1 m1 H1 IH2];
      try discriminate Ht.
    + injection Ht as -> ->. destruct (IH _ _ H1) as (k & Hk & Hs).
      exists (S k). split; [lia|apply edits_subst, Hs].
    + injection Ht as -> ->. destruct (IH _ _ H1) as (k & Hk & Hs).
      exists (S k). split; [lia|apply edits_subst, Hs].
    + injection Ht as -> ->. destruct (IH _ _ H1) as (k & Hk & Hs).
      exists (S k). split; [lia|apply edits_delete, Hs].
    + destruct (IH2 Ht) as (k & Hk & Hs).
      exists (S k). split; [lia|apply edits_insert, Hs].
  - intros u m H. destruct (IH _ _ H) as (k & Hk & Hs).
    exists (S k). split; [lia|apply edits_delete, Hs].
  - intros u m H. remember (y :: t) as t' eqn:Ht.
    induction H as [|x' t1 u1 m1 H1 _|x' y' t1 u1 m1 H1 _|x' t1 u1 m1 H1 _|y' t1 u1 m1 H1 IH2];
      try discriminate Ht.
    + injection Ht as -> ->. destruct (IH _ _ H1) as (k & Hk & Hs).
      exists (S k). split; [lia|apply edits_insert, Hs].
    + injection Ht as -> ->. destruct (IH _ _ H1) as (k & Hk & Hs).
      exists (S k). split; [lia|apply edits_insert, Hs].
    + injection Ht as -> ->. destruct (IH _ _ H1) as (k & Hk & Hs).
      exists k. split; [lia|exact Hs].
    + destruct (IH2 Ht) as (k & Hk & Hs).
      exists (S k). split; [lia|apply edits_insert, Hs].
Qed.

Lemma lev_refl s : lev s s = 0.
Proof. pose proof (lev_lower s s 0 (edits_refl s)). lia. Qed.

Lemma lev_zero s t : lev s t = 0 -> s = t.
Proof. intros H. eapply edits_zero; [apply lev_edits|exact H]. Qed.

Lemma lev_sym s t : lev s t = lev t s.
Proof.
  eapply is_distance_unique; [apply lev_is_distance|].
  apply is_distance_sym, lev_is_distance.
Qed.

Lemma lev_triangle s t u : lev s u <= lev s t + lev t u.
Proof.
  destruct (edits_trans s t _ (lev_edits s t) u _ (lev_edits t u)) as (k & Hk & Hs).
  apply lev_lower in Hs. lia.
Qed.

Lemma lev_le_max s t : lev s t <= Nat.max (List.length s) (List.length t).
Proof. apply lev_lower, edits_max. Qed.

Lemma lev_lengths s t :
  List.length s <= List.length t + lev s t /\ List.length t <= List.length s + lev s t.
Proof. apply edits_lengths, lev_edits. Qed.

Lemma length_list_ascii_of_string s :
  List.length (list_ascii_of_string s) = String.length s.
Proof. induction s as [|c s IH]; simpl; [reflexivity|]. rewrite IH. reflexivity. Qed.

Lemma list_ascii_of_string_inj x y :
  list_ascii_of_string x = list_ascii_of_string y -> x = y.
Proof.
  intros H. rewrite <- (string_of_list_ascii_of_string x),
    <- (string_of_list_ascii_of_string y), H. reflexivity.
Qed.

(** X15.  The number [_levenshteinDistance] returns is a metric on strings:
    it is 0 exactly between a string and itself, it does not depend on
    the order of the arguments, and it obeys the triangle inequality.
    It lies between the difference of the two lengths and the greater
    of them. *)
Theorem levenshteinDistance_metric (x y z : string) :
  _levenshteinDistance x x = 0 /\
  (_levenshteinDistance x y = 0 <-> x = y) /\
  _levenshteinDistance x y = _levenshteinDistance y x /\
  _levenshteinDistance x z <= _levenshteinDistance x y + _levenshteinDistance y z /\
  _levenshteinDistance x y <= Nat.max (String.length x) (String.length y) /\
  Nat.max (String.length x) (String.length y)
    - Nat.min (String.length x) (String.length y) <= _levenshteinDistance x y.
Proof.
  rewrite !levenshteinDistance_lev.
  split; [apply lev_refl|]. split.
  { split; [intros H; apply list_ascii_of_string_inj, lev_zero, H|].
    intros ->. apply lev_refl. }
  split; [apply lev_sym|]. split; [apply lev_triangle|].
  rewrite <- !length_list_ascii_of_string.
  split; [apply lev_le_max|].
  pose proof (lev_lengths (list_ascii_of_string x) (list_ascii_of_string y)). lia.
Qed.

Lemma Zpos_of_nat n : n <> 0 -> Z.pos (Pos.of_nat n) = Z.of_nat n.
Proof.
  intros Hn. rewrite <- positive_nat_Z, Nat2Pos.id by exact Hn. reflexivity.
Qed.

(** X16.  The score [_calculateSimilarity] returns is [1 - distance /
    maxLength] (1 for two empty strings), a number between 0 and 1
    that does not depend on the order of the arguments and is 1
    exactly for equal strings. *)
Theorem calculateSimilarity_symmetric_score (x y : string) :
  (0 <= _calculateSimilarity x y <= 1)%Q /\
  _calculateSimilarity x y = _calculateSimilarity y x /\
  ((_calculateSimilarity x y == 1)%Q <-> x = y) /\
  (Nat.max (String.length x) (String.length y) <> 0 ->
   (_calculateSimilarity x y ==
    1 - (Z.of_nat (_levenshteinDistance x y)
         # Pos.of_nat (Nat.max (String.length x) (String.length y))))%Q).
Proof.
  pose proof (levenshteinDistance_lev x y) as Hd.
  pose proof (lev_le_max (list_ascii_of_string x) (list_ascii_of_string y)) as Hmax.
  rewrite !length_list_ascii_of_string, <- Hd in Hmax.
  assert (Hsym : _calculateSimilarity x y = _calculateSimilarity y x).
  { unfold _calculateSimilarity. rewrite !levenshteinDistance_lev, (lev_sym _ (list_ascii_of_string x)),
      (Nat.max_comm (String.length y)). reflexivity. }
  assert (Hzero : _levenshteinDistance x y = 0 <-> x = y).
  { rewrite Hd. split; [intros H; apply list_ascii_of_string_inj, lev_zero, H|].
    intros ->. apply lev_refl. }
  unfold _calculateSimilarity in *. cbv zeta.
  set (d := _levenshteinDistance x y) in *.
  set (m := Nat.max (String.length x) (String.length y)) in *.
  destruct (Nat.eqb_spec m 0) as [Hm|Hm].
  - split; [split; discriminate|]. split; [exact Hsym|]. split; [|contradiction].
    split; [intros _|reflexivity].
    subst m. destruct x, y; simpl in Hm; try lia. reflexivity.
  - split.
    { unfold Qle. cbn [Qnum Qden]. rewrite Zpos_of_nat by exact Hm. lia. }
    split; [exact Hsym|]. split.
    + rewrite <- Hzero. unfold Qeq. cbn [Qnum Qden]. rewrite Zpos_of_nat by exact Hm. lia.
    + intros _. unfold Qeq, Qminus, Qplus, Qopp. cbn [Qnum Qden].
      rewrite Pos2Z.inj_mul, Zpos_of_nat by exact Hm. nia.
Qed.

End Metric.

(** ** DynamicHandler: what the resolver does with letter case and
    with known categories *)

Section ResolverMore.
Import DynamicHandler.

Lemma own_In table k v : own table k = Some v -> In (k, v) table.
Proof.
  induction table as [|[k' v'] table IH]; simpl; [discriminate|].
  destruct (String.eqb_spec k' k) as [->|_].
  - intros [= ->]. left. reflexivity.
  - intros H. right. apply IH, H.
Qed.

Lemma get_own table k v : get table k = Own v -> own table k = Some v.
Proof.
  unfold get. destruct (own table k); [congruence|].
  destruct (existsb _ _); discriminate.
Qed.

Lemma get_inherited table k : get table k = Inherited -> In k object_prototype.
Proof.
  unfold get. destruct (own table k); [discriminate|].
  destruct (existsb (String.eqb k) object_prototype) eqn:He; [|discriminate].
  intros _. apply existsb_exists in He as (x & Hin & Hx).
  apply String.eqb_eq in Hx. subst x. exact Hin.
Qed.

(** No inherited property name has a dot. *)
Lemma object_prototype_no_dot k :
  In k object_prototype -> Js.includes "." (Js.toLowerCase k) = false.
Proof.
  intros Hin. vm_compute in Hin.
  repeat (destruct Hin as [<-|Hin]; [vm_compute; reflexivity|]). destruct Hin.
Qed.

Lemma validActions_dot c :
  In c validActions -> Js.includes "." (Js.toLowerCase c) = true.
Proof.
  intros Hin. vm_compute in Hin.
  repeat (destruct Hin as [<-|Hin]; [vm_compute; reflexivity|]). destruct Hin.
Qed.

Lemma own_validActions k v : own actionMappings k = Some v -> In k validActions.
Proof.
  intros H. apply own_In in H. unfold validActions.
  apply (List.in_map fst) in H. exact H.
Qed.

(** Every target of the alias table is a key of the handler table. *)
Lemma alias_target_own k v :
  own actionAliases k = Some v -> exists handler, get actionMappings v = Own handler.
Proof.
  intros H. apply own_In in H. vm_compute in H.
  repeat (destruct H as [[= <- <-]|H]; [eexists; vm_compute; reflexivity|]). destruct H.
Qed.

(** The fuzzy match reads its argument through [toLowerCase] only. *)
Lemma findSimilarAction_case raw raw' :
  Js.toLowerCase raw = Js.toLowerCase raw' ->
  _findSimilarAction raw = _findSimilarAction raw'.
Proof. intros H. unfold _findSimilarAction. rewrite H. reflexivity. Qed.

(** The alias step of [resolve], read off its definition. *)
Lemma resolve_missing raw :
  get actionMappings raw = Missing ->
  resolve raw =
    match own actionAliases (Js.toLowerCase raw) with
    | Some correctAction =>
        match get actionMappings correctAction with
        | Own handler => Resolved correctAction handler alias
        | _ => Builtin correctAction
        end
    | None =>
        match _findSimilarAction raw with
        | Some similarAction =>
            match get actionMappings similarAction with
            | Own handler => Resolved similarAction handler fuzzy
            | _ => DynamicExtension
            end
        | None => DynamicExtension
        end
    end.
Proof.
  intros Hm. unfold resolve. rewrite Hm.
  destruct (own actionAliases (Js.toLowerCase raw)) as [v|] eqn:Ha.
  - unfold get at 1. rewrite Ha.
    destruct (alias_target_own _ _ Ha) as [h ->]. reflexivity.
  - unfold get at 1. rewrite Ha.
    assert (Hf : match _findSimilarAction raw with
                 | Some c => exists h, get actionMappings c = Own h
                 | None => True
                 end).
    { destruct (_findSimilarAction raw) as [c|] eqn:Hc; [|exact I].
      apply validActions_own, (findSimilarAction_valid raw), Hc. }
    destruct (existsb _ _);
      destruct (_findSimilarAction raw) as [c|]; try reflexivity;
      destruct Hf as [h ->]; reflexivity.
Qed.

(** With a category that has actions, the fuzzy match always answers,
    and with an action of that category. *)
Lemma findSimilarAction_same_category raw first rest :
  same_category (Js.toLowerCase raw) = first :: rest ->
  exists c, _findSimilarAction raw = Some c /\ In c (first :: rest).
Proof.
  intros Hsc. unfold _findSimilarAction. cbv zeta. rewrite Hsc.
  pose proof (best_of_spec (Js.toLowerCase raw) (first :: rest) None 0) as H.
  cbv zeta in H.
  destruct (best_of (Js.toLowerCase raw) (first :: rest) None 0) as [m sc].
  destruct H as (_ & _ & [[-> ->]|(c & Hin & -> & ->)]).
  - exists first. split; [reflexivity|left; reflexivity].
  - destruct (Qle_bool _ _); [exists c; auto|].
    exists first. split; [reflexivity|left; reflexivity].
Qed.

(** X17.  An action name whose category (the text before its first dot,
    letter case ignored) is one of
    [message], [channel], [member] and [role] is never reported as
    unknown and never handed to the dynamic extension: the resolver
    always picks a handler of the table.  When the fuzzy match picks
    it, the action run is one of that category. *)
Theorem known_category_always_resolved (raw : string) :
  Js.includes "." (Js.toLowerCase raw) = true ->
  In (category_of (Js.toLowerCase raw)) ["message"; "channel"; "member"; "role"] ->
  exists actionUsed handler via,
    resolve raw = Resolved actionUsed handler via /\
    own actionMappings actionUsed = Some handler /\
    (via = exact -> actionUsed = raw) /\
    (via = alias -> own actionAliases (Js.toLowerCase raw) = Some actionUsed) /\
    (via = fuzzy ->
     Js.startsWith (category_of (Js.toLowerCase raw) +:+ ".") actionUsed = true /\
     _findSimilarAction raw = Some actionUsed).
Proof.
  intros Hdot Hcat.
  destruct (get actionMappings raw) as [h| |] eqn:Hget.
  - exists raw, h, exact. unfold resolve. rewrite Hget.
    split; [reflexivity|]. split; [apply get_own, Hget|].
    repeat split; auto; discriminate.
  - apply get_inherited, object_prototype_no_dot in Hget. congruence.
  - rewrite (resolve_missing raw Hget).
    destruct (own actionAliases (Js.toLowerCase raw)) as [v|] eqn:Ha.
    + destruct (alias_target_own _ _ Ha) as [h Hh]. rewrite Hh.
      exists v, h, alias. split; [reflexivity|]. split; [apply get_own, Hh|].
      repeat split; auto; discriminate.
    + assert (Hsc : exists first rest, same_category (Js.toLowerCase raw) = first :: rest).
      { unfold same_category. rewrite Hdot.
        simpl in Hcat. destruct Hcat as [<-|[<-|[<-|[<-|[]]]]];
          vm_compute; eauto. }
      destruct Hsc as (first & rest & Hsc).
      destruct (findSimilarAction_same_category raw first rest Hsc) as (c & Hc & Hin).
      rewrite Hc.
      destruct (validActions_own c (findSimilarAction_valid raw c Hc)) as [h Hh].
      rewrite Hh. exists c, h, fuzzy.
      split; [reflexivity|]. split; [apply get_own, Hh|].
      split; [discriminate|]. split; [discriminate|]. intros _.
      split; [|reflexivity].
      rewrite <- Hsc in Hin. unfold same_category in Hin. rewrite Hdot in Hin.
      apply filter_In in Hin. apply Hin.
Qed.

(** X18.  The handler table is searched without regard to letter case: a
    request that spells a key of the table in other capitals is
    resolved to that key's handler (by the exact lookup when the
    spelling is the key's own, by the fuzzy match otherwise). *)
Theorem action_found_in_any_letter_case (raw c : string) :
  In c validActions ->
  Js.toLowerCase raw = Js.toLowerCase c ->
  exists handler via,
    resolve raw = Resolved c handler via /\
    own actionMappings c = Some handler /\
    (via = exact <-> raw = c) /\ via <> alias.
Proof.
  intros Hc Hlow.
  assert (Hkeys : forall c', In c' validActions ->
            Js.toLowerCase c' = Js.toLowerCase c -> c' = c).
  { intros c' Hc' Heq. vm_compute in Hc.
    repeat (destruct Hc as [<-|Hc];
            [vm_compute in Hc';
             repeat (destruct Hc' as [<-|Hc']; [first [reflexivity|discriminate Heq]|]);
             destruct Hc'|]).
    destruct Hc. }
  destruct (get actionMappings raw) as [h| |] eqn:Hget.
  - assert (raw = c) as ->.
    { apply Hkeys; [|exact Hlow]. eapply own_validActions, get_own, Hget. }
    exists h, exact. unfold resolve. rewrite Hget.
    split; [reflexivity|]. split; [apply get_own, Hget|].
    split; [tauto|discriminate].
  - apply get_inherited, object_prototype_no_dot in Hget.
    rewrite Hlow, (validActions_dot c Hc) in Hget. discriminate.
  - rewrite (resolve_missing raw Hget), Hlow, (findSimilarAction_case raw c Hlow).
    assert (Hne : raw <> c).
    { intros ->. destruct (validActions_own c Hc) as [h Hh]. congruence. }
    clear Hkeys Hlow Hget. vm_compute in Hc.
    repeat (destruct Hc as [<-|Hc];
            [eexists _, fuzzy; split; [vm_compute; reflexivity|];
             split; [reflexivity|]; split; [split; [discriminate|contradiction]|discriminate]|]).
    destruct Hc.
Qed.

(** X19.  The alias table too is read without regard to letter case: a
    request that is not a key of the handler table and whose
    lower-cased spelling is a key of the alias table is resolved to the
    target of that alias. *)
Theorem alias_found_in_any_letter_case (raw target : string) :
  own actionAliases (Js.toLowerCase raw) = Some target ->
  exists handler,
    resolve raw = Resolved target handler alias /\
    own actionMappings target = Some handler.
Proof.
  intros Ha.
  assert (Hdot : Js.includes "." (Js.toLowerCase raw) = true).
  { apply own_In in Ha. generalize dependent (Js.toLowerCase raw). intros k Ha.
    vm_compute in Ha.
    repeat (destruct Ha as [[= <- _]|Ha]; [vm_compute; reflexivity|]). destruct Ha. }
  destruct (get actionMappings raw) as [h| |] eqn:Hget.
  - exfalso. apply get_own, own_validActions in Hget. vm_compute in Hget.
    repeat (destruct Hget as [<-|Hget]; [vm_compute in Ha; discriminate Ha|]).
    destruct Hget.
  - apply get_inherited, object_prototype_no_dot in Hget. congruence.
  - rewrite (resolve_missing raw Hget), Ha.
    destruct (alias_target_own _ _ Ha) as [h Hh]. rewrite Hh.
    exists h. split; [reflexivity|apply get_own, Hh].
Qed.

End ResolverMore.

(** ** LLMService: the duration of the timeout command *)

Section TimeoutFacts.
Import LLMService.

Lemma prefix_trans_units u' u s :
  String.prefix u' u = true -> String.prefix u s = true -> String.prefix u' s = true.
Proof. apply prefix_trans. Qed.

(** A number followed by a unit of one list is found with any list
    that holds a beginning of each of those units. *)
Lemma match_amount_units units units' s :
  (forall u, In u units -> exists u', In u' units' /\ String.prefix u' u = true) ->
  forall d, match_amount units s = Some d -> exists d', match_amount units' s = Some d'.
Proof.
  intros Hsub. induction s as [|c r IH]; intros d Hd; [discriminate Hd|].
  cbn [match_amount] in *. cbv zeta in *.
  set (n := Js.span Js.is_digit (String c r)) in *.
  set (rest := after_spaces n (String c r)) in *.
  destruct (negb (Nat.eqb n 0)) eqn:Hn; cbn [andb] in *.
  - destruct (existsb (fun u => String.prefix u (fold_case rest)) units) eqn:Hu.
    + apply existsb_exists in Hu as (u & Hin & Hp).
      destruct (Hsub u Hin) as (u' & Hin' & Hp').
      assert (existsb (fun u => String.prefix u (fold_case rest)) units' = true) as ->.
      { apply existsb_exists. exists u'. split; [exact Hin'|].
        eapply prefix_trans_units; eassumption. }
      eauto.
    + destruct (existsb _ units'); [eauto|]. eapply IH, Hd.
  - eapply IH, Hd.
Qed.

(** What is left by [after_spaces] does not start with white space. *)
Lemma after_spaces_done s : forall pending,
  space_width (after_spaces pending s) = 0.
Proof.
  induction s as [|c r IH]; intros pending; [reflexivity|].
  cbn [after_spaces]. destruct pending as [|p]; [|apply IH].
  destruct (space_width (String c r)) as [|w] eqn:Hw; [exact Hw|apply IH].
Qed.

(** X12.  A duration given in the Turkish words for minutes (a number, then
    dakika or dk, in any letter case) is read as that many days: the
    unit test for days accepts any word that starts with the letter d,
    and it is applied last.  So the timeout lasts 86400 seconds times
    the number the day test finds, not 60 seconds times the number of
    minutes; this number of seconds is exact while it is no greater
    than 2^53, and the message then gives the number of days. *)
Theorem timeout_in_dakika_is_read_as_days (userPrompt d : string) :
  match_amount ["dakika"; "dk"] userPrompt = Some d ->
  exists d',
    match_amount ["day"; "gün"; "d"] userPrompt = Some d' /\
    tp_duration (timeout_plan userPrompt) = times (parseInt_number d') 86400 /\
    ((digits_value d' 0 * 86400 <= max_exact)%N ->
     tp_duration (timeout_plan userPrompt) = Int (digits_value d' 0 * 86400) /\
     (digits_value d' 0 <> 0%N ->
      tp_content (timeout_plan userPrompt)
        = Some ("✅ Kullanıcı <@" +:+ tp_userId (timeout_plan userPrompt) +:+ "> " +:+
                (number_toString (digits_value d' 0) +:+ " gün") +:+
                " süreyle susturuldu."))).
Proof.
  intros Hd.
  destruct (match_amount_units ["dakika"; "dk"] ["day"; "gün"; "d"] userPrompt) with (d := d)
    as [d' Hd']; [|exact Hd|].
  { intros u [<-|[<-|[]]]; exists "d"; simpl; auto. }
  exists d'. split; [exact Hd'|].
  assert (Hdur : tp_duration (timeout_plan userPrompt) = times (parseInt_number d') 86400).
  { unfold timeout_plan. cbv zeta. cbn [tp_duration]. rewrite Hd'. reflexivity. }
  split; [exact Hdur|].
  intros Hle. set (n := digits_value d' 0) in *.
  assert (Hint : times (parseInt_number d') 86400 = Int (n * 86400)).
  { unfold parseInt_number, exact. fold n.
    destruct (N.leb_spec n max_exact) as [_|Hgt]; [|lia].
    unfold times, exact.
    destruct (N.leb_spec (n * 86400) max_exact) as [_|Hgt]; [reflexivity|lia]. }
  split; [rewrite Hdur; exact Hint|].
  intros Hne. unfold timeout_plan. cbv zeta. cbn [tp_content tp_userId].
  rewrite Hd'. rewrite Hint. unfold formatDuration.
  destruct (N.ltb_spec (n * 86400) 60); [lia|].
  destruct (N.ltb_spec (n * 86400) 3600); [lia|].
  destruct (N.ltb_spec (n * 86400) 86400); [lia|].
  rewrite N.div_mul by lia. reflexivity.
Qed.

End TimeoutFacts.

(** ** LLMService: the ban command behind the purge branch *)

Section BanFacts.
Import LLMService.

Lemma match_delete_days_includes s d :
  match_delete_days s = Some d -> Js.includes "delete" (Js.toLowerCase s) = true.
Proof.
  induction s as [|c r IH]; [discriminate|]. cbn [match_delete_days]. cbv zeta.
  destruct (String.prefix "delete" (Js.toLowerCase (String c r))) eqn:Hp.
  - intros _. apply includes_prefix, Hp.
  - intros H. change (Js.toLowerCase (String c r))
      with (String (Js.lower c) (Js.toLowerCase r)).
    apply includes_cons, IH, H.
Qed.

(** X13.  A ban planned by the fallback never deletes messages.  The
    number of days of messages to delete is read behind the word
    delete, but a prompt with that word is taken by the purge branch
    (or an earlier one) and does not reach the ban command: whenever
    the ban command is reached, [deleteMessageDays] is 0.  On any
    prompt the number is at most 7, and the plan asks for approval. *)
Theorem ban_plan_never_deletes_messages (userPrompt : string) :
  route_of userPrompt = BanCommand ->
  bp_deleteMessageDays (ban_plan userPrompt) = 0 /\
  match_delete_days userPrompt = None /\
  (forall p, bp_deleteMessageDays (ban_plan p) <= 7 /\
             bp_requiresApproval (ban_plan p) = true) /\
  (forall p, Js.includes "delete" (Js.toLowerCase p) = true ->
             In (route_of p) [WriteCommand; TimeoutCommand; PurgeCommand]).
Proof.
  intros Hroute.
  assert (Hearly : forall p, Js.includes "delete" (Js.toLowerCase p) = true ->
                     In (route_of p) [WriteCommand; TimeoutCommand; PurgeCommand]).
  { intros p Hp. unfold route_of. cbv zeta. rewrite Hp.
    set (has := fun w => Js.includes w (Js.toLowerCase p)).
    change (Js.includes ?w (Js.toLowerCase p)) with (has w).
    destruct (has "write"); [simpl; auto|].
    destruct (has "send"); [simpl; auto|].
    destruct (has "yaz"); [simpl; auto|].
    destruct (has "timeout"); [simpl; auto|].
    destruct (has "mute"); [simpl; auto|].
    destruct (has "sustur"); [simpl; auto|].
    destruct (has "purge"); [simpl; auto|].
    destruct (has "clear"); simpl; auto. }
  assert (Hnone : match_delete_days userPrompt = None).
  { destruct (match_delete_days userPrompt) as [d|] eqn:Hd; [|reflexivity].
    apply match_delete_days_includes, Hearly in Hd. rewrite Hroute in Hd.
    simpl in Hd. intuition discriminate. }
  split; [unfold ban_plan; cbv zeta; cbn [bp_deleteMessageDays]; rewrite Hnone; reflexivity|].
  split; [exact Hnone|]. split; [|exact Hearly].
  intros p. split; [|reflexivity].
  unfold ban_plan. cbv zeta. cbn [bp_deleteMessageDays].
  destruct (match_delete_days p); lia.
Qed.

End BanFacts.

(** ** The approval gate: the first valid reaction decides *)

Section ApprovalMore.
Import Approval.

Lemma awaitReactions_first keep time pre r post :
  Forall (fun r' => keep r' = false \/ (time <= at_ms r')%N) pre ->
  keep r = true -> (at_ms r < time)%N ->
  awaitReactions keep time (pre ++ r :: post) = Normal r.
Proof.
  intros Hpre Hk Ht. induction Hpre as [|r' pre Hr' _ IH]; cbn [app awaitReactions].
  - apply N.ltb_lt in Ht. rewrite Ht, Hk. reflexivity.
  - destruct Hr' as [Hf|Hlate].
    + rewrite Hf, andb_false_r. exact IH.
    + apply N.ltb_ge in Hlate. rewrite Hlate. exact IH.
Qed.


End ApprovalMore.

(** ** Running an approved plan *)

Section ExecuteFacts.
Import Bot.
Variable executeAction : Step -> completion (option string) (option Result).

Local Abbreviation loop steps st := (fold_left (run_step executeAction) steps st).

(** What one request step appends to the results. *)
Lemma run_step_request st step :
  is_request step = true ->
  exists entry effs,
    ok entry = succeeds executeAction step /\
    stepId entry = default "unknown" (id step) /\
    actionName entry = default "unknown" (action step) /\
    (ok entry = true -> effs = []) /\
    (ok entry = false -> exists text, effs = [Send text]) /\
    run_step executeAction st step
      = mkLoop (calls st ++ [step]) (dynamicResults st ++ [entry])
               (usedDynamicHandler st || ok entry) (effects st ++ effs).
Proof.
  intros Hreq. unfold is_request in Hreq. unfold run_step, succeeds. rewrite Hreq.
  destruct (executeAction step) as [[[[|] err]|]|m].
  - eexists (mkEntry _ true _ _), []. cbn. rewrite orb_true_r, app_nil_r.
    repeat split; auto. discriminate.
  - eexists (mkEntry _ false _ _), [_]. cbn. rewrite orb_false_r.
    repeat split; auto; try discriminate. eauto.
  - eexists (mkEntry _ false _ _), [_]. cbn. rewrite orb_false_r.
    repeat split; auto; try discriminate. eauto.
  - eexists (mkEntry _ false _ _), [_]. cbn. rewrite orb_false_r.
    repeat split; auto; try discriminate. eauto.
Qed.

Lemma run_step_other st step :
  is_request step = false -> run_step executeAction st step = st.
Proof. intros H. unfold is_request in H. unfold run_step. rewrite H. reflexivity. Qed.

(** The loop hands every request step to the dynamic handler, in
    order, whatever the steps before it came to. *)
Lemma loop_spec steps : forall st,
  let st' := loop steps st in
  calls st' = calls st ++ List.filter is_request steps /\
  map ok (dynamicResults st')
    = map ok (dynamicResults st) ++ map (succeeds executeAction) (List.filter is_request steps) /\
  map stepId (dynamicResults st')
    = map stepId (dynamicResults st) ++
      map (fun s => default "unknown" (id s)) (List.filter is_request steps) /\
  usedDynamicHandler st'
    = usedDynamicHandler st || existsb (succeeds executeAction) (List.filter is_request steps) /\
  replies (effects st') = replies (effects st) /\
  List.length (sends (effects st'))
    = List.length (sends (effects st)) +
      List.length (List.filter (fun s => negb (succeeds executeAction s))
                     (List.filter is_request steps)).
Proof.
  induction steps as [|step steps IH]; intros st; cbn [fold_left List.filter].
  - cbn. rewrite !app_nil_r, orb_false_r. repeat split; lia.
  - destruct (is_request step) eqn:Hreq.
    + destruct (run_step_request st step Hreq)
        as (entry & effs & Hok & Hid & _ & Heffs & Heffs' & ->).
      specialize (IH (mkLoop (calls st ++ [step]) (dynamicResults st ++ [entry])
                        (usedDynamicHandler st || ok entry) (effects st ++ effs))).
      cbv zeta in *. cbn [calls dynamicResults usedDynamicHandler effects] in IH.
      destruct IH as (Hc & Hr & Hi & Hu & Hrep & Hs).
      rewrite Hc, Hr, Hi, Hu, Hrep, Hs. cbn [map existsb List.filter].
      rewrite !map_app. cbn [map]. rewrite <- !app_assoc, Hid, <- orb_assoc. cbn [app].
      unfold replies, sends in *. rewrite !flat_map_app, !length_app.
      destruct (succeeds executeAction step) eqn:Hsuc; rewrite Hok in *.
      * rewrite (Heffs eq_refl). cbn. rewrite app_nil_r. repeat split; lia.
      * destruct (Heffs' eq_refl) as [text ->]. cbn. rewrite app_nil_r.
        repeat split; lia.
    + rewrite (run_step_other st step Hreq). apply IH.
Qed.

Lemma filter_length_split {A} (p : A -> bool) l :
  List.length (List.filter p l) + List.length (List.filter (fun x => negb (p x)) l)
  = List.length l.
Proof. induction l as [|x l IH]; simpl; [reflexivity|]. destruct (p x); simpl; lia. Qed.

Lemma filter_ok_length (l : list Entry) :
  List.length (List.filter ok l) = List.length (List.filter (fun b => b) (map ok l)).
Proof. induction l as [|x l IH]; simpl; [reflexivity|]. destruct (ok x); simpl; lia. Qed.

Lemma filter_map_length {A} (p : A -> bool) l :
  List.length (List.filter (fun b => b) (map p l)) = List.length (List.filter p l).
Proof. induction l as [|x l IH]; simpl; [reflexivity|]. destruct (p x); simpl; lia. Qed.

Lemma existsb_filter_length {A} (p : A -> bool) l :
  existsb p l = negb (Nat.eqb (List.length (List.filter p l)) 0).
Proof. induction l as [|x l IH]; simpl; [reflexivity|]. destruct (p x); simpl; auto. Qed.


End ExecuteFacts.

(** ** EventBus: registration *)

Section RegistryFacts.
Import EventBus Registry.
Context {D : Type}.
Implicit Types (b : bus D) (ls pre post : list (listener D)) (l : listener D).

Lemma list_ascii_of_string_app s t :
  list_ascii_of_string (s +:+ t) = list_ascii_of_string s ++ list_ascii_of_string t.
Proof.
  induction s as [|c s IH]; [reflexivity|].
  change (c :: list_ascii_of_string (s +:+ t)
          = c :: (list_ascii_of_string s ++ list_ascii_of_string t)).
  f_equal. exact IH.
Qed.

Lemma toString_acc_no_underscore fuel : forall n acc,
  "_"%char ∉ list_ascii_of_string acc ->
  "_"%char ∉ list_ascii_of_string (LLMService.toString_acc fuel n acc).
Proof.
  induction fuel as [|fuel IH]; intros n acc Hacc; [exact Hacc|].
  cbn [LLMService.toString_acc].
  assert (Hd : "_"%char ∉ list_ascii_of_string
                 (String (ascii_of_nat (48 + n mod 10)) acc)).
  { cbn [list_ascii_of_string]. intros Hin. apply elem_of_cons in Hin as [Heq|Hin];
      [|exact (Hacc Hin)].
    apply (f_equal nat_of_ascii) in Heq.
    assert (n mod 10 < 10) by (apply Nat.mod_upper_bound; lia).
    rewrite nat_ascii_embedding in Heq by lia.
    change (nat_of_ascii "_") with 95 in Heq. lia. }
  destruct (Nat.ltb n 10); [exact Hd|apply IH, Hd].
Qed.

Lemma toString_no_underscore n : "_"%char ∉ list_ascii_of_string (LLMService.toString n).
Proof. apply toString_acc_no_underscore. simpl. apply not_elem_of_nil. Qed.

Lemma split_at_last {A} (x : A) (xs : list A) : forall (ys r1 r2 : list A),
  xs ++ x :: r1 = ys ++ x :: r2 -> x ∉ r1 -> x ∉ r2 -> xs = ys /\ r1 = r2.
Proof.
  induction xs as [|a xs IH]; intros [|a' ys] r1 r2 Heq H1 H2; simpl in Heq.
  - injection Heq as ->. auto.
  - injection Heq as -> ->. exfalso. apply H1. apply elem_of_app. right. left.
  - injection Heq as -> <-. exfalso. apply H2. apply elem_of_app. right. left.
  - injection Heq as -> Heq. destruct (IH _ _ _ Heq H1 H2) as [-> ->]. auto.
Qed.

(** An id tells its topic and its number. *)
Lemma id_inj e n e' n' :
  e +:+ "_" +:+ LLMService.toString n = e' +:+ "_" +:+ LLMService.toString n' ->
  e = e' /\ n = n'.
Proof.
  intros H. apply (f_equal list_ascii_of_string) in H.
  rewrite !list_ascii_of_string_app in H.
  change (list_ascii_of_string "_") with ["_"%char] in H. cbn [app] in H.
  apply split_at_last in H as [He Hn]; try apply toString_no_underscore.
  split; [apply list_ascii_of_string_inj, He|].
  apply toString_inj, list_ascii_of_string_inj, Hn.
Qed.

Lemma insert_front x ls :
  Forall (fun y => (priority y <= priority x)%Z) ls -> insert x ls = x :: ls.
Proof.
  destruct ls as [|y ls]; [reflexivity|]. intros H. apply Forall_cons in H as [Hy _].
  cbn [insert]. apply Z.leb_le in Hy. rewrite Hy. reflexivity.
Qed.

(** Sorting a sorted array with one more listener pushed at its end
    puts the listener behind those of equal or higher priority and
    before those of lower priority. *)
Lemma sort_snoc ls new :
  sorted ls ->
  exists pre post,
    ls = pre ++ post /\ sort (ls ++ [new]) = pre ++ new :: post /\
    Forall (fun y => (priority new <= priority y)%Z) pre /\
    Forall (fun y => (priority y < priority new)%Z) post.
Proof.
  induction ls as [|y ls IH]; intros Hs.
  - exists [], []. repeat split; constructor.
  - destruct Hs as [Hy Hs]. destruct (IH Hs) as (pre & post & -> & Hsort & Hpre & Hpost).
    change (sort ((y :: pre ++ post) ++ [new]))
      with (insert y (sort ((pre ++ post) ++ [new]))).
    rewrite Hsort. apply Forall_app in Hy as [Hy1 Hy2].
    destruct (Z.le_gt_cases (priority new) (priority y)) as [Hle|Hgt].
    + exists (y :: pre), post. split; [reflexivity|]. split.
      * apply insert_front. apply Forall_app. split; [exact Hy1|].
        apply Forall_cons. split; [exact Hle|exact Hy2].
      * split; [apply Forall_cons; split; assumption|exact Hpost].
    + assert (pre = []) as ->.
      { destruct pre as [|z pre]; [reflexivity|]. exfalso.
        apply Forall_cons in Hpre as [Hz _]. apply Forall_cons in Hy1 as [Hz' _]. lia. }
      exists [], (y :: post). split; [reflexivity|]. split.
      * cbn [app insert]. destruct (Z.leb_spec (priority new) (priority y)); [lia|].
        f_equal. apply insert_front, Hy2.
      * split; [constructor|]. apply Forall_cons. split; [lia|exact Hpost].
Qed.

Lemma sorted_insert_mid pre new post :
  sorted (pre ++ post) ->
  Forall (fun y => (priority new <= priority y)%Z) pre ->
  Forall (fun y => (priority y < priority new)%Z) post ->
  sorted (pre ++ new :: post).
Proof.
  induction pre as [|x pre IH]; intros Hs Hpre Hpost.
  - split; [|exact Hs]. eapply Forall_impl; [exact Hpost|]. intros y Hy. simpl in Hy. lia.
  - destruct Hs as [Hx Hs]. apply Forall_cons in Hpre as [Hnx Hpre].
    split; [|apply IH; assumption].
    apply Forall_app in Hx as [Hx1 Hx2]. apply Forall_app. split; [exact Hx1|].
    apply Forall_cons. split; [exact Hnx|exact Hx2].
Qed.

Lemma sorted_delete ls : forall i, sorted ls -> sorted (delete i ls).
Proof.
  induction ls as [|x ls IH]; intros [|i] Hs; try exact Hs.
  - apply Hs.
  - destruct Hs as [Hx Hs]. split; [|apply IH, Hs].
    apply Forall_delete, Hx.
Qed.

Lemma Forall_filter (P : listener D -> Prop) p ls :
  Forall P ls -> Forall P (List.filter p ls).
Proof.
  induction 1 as [|x ls Hx _ IH]; simpl; [constructor|].
  destruct (p x); [constructor; assumption|exact IH].
Qed.

Lemma sorted_filter p ls : sorted ls -> sorted (List.filter p ls).
Proof.
  induction ls as [|x ls IH]; intros Hs; [exact I|].
  destruct Hs as [Hx Hs]. simpl. destruct (p x); [|apply IH, Hs].
  split; [apply Forall_filter, Hx|apply IH, Hs].
Qed.

Lemma elem_of_filter_inv p ls l : l ∈ List.filter p ls -> l ∈ ls /\ p l = true.
Proof.
  induction ls as [|x ls IH]; simpl; [intros H; inversion H|].
  destruct (p x) eqn:Hp.
  - intros H. apply elem_of_cons in H as [->|H]; [split; [left|exact Hp]|].
    destruct (IH H). split; [right; assumption|assumption].
  - intros H. destruct (IH H). split; [right; assumption|assumption].
Qed.

(** The first listener of a non-empty array is the first one [emit]
    calls. *)
Lemma dispatch_head l ls (data : D) h0 :
  head (snd (fst (dispatch (l :: ls) data h0))) = Some l.
Proof.
  cbn [dispatch]. destruct (callback l data) as [v|e].
  - destruct (strict_true v); [destruct (exclusive l); [reflexivity|]|].
    + destruct (dispatch ls data true) as [[h inv] errs]. reflexivity.
    + destruct (dispatch ls data h0) as [[h inv] errs]. reflexivity.
  - destruct (dispatch ls data h0) as [[h inv] errs]. reflexivity.
Qed.

Lemma wf_new_bus : wf (@new_bus D).
Proof.
  split; [constructor|]. split.
  - intros e. cbn. rewrite lookup_empty. split; [intros H; inversion H|intros [x H]; discriminate H].
  - intros e ls H. cbn in H. rewrite lookup_empty in H. discriminate H.
Qed.

(** What [addListener] leaves, read off its definition. *)
Lemma addListener_unfold b event callback opts :
  let l := Listener (event +:+ "_" +:+ LLMService.toString (nextId b)) callback
             (default 0%Z (opt_priority opts))
             (match opt_extensionId opts with
              | Some EmptyString => None
              | e => e
              end)
             (opt_exclusive opts) in
  let old := default [] (table b !! event) in
  addListener b event callback opts
  = (EventBus.id l,
     Bus (if decide (is_Some (table b !! event)) then events b else events b ++ [event])
         (<[event := sort (old ++ [l])]> (table b)) (S (nextId b))).
Proof.
  unfold addListener. cbv zeta.
  destruct (table b !! event) as [ls|] eqn:Hls.
  - rewrite Hls. destruct (decide (is_Some (Some ls))) as [_|Hn];
      [reflexivity|exfalso; apply Hn; eauto].
  - rewrite lookup_insert_eq, insert_insert_eq.
    destruct (decide (is_Some None)) as [[x Hx]|_]; [discriminate Hx|reflexivity].
Qed.

(** Where [addListener] puts the new listener, and that it keeps the
    bus well formed. *)
Lemma addListener_spec b event callback opts :
  wf b ->
  let id := fst (addListener b event callback opts) in
  let b' := snd (addListener b event callback opts) in
  let old := default [] (table b !! event) in
  (exists new pre post,
     EventBus.id new = id /\ EventBus.callback new = callback /\
     priority new = default 0%Z (opt_priority opts) /\
     exclusive new = opt_exclusive opts /\
     old = pre ++ post /\
     table b' !! event = Some (pre ++ new :: post) /\
     Forall (fun l => (priority new <= priority l)%Z) pre /\
     Forall (fun l => (priority l < priority new)%Z) post) /\
  id = event +:+ "_" +:+ LLMService.toString (nextId b) /\
  nextId b' = S (nextId b) /\
  (forall e, e <> event -> table b' !! e = table b !! e) /\
  wf b'.
Proof.
  intros (Hnd & Hkeys & Harr) id b' old. subst id b'.
  rewrite addListener_unfold. cbv zeta. cbn [fst snd table nextId events EventBus.id].
  set (new := Listener _ callback _ _ _). fold old.
  assert (Hold : sorted old /\
                 forall l, l ∈ old ->
                   exists n, n < nextId b /\
                             EventBus.id l = event +:+ "_" +:+ LLMService.toString n).
  { subst old. destruct (table b !! event) as [ls|] eqn:Hls; [apply (Harr _ _ Hls)|].
    split; [exact I|]. intros l Hl. inversion Hl. }
  destruct Hold as [Hsorted Hids].
  destruct (sort_snoc old new Hsorted) as (pre & post & Hold & Hsort & Hpre & Hpost).
  rewrite Hsort.
  split; [|split; [reflexivity|split; [reflexivity|split]]].
  - exists new, pre, post. rewrite lookup_insert_eq.
    repeat (split; [first [reflexivity|assumption]|]). exact Hpost.
  - intros e He. apply lookup_insert_ne. congruence.
  - split; [|split].
    + cbn [events]. destruct (decide (is_Some (table b !! event))) as [_|Hnone]; [exact Hnd|].
      apply NoDup_app. split; [exact Hnd|]. split; [|apply NoDup_singleton].
      intros x Hx Hx'. apply list_elem_of_singleton in Hx'. subst x.
      apply Hnone, Hkeys, Hx.
    + intros e. cbn [events table]. rewrite lookup_insert_is_Some.
      destruct (decide (is_Some (table b !! event))) as [Hsome|Hnone].
      * rewrite Hkeys. split.
        -- intros H. destruct (decide (event = e)); [left|right]; auto.
        -- intros [<-|[_ H]]; assumption.
      * rewrite elem_of_app, list_elem_of_singleton, Hkeys. split.
        -- intros [H| ->]; [|auto].
           destruct (decide (event = e)) as [<-|Hne]; [contradiction|auto].
        -- intros [<-|[_ H]]; auto.
    + intros e ls' Hls'. cbn [table nextId] in *.
      destruct (decide (event = e)) as [<-|Hne].
      * rewrite lookup_insert_eq in Hls'. injection Hls' as <-.
        split; [apply sorted_insert_mid; [rewrite <- Hold; exact Hsorted|assumption..]|].
        intros l Hl. apply elem_of_app in Hl as [Hl|Hl].
        -- destruct (Hids l) as (n & Hn & Hid);
             [rewrite Hold; apply elem_of_app; auto|]. exists n. split; [lia|exact Hid].
        -- apply elem_of_cons in Hl as [->|Hl].
           ++ exists (nextId b). split; [lia|reflexivity].
           ++ destruct (Hids l) as (n & Hn & Hid);
                [rewrite Hold; apply elem_of_app; auto|]. exists n. split; [lia|exact Hid].
      * rewrite lookup_insert_ne in Hls' by exact Hne.
        destruct (Harr _ _ Hls') as [Hs Hi]. split; [exact Hs|].
        intros l Hl. destruct (Hi l Hl) as (n & Hn & Hid). exists n. split; [lia|exact Hid].
Qed.

(** X6.  [addListener] puts the new listener behind the listeners of the
    topic that have the same or a higher priority and before those of
    lower priority, and leaves the others in their order; the arrays
    of the other topics are as they were.  The id is the topic, an
    underscore and the counter, which goes up by one.  A listener that
    outranks every listener of the topic is the first one [emit]
    calls.  The bus stays well formed, as the bus of the constructor
    is. *)
Theorem addListener_inserts_by_priority b event callback opts :
  wf b ->
  let id := fst (addListener b event callback opts) in
  let b' := snd (addListener b event callback opts) in
  let old := default [] (table b !! event) in
  (exists new pre post,
     EventBus.id new = id /\ EventBus.callback new = callback /\
     priority new = default 0%Z (opt_priority opts) /\
     exclusive new = opt_exclusive opts /\
     old = pre ++ post /\
     table b' !! event = Some (pre ++ new :: post) /\
     Forall (fun l => (priority new <= priority l)%Z) pre /\
     Forall (fun l => (priority l < priority new)%Z) post /\
     (Forall (fun l => (priority l < priority new)%Z) old ->
      forall data, head (invoked (table b') event data) = Some new)) /\
  id = event +:+ "_" +:+ LLMService.toString (nextId b) /\
  nextId b' = S (nextId b) /\
  (forall e, e <> event -> table b' !! e = table b !! e) /\
  wf b' /\ wf (@new_bus D).
Proof.
  intros Hwf id b' old.
  destruct (addListener_spec b event callback opts Hwf)
    as ((new & pre & post & Hid & Hcb & Hprio & Hex & Hold & Hnew & Hpre & Hpost) &
        Hfst & Hnext & Hothers & Hwf').
  split; [|split; [exact Hfst|split; [exact Hnext|split; [exact Hothers|
                   split; [exact Hwf'|apply wf_new_bus]]]]].
  exists new, pre, post.
  repeat (split; [assumption|]).
  intros Hlow data.
  assert (pre = []) as ->.
  { destruct pre as [|z pre]; [reflexivity|]. exfalso. fold old in Hold.
    rewrite Hold in Hlow. apply Forall_cons in Hlow as [Hz _].
    apply Forall_cons in Hpre as [Hz' _]. lia. }
  unfold invoked, emit_run. subst b'. rewrite Hnew. cbn [app List.length Nat.eqb].
  apply dispatch_head.
Qed.

Lemma findIndex_none id ls :
  (forall l, l ∈ ls -> EventBus.id l <> id) -> findIndex id ls = None.
Proof.
  induction ls as [|x ls IH]; intros H; [reflexivity|]. cbn [findIndex].
  destruct (String.eqb_spec (EventBus.id x) id) as [Heq|_].
  - exfalso. apply (H x); [left|exact Heq].
  - rewrite IH; [reflexivity|]. intros l Hl. apply H. right. exact Hl.
Qed.

Lemma findIndex_middle id pre new post :
  (forall l, l ∈ pre -> EventBus.id l <> id) -> EventBus.id new = id ->
  findIndex id (pre ++ new :: post) = Some (List.length pre).
Proof.
  intros Hpre Hnew. induction pre as [|x pre IH]; cbn [app findIndex List.length].
  - rewrite Hnew, String.eqb_refl. reflexivity.
  - destruct (String.eqb_spec (EventBus.id x) id) as [Heq|_].
    + exfalso. apply (Hpre x); [left|exact Heq].
    + rewrite IH; [reflexivity|]. intros l Hl. apply Hpre. right. exact Hl.
Qed.

Lemma findIndex_Some id ls : forall i,
  findIndex id ls = Some i ->
  exists l, ls !! i = Some l /\ EventBus.id l = id /\
            forall j l', j < i -> ls !! j = Some l' -> EventBus.id l' <> id.
Proof.
  induction ls as [|x ls IH]; intros i Hi; [discriminate Hi|]. cbn [findIndex] in Hi.
  destruct (String.eqb_spec (EventBus.id x) id) as [Heq|Hne].
  - injection Hi as <-. exists x. split; [reflexivity|]. split; [exact Heq|].
    intros j l' Hj. lia.
  - destruct (findIndex id ls) as [i'|]; [|discriminate Hi]. injection Hi as <-.
    destruct (IH i' eq_refl) as (l & Hl & Hid & Hbefore).
    exists l. split; [exact Hl|]. split; [exact Hid|].
    intros [|j] l' Hj Hl'; [injection Hl' as <-; exact Hne|].
    apply (Hbefore j l'); [lia|exact Hl'].
Qed.

Lemma removeListener_loop_none evs (tbl : listeners D) id :
  (forall e ls l, e ∈ evs -> tbl !! e = Some ls -> l ∈ ls -> EventBus.id l <> id) ->
  removeListener_loop evs tbl id = None.
Proof.
  induction evs as [|e evs IH]; intros H; [reflexivity|]. cbn [removeListener_loop].
  rewrite findIndex_none.
  - apply IH. intros e' ls l He'. apply H. right. exact He'.
  - intros l Hl. destruct (tbl !! e) as [ls|] eqn:Hls; [|inversion Hl].
    apply (H e ls l); [left|exact Hls|exact Hl].
Qed.

Lemma removeListener_loop_found evs1 : forall event evs2 (tbl : listeners D) id pre new post,
  (forall e ls l, e ∈ evs1 -> tbl !! e = Some ls -> l ∈ ls -> EventBus.id l <> id) ->
  tbl !! event = Some (pre ++ new :: post) ->
  (forall l, l ∈ pre -> EventBus.id l <> id) -> EventBus.id new = id ->
  removeListener_loop (evs1 ++ event :: evs2) tbl id = Some (<[event := pre ++ post]> tbl).
Proof.
  induction evs1 as [|e evs1 IH]; intros event evs2 tbl id pre new post H Hev Hpre Hnew;
    cbn [app removeListener_loop].
  - rewrite Hev.
    change (default [] (Some (pre ++ new :: post))) with (pre ++ new :: post).
    rewrite (findIndex_middle id pre new post Hpre Hnew), delete_middle. reflexivity.
  - rewrite findIndex_none.
    + eapply IH; eauto. intros e' ls l He'. apply H. right. exact He'.
    + intros l Hl. destruct (tbl !! e) as [ls|] eqn:Hls; [|inversion Hl].
      apply (H e ls l); [left|exact Hls|exact Hl].
Qed.

Lemma removeListener_loop_Some evs (tbl tbl' : listeners D) id :
  removeListener_loop evs tbl id = Some tbl' ->
  exists e ls i, e ∈ evs /\ tbl !! e = Some ls /\ findIndex id ls = Some i /\
                 tbl' = <[e := delete i ls]> tbl.
Proof.
  induction evs as [|e evs IH]; intros H; [discriminate H|]. cbn [removeListener_loop] in H.
  destruct (findIndex id (default [] (tbl !! e))) as [i|] eqn:Hi.
  - injection H as <-. destruct (tbl !! e) as [ls|] eqn:Hls; [|discriminate Hi].
    exists e, ls, i. split; [left|]. auto.
  - destruct (IH H) as (e' & ls & i & He' & Hrest). exists e', ls, i.
    split; [right; exact He'|exact Hrest].
Qed.

(** [removeListener] keeps a bus well formed. *)
Lemma removeListener_wf b id : wf b -> wf (snd (removeListener b id)).
Proof.
  intros (Hnd & Hkeys & Harr). unfold removeListener.
  destruct (removeListener_loop (events b) (table b) id) as [tbl'|] eqn:Hloop;
    [|split; [exact Hnd|split; [exact Hkeys|exact Harr]]].
  apply removeListener_loop_Some in Hloop as (e & ls & i & He & Hls & Hi & ->).
  split; [exact Hnd|]. split; cbn [snd events table nextId].
  - intros e'. rewrite lookup_insert_is_Some, Hkeys. split.
    + intros H. destruct (decide (e = e')); [left|right]; auto.
    + intros [<-|[_ H]]; [eauto|exact H].
  - intros e' ls' Hls'. destruct (decide (e = e')) as [<-|Hne].
    + rewrite lookup_insert_eq in Hls'. injection Hls' as <-.
      destruct (Harr _ _ Hls) as [Hs Hids]. split; [apply sorted_delete, Hs|].
      intros l Hl. apply Hids. eapply list_elem_of_delete_inv, Hl.
    + rewrite lookup_insert_ne in Hls' by exact Hne. apply (Harr _ _ Hls').
Qed.

(** X7.  Removing the listener that [addListener] just returned the id of
    succeeds and takes out that listener and no other: every array is
    as it was before the listener was added (a topic that was new
    keeps an empty array), so [emit] behaves on every topic as it did
    before.  The counter is not taken back.  Removing the same id once
    more finds nothing and returns [false]. *)
Theorem removeListener_undoes_addListener b event callback opts :
  wf b ->
  let added := addListener b event callback opts in
  let removed := removeListener (snd added) (fst added) in
  fst removed = true /\
  table (snd removed) = <[event := default [] (table b !! event)]> (table b) /\
  (forall e ls, table b !! e = Some ls -> table (snd removed) !! e = Some ls) /\
  (forall e (data : D), emit_run (table (snd removed)) e data = emit_run (table b) e data) /\
  nextId (snd removed) = S (nextId b) /\
  wf (snd removed) /\
  removeListener (snd removed) (fst added) = (false, snd removed).
Proof.
  intros Hwf added removed.
  pose proof (addListener_spec b event callback opts Hwf) as Hadd.
  cbv zeta in Hadd. fold added in Hadd.
  destruct Hadd as ((new & pre & post & Hid & _ & _ & _ & Hold & Hnew & _) &
                    Hfst & Hnext & Hothers & Hwf').
  destruct Hwf as (Hnd & Hkeys & Harr).
  assert (Hfresh : forall e ls l, table b !! e = Some ls -> l ∈ ls ->
                     EventBus.id l <> fst added).
  { intros e ls l Hls Hl Heq. destruct (Harr _ _ Hls) as [_ Hids].
    destruct (Hids l Hl) as (n & Hn & Hidl). rewrite Hidl, Hfst in Heq.
    apply id_inj in Heq as [_ ->]. lia. }
  assert (Hfresh_old : forall l, l ∈ default [] (table b !! event) ->
                         EventBus.id l <> fst added).
  { intros l Hl. destruct (table b !! event) as [ls|] eqn:Hls; [|inversion Hl].
    apply (Hfresh event ls l Hls Hl). }
  assert (Hev : event ∈ events (snd added)).
  { destruct Hwf' as (_ & Hkeys' & _). apply Hkeys'. rewrite Hnew. eauto. }
  apply list_elem_of_split_l in Hev as (evs1 & evs2 & Hevs & Hnotin).
  assert (Hloop : removeListener_loop (events (snd added)) (table (snd added)) (fst added)
                  = Some (<[event := pre ++ post]> (table (snd added)))).
  { rewrite Hevs. apply (removeListener_loop_found evs1 event evs2 _ _ pre new post).
    - intros e ls l He Hls Hl.
      assert (e <> event) as Hne by (intros ->; contradiction).
      rewrite (Hothers e Hne) in Hls. apply (Hfresh e ls l Hls Hl).
    - exact Hnew.
    - intros l Hl. apply Hfresh_old. rewrite Hold. apply elem_of_app. left. exact Hl.
    - exact Hid. }
  assert (Htable : <[event := pre ++ post]> (table (snd added))
                   = <[event := default [] (table b !! event)]> (table b)).
  { rewrite <- Hold. apply map_eq. intros e.
    destruct (decide (event = e)) as [<-|Hne].
    - rewrite !lookup_insert_eq. reflexivity.
    - rewrite !lookup_insert_ne by exact Hne. apply Hothers. congruence. }
  assert (Hremoved : removed = (true, Bus (events (snd added))
                                        (<[event := default [] (table b !! event)]> (table b))
                                        (nextId (snd added)))).
  { subst removed. unfold removeListener. rewrite Hloop, Htable. reflexivity. }
  assert (Hsame : forall e ls, table b !! e = Some ls ->
            <[event := default [] (table b !! event)]> (table b) !! e = Some ls).
  { intros e ls Hls. destruct (decide (event = e)) as [<-|Hne].
    - rewrite lookup_insert_eq, Hls. reflexivity.
    - rewrite lookup_insert_ne by exact Hne. exact Hls. }
  assert (Hwf_removed : wf (snd removed)).
  { subst removed. apply removeListener_wf, Hwf'. }
  rewrite Hremoved in *. cbn [fst snd table nextId events] in *.
  split; [reflexivity|]. split; [reflexivity|]. split; [exact Hsame|]. split.
  { intros e data. unfold emit_run.
    destruct (table b !! e) as [ls|] eqn:Hls; [rewrite (Hsame e ls Hls); reflexivity|].
    destruct (decide (event = e)) as [<-|Hne].
    - rewrite lookup_insert_eq, Hls. reflexivity.
    - rewrite lookup_insert_ne, Hls by exact Hne. reflexivity. }
  split; [exact Hnext|]. split; [exact Hwf_removed|].
  unfold removeListener. cbn [events table].
  rewrite removeListener_loop_none; [reflexivity|].
  intros e ls l _ Hls Hl. destruct (decide (event = e)) as [<-|Hne].
  - rewrite lookup_insert_eq in Hls. injection Hls as <-. apply Hfresh_old, Hl.
  - rewrite lookup_insert_ne in Hls by exact Hne. apply (Hfresh e ls l Hls Hl).
Qed.

Lemma filter_filter (p : listener D -> bool) ls :
  List.filter p (List.filter p ls) = List.filter p ls.
Proof.
  induction ls as [|x ls IH]; [reflexivity|]. simpl.
  destruct (p x) eqn:Hp; [simpl; rewrite Hp, IH; reflexivity|exact IH].
Qed.

Lemma filter_negb_filter (p : listener D -> bool) ls :
  List.filter (fun l => negb (p l)) (List.filter p ls) = [].
Proof.
  induction ls as [|x ls IH]; [reflexivity|]. simpl.
  destruct (p x) eqn:Hp; [simpl; rewrite Hp; exact IH|exact IH].
Qed.

Lemma filter_length_removed (p : listener D -> bool) ls :
  List.length ls - List.length (List.filter p ls)
  = List.length (List.filter (fun l => negb (p l)) ls).
Proof.
  induction ls as [|x ls IH]; [reflexivity|]. simpl.
  assert (List.length (List.filter p ls) <= List.length ls).
  { clear. induction ls as [|y ls IH]; simpl; [lia|]. destruct (p y); simpl; lia. }
  destruct (p x); simpl; lia.
Qed.

Lemma flat_map_ext_elem {A B} (f g : A -> list B) (xs : list A) :
  (forall x, x ∈ xs -> f x = g x) -> flat_map f xs = flat_map g xs.
Proof.
  induction xs as [|x xs IH]; intros H; [reflexivity|]. cbn [flat_map].
  rewrite (H x) by left. rewrite IH; [reflexivity|].
  intros y Hy. apply H. right. exact Hy.
Qed.

(** The loop of [removeExtensionListeners] over distinct keys. *)
Lemma removeExtension_loop_spec ext evs : forall (tbl : listeners D) count,
  NoDup evs ->
  (forall e, e ∈ evs ->
     fst (removeExtension_loop evs tbl ext count) !! e
     = Some (List.filter (kept ext) (default [] (tbl !! e)))) /\
  (forall e, e ∉ evs -> fst (removeExtension_loop evs tbl ext count) !! e = tbl !! e) /\
  snd (removeExtension_loop evs tbl ext count)
  = count + List.length (flat_map (fun e => List.filter (fun l => negb (kept ext l))
                                              (default [] (tbl !! e))) evs).
Proof.
  induction evs as [|e0 evs IH]; intros tbl count Hnd.
  - cbn. split; [intros e He; inversion He|]. split; [reflexivity|lia].
  - apply NoDup_cons in Hnd as [Hnotin Hnd]. cbn [removeExtension_loop]. cbv zeta.
    set (filtered := List.filter (kept ext) (default [] (tbl !! e0))).
    destruct (IH (<[e0 := filtered]> tbl)
                (count + (List.length (default [] (tbl !! e0)) - List.length filtered)) Hnd)
      as (Hin & Hout & Hcount).
    assert (Hne : forall e, e ∈ evs -> e0 <> e) by (intros e He ->; contradiction).
    split; [|split].
    + intros e He. apply elem_of_cons in He as [->|He].
      * rewrite (Hout e0 Hnotin), lookup_insert_eq. reflexivity.
      * rewrite (Hin e He), lookup_insert_ne by (apply Hne, He). reflexivity.
    + intros e He. rewrite Hout by (intros H; apply He; right; exact H).
      apply lookup_insert_ne. intros ->. apply He. left.
    + rewrite Hcount. cbn [flat_map]. rewrite length_app.
      subst filtered. rewrite filter_length_removed.
      rewrite <- Nat.add_assoc. f_equal. f_equal. f_equal.
      apply flat_map_ext_elem. intros e He.
      rewrite lookup_insert_ne by (apply Hne, He). reflexivity.
Qed.

(** X8.  [removeExtensionListeners] takes out every listener registered
    for the extension, on every topic, and returns how many they were;
    the listeners that stay keep their order, and the bus stays well
    formed.  A second call for the same extension finds nothing:
    it returns 0 and leaves the bus as it is. *)
Theorem removeExtensionListeners_removes_all b extensionId :
  wf b ->
  let count := fst (removeExtensionListeners b extensionId) in
  let b' := snd (removeExtensionListeners b extensionId) in
  count = List.length (owned_by extensionId b) /\
  owned_by extensionId b' = [] /\
  (forall e ls, table b !! e = Some ls ->
     table b' !! e = Some (List.filter (kept extensionId) ls)) /\
  (forall e, table b !! e = None -> table b' !! e = None) /\
  events b' = events b /\ nextId b' = nextId b /\
  wf b' /\
  removeExtensionListeners b' extensionId = (0, b').
Proof.
  intros (Hnd & Hkeys & Harr) count b'. subst count b'. unfold removeExtensionListeners.
  pose proof (removeExtension_loop_spec extensionId (events b) (table b) 0 Hnd)
    as (Hin & Hout & Hcount).
  destruct (removeExtension_loop (events b) (table b) extensionId 0) as [tbl' n] eqn:Hloop.
  cbn [fst snd events table nextId] in *.
  assert (Hsome : forall e ls, table b !! e = Some ls ->
                    tbl' !! e = Some (List.filter (kept extensionId) ls)).
  { intros e ls Hls. rewrite Hin by (apply Hkeys; rewrite Hls; eauto).
    rewrite Hls. reflexivity. }
  assert (Hnone : forall e, table b !! e = None -> tbl' !! e = None).
  { intros e Hls. rewrite Hout; [exact Hls|].
    intros He. apply Hkeys in He as [x Hx]. congruence. }
  assert (Hwf' : wf (Bus (events b) tbl' (nextId b))).
  { split; [exact Hnd|]. split; cbn [events table nextId].
    - intros e. rewrite Hkeys. destruct (table b !! e) as [ls|] eqn:Hls.
      + rewrite (Hsome e ls Hls). split; eauto.
      + rewrite (Hnone e Hls). reflexivity.
    - intros e ls' Hls'. destruct (table b !! e) as [ls|] eqn:Hls.
      + rewrite (Hsome e ls Hls) in Hls'. injection Hls' as <-.
        destruct (Harr _ _ Hls) as [Hs Hids]. split; [apply sorted_filter, Hs|].
        intros l Hl. apply elem_of_filter_inv in Hl as [Hl _]. apply Hids, Hl.
      + rewrite (Hnone e Hls) in Hls'. discriminate Hls'. }
  assert (Hempty : owned_by extensionId (Bus (events b) tbl' (nextId b)) = []).
  { unfold owned_by. cbn [events table].
    assert (Hall : forall evs, (forall e, e ∈ evs -> e ∈ events b) ->
              flat_map (fun event => List.filter (fun l => negb (kept extensionId l))
                                       (default [] (tbl' !! event))) evs = []).
    { induction evs as [|e evs IH]; intros Hsub; [reflexivity|].
      cbn [flat_map]. rewrite IH by (intros e' He'; apply Hsub; right; exact He').
      rewrite (Hin e) by (apply Hsub; left).
      change (default [] (Some ?x)) with x.
      rewrite filter_negb_filter. reflexivity. }
    apply Hall. auto. }
  split; [rewrite Hcount; reflexivity|]. split; [exact Hempty|].
  split; [exact Hsome|]. split; [exact Hnone|].
  split; [reflexivity|]. split; [reflexivity|]. split; [exact Hwf'|].
  pose proof (removeExtension_loop_spec extensionId (events b) tbl' 0 Hnd)
    as (Hin2 & Hout2 & Hcount2).
  destruct (removeExtension_loop (events b) tbl' extensionId 0) as [tbl'' n'] eqn:Hloop2.
  cbn [fst snd] in *.
  assert (tbl'' = tbl') as ->.
  { apply map_eq. intros e. destruct (decide (e ∈ events b)) as [He|He].
    - rewrite (Hin2 e He), (Hin e He).
      change (default [] (Some ?x)) with x. rewrite filter_filter. reflexivity.
    - apply Hout2, He. }
  assert (n' = 0) as ->.
  { rewrite Hcount2. unfold owned_by in Hempty. cbn [events table] in Hempty.
    rewrite Hempty. reflexivity. }
  reflexivity.
Qed.

End RegistryFacts.

(** ** WorkflowEngine.executeAction: who gets through, and to what *)

Section GateFacts.
Import ActionGate.

(** When a call ends in a method of the engine, which one and why. *)
Lemma executeAction_called eng message params m :
  snd (executeAction eng message params) = Called m ->
  exists params0,
    params = Some params0 /\
    isAdminUser message = true /\
    format_ok (text_of (normalise (action params0))) = true /\
    m = handlerName (text_of (normalise (action params0))) /\
    existsb (String.eqb m) methods = true.
Proof.
  unfold executeAction. destruct params as [params0|]; [|discriminate].
  cbv zeta. cbn [action].
  set (a := normalise (action params0)).
  destruct (format_ok (text_of a)) eqn:Hfmt; cbn [negb]; [|discriminate].
  destruct (negb (isAdminUser message) && _) eqn:Hgate; [discriminate|].
  set (checked := match a with
                  | Str s => if String.eqb s "role.add" || String.eqb s "role.remove"
                             then role_checks message s _ else (_, None)
                  | _ => (_, None)
                  end).
  destruct checked as [params2 [e|]]; [discriminate|].
  intros H. exists params0. split; [reflexivity|].
  destruct (match a with
            | Str s => String.eqb s "message.create"
            | _ => false
            end); [discriminate H|].
  destruct (isAdminUser message); [|discriminate H].
  destruct (existsb (String.eqb (handlerName (text_of a))) methods) eqn:Hm;
    [|discriminate H].
  injection H as <-. auto.
Qed.

Lemma span_decompose p s :
  exists x, s = x +:+ Js.drop (Js.span p s) s /\
            String.length x = Js.span p s /\ Js.span p x = String.length x.
Proof.
  induction s as [|c s IH].
  - exists EmptyString. auto.
  - cbn [Js.span]. destruct (p c) eqn:Hc.
    + destruct IH as (x & Hx & Hlen & Hall). exists (String c x). cbn [Js.drop].
      split; [change (String c s = String c (x +:+ Js.drop (Js.span p s) s)); congruence|].
      cbn [String.length Js.span]. rewrite Hc. auto.
    + exists EmptyString. auto.
Qed.

Lemma split_nonempty c s : Js.split c s <> [].
Proof.
  destruct s as [|d s]; [discriminate|]. cbn [Js.split].
  destruct (Js.split c s); [discriminate|]. destruct (Ascii.eqb c d); discriminate.
Qed.

Lemma is_lower_not_dot d : Js.is_lower d = true -> Ascii.eqb "." d = false.
Proof.
  intros H. destruct (Ascii.eqb_spec "." d) as [<-|]; [discriminate H|reflexivity].
Qed.

Lemma split_all_lower r :
  Js.span Js.is_lower r = String.length r -> Js.split "." r = [r].
Proof.
  induction r as [|d r IH]; [reflexivity|]. cbn [Js.span String.length].
  destruct (Js.is_lower d) eqn:Hd; [|discriminate]. intros [= H].
  cbn [Js.split]. rewrite (IH H), (is_lower_not_dot d Hd). reflexivity.
Qed.

Lemma split_lower_dot x r :
  Js.span Js.is_lower x = String.length x ->
  Js.split "." (x +:+ String "." r) = x :: Js.split "." r.
Proof.
  induction x as [|d x IH].
  - intros _. change (Js.split "." (String "." r) = EmptyString :: Js.split "." r).
    cbn [Js.split]. destruct (Js.split "." r) eqn:Hs; [|reflexivity].
    exfalso. exact (split_nonempty _ _ Hs).
  - cbn [Js.span String.length]. destruct (Js.is_lower d) eqn:Hd; [|discriminate].
    intros [= H].
    change (Js.split "." (String d (x +:+ String "." r)) = String d x :: Js.split "." r).
    cbn [Js.split]. rewrite (IH H), (is_lower_not_dot d Hd). reflexivity.
Qed.

(** An action that passes the test of the format is a category and a
    method in small letters, and the method looked for is the method
    followed by the category with its first letter raised. *)
Lemma format_ok_handlerName t :
  format_ok t = true ->
  exists category method,
    t = category +:+ "." +:+ method /\
    category <> EmptyString /\ method <> EmptyString /\
    Js.span Js.is_lower category = String.length category /\
    Js.span Js.is_lower method = String.length method /\
    handlerName t = method +:+ capitalise category.
Proof.
  unfold format_ok. cbv zeta. intros H.
  apply andb_true_iff in H as [Hn H].
  destruct (span_decompose Js.is_lower t) as (x & Ht & Hlen & Hall).
  destruct (Js.drop (Js.span Js.is_lower t) t) as [|c r] eqn:Hdrop; [discriminate H|].
  assert (c = "."%char) as ->.
  { destruct c as [[] [] [] [] [] [] [] []]; try discriminate H. reflexivity. }
  assert (Hr : negb (Nat.eqb (Js.span Js.is_lower r) 0) &&
               Nat.eqb (Js.span Js.is_lower r) (String.length r) = true) by exact H.
  apply andb_true_iff in Hr as [Hm Hr]. apply Nat.eqb_eq in Hr.
  exists x, r. split; [exact Ht|]. split.
  { intros ->. simpl in Hlen. rewrite <- Hlen in Hn. discriminate Hn. }
  split.
  { intros ->. discriminate Hm. }
  split; [exact Hall|]. split; [exact Hr|].
  unfold handlerName. rewrite Ht at 1.
  rewrite (split_lower_dot x r Hall), (split_all_lower r Hr). reflexivity.
Qed.

Lemma span_app_stop p x c y :
  Js.span p x = String.length x -> p c = false ->
  Js.span p (x +:+ String c y) = String.length x /\
  Js.drop (String.length x) (x +:+ String c y) = String c y.
Proof.
  intros Hx Hc. induction x as [|d x IH].
  - change (Js.span p (String c y) = 0 /\ Js.drop 0 (String c y) = String c y).
    cbn [Js.span Js.drop]. rewrite Hc. auto.
  - cbn [Js.span String.length] in Hx. destruct (p d) eqn:Hd; [|discriminate Hx].
    injection Hx as Hx. destruct (IH Hx) as [Hs Hdr].
    change (Js.span p (String d (x +:+ String c y)) = S (String.length x) /\
            Js.drop (S (String.length x)) (String d (x +:+ String c y)) = String c y).
    cbn [Js.span Js.drop]. rewrite Hd, Hs. auto.
Qed.

Lemma upper_of_lower c :
  Js.is_lower c = true -> Js.is_lower (upper c) = false /\ Js.is_upper (upper c) = true.
Proof.
  destruct c as [[] [] [] [] [] [] [] []]; intros H; try discriminate H;
    vm_compute; auto.
Qed.

Lemma handlerName_one_capital t : format_ok t = true -> one_capital (handlerName t) = true.
Proof.
  intros H. destruct (format_ok_handlerName t H)
    as (category & method & _ & Hc & Hm & Hcl & Hml & ->).
  destruct category as [|c cs]; [congruence|]. cbn [capitalise].
  cbn [Js.span String.length] in Hcl. destruct (Js.is_lower c) eqn:Hlc; [|discriminate Hcl].
  injection Hcl as Hcl. destruct (upper_of_lower c Hlc) as [Hnl Hup].
  unfold one_capital. cbv zeta.
  destruct (span_app_stop Js.is_lower method (upper c) cs Hml Hnl) as [-> ->].
  rewrite Hup, Hcl, Nat.eqb_refl. destruct method; [congruence|reflexivity].
Qed.


End GateFacts.

(** ** Runs of the added theorems on concrete inputs *)

(** One message step, an executor that succeeds: the record is there
    under the returned id. *)
Lemma executeWorkflow_settles_record_witness :
  exists wf,
    WorkflowEngine.activeWorkflows
      (fst (WorkflowEngine.executeWorkflow
              (fun _ _ => Normal (WorkflowEngine.mkExecResult true EmptyString))
              (Some (WorkflowEngine.mkPlan
                       (WorkflowEngine.StepsArray
                          [WorkflowEngine.mkStep "s1" "discord.request"
                             (Some "message.create") false])
                       None false))
              (WorkflowEngine.mkEnv 17 3 17 18) WorkflowEngine.empty_engine))
      !! (17, 3) = Some wf /\
    WorkflowEngine.status wf = WorkflowEngine.completed.
Proof.
  pose proof (executeWorkflow_settles_record
    (fun _ _ => Normal (WorkflowEngine.mkExecResult true EmptyString))
    (WorkflowEngine.mkPlan
       (WorkflowEngine.StepsArray
          [WorkflowEngine.mkStep "s1" "discord.request" (Some "message.create") false])
       None false)
    [WorkflowEngine.mkStep "s1" "discord.request" (Some "message.create") false]
    (WorkflowEngine.mkEnv 17 3 17 18) WorkflowEngine.empty_engine eq_refl) as H.
  cbv zeta in H. destruct H as [(wf & Hwf & _ & _ & Hret) _].
  exists wf. split; [exact Hwf|].
  destruct Hret as [(res & _ & Hst & _)|(err & Hf & _)]; [exact Hst|].
  vm_compute in Hf. discriminate Hf.
Defined.

(** A plan that asks for the strategy [fastest]. *)
Lemma unknown_strategy_rejected_witness :
  snd (WorkflowEngine.executeWorkflow
         (fun _ _ => Normal (WorkflowEngine.mkExecResult true EmptyString))
         (Some (WorkflowEngine.mkPlan
                  (WorkflowEngine.StepsArray
                     [WorkflowEngine.mkStep "s1" "discord.request"
                        (Some "message.create") false])
                  (Some "fastest") false))
         (WorkflowEngine.mkEnv 17 3 17 18) WorkflowEngine.empty_engine)
  = WorkflowEngine.Failed (17, 3) "Unknown execution strategy: fastest".
Proof.
  apply (unknown_strategy_rejected
    (fun _ _ => Normal (WorkflowEngine.mkExecResult true EmptyString))
    (WorkflowEngine.mkPlan
       (WorkflowEngine.StepsArray
          [WorkflowEngine.mkStep "s1" "discord.request" (Some "message.create") false])
       (Some "fastest") false)
    [WorkflowEngine.mkStep "s1" "discord.request" (Some "message.create") false]
    "fastest" (WorkflowEngine.mkEnv 17 3 17 18) WorkflowEngine.empty_engine
    eq_refl eq_refl); discriminate.
Defined.


(** Three listeners on a topic, none exclusive.  The handler of the
    first removes its own registration: the second listener moves to
    index 0, the loop goes on at index 1, and the second listener is
    not called. *)
Lemma emit_calls_listeners_in_order_witness :
  (forall fuel, 3 < fuel ->
     EventBus.live_emit_run (EventBus.leaves "messageCreate_1")
       (fun _ => EventBus.callback) fuel
       ({["messageCreate" := [EventBus.leaving_listener; EventBus.quiet_listener;
                              EventBus.handling_listener]]}
          : EventBus.listeners unit) "messageCreate" tt
     = Some (true, [EventBus.leaving_listener; EventBus.handling_listener], 0)) /\
  EventBus.invoked
    ({["messageCreate" := [EventBus.leaving_listener; EventBus.quiet_listener;
                           EventBus.handling_listener]]}
       : EventBus.listeners unit) "messageCreate" tt
  = [EventBus.leaving_listener; EventBus.quiet_listener; EventBus.handling_listener].
Proof.
  destruct (emit_calls_listeners_in_order (EventBus.leaves "messageCreate_1")
    (fun _ => EventBus.callback) 3
    ({["messageCreate" := [EventBus.leaving_listener; EventBus.quiet_listener;
                           EventBus.handling_listener]]}
       : EventBus.listeners unit) "messageCreate" tt _
    (leaves_bounded _ 3) (lookup_singleton_eq _ _))
    as (h & inv & errs & Hrun & _).
  { simpl. lia. }
  assert (H4 : Some (h, inv, errs)
               = Some (true, [EventBus.leaving_listener; EventBus.handling_listener], 0)).
  { rewrite <- (Hrun 4) by lia. unfold EventBus.live_emit_run.
    rewrite lookup_singleton_eq. reflexivity. }
  injection H4 as -> -> ->.
  split; [exact Hrun|].
  unfold EventBus.invoked, EventBus.emit_run. rewrite lookup_singleton_eq. reflexivity.
Defined.

(** A prompt that asks to create a channel goes to the kick
    command. *)
Lemma prompt_with_at_routed_to_kick_or_earlier_witness :
  ~ In (LLMService.route_of "Create a channel named lobby")
       [LLMService.RoleCommand; LLMService.ChannelCommand; LLMService.NicknameCommand;
        LLMService.RepeatCommand; LLMService.DefaultResponse].
Proof.
  apply (prompt_with_at_routed_to_kick_or_earlier "create"
           "Create a channel named lobby" eq_refl eq_refl).
Defined.

(** An unknown member action runs one of the member actions. *)
Lemma known_category_always_resolved_witness :
  exists actionUsed handler via,
    DynamicHandler.resolve "member.promote"
      = DynamicHandler.Resolved actionUsed handler via.
Proof.
  destruct (known_category_always_resolved "member.promote" eq_refl)
    as (a & h & via & Hr & _).
  - simpl. auto.
  - exists a, h, via. exact Hr.
Defined.

Lemma action_found_in_any_letter_case_witness :
  exists handler via,
    DynamicHandler.resolve "Member.Kick" = DynamicHandler.Resolved "member.kick" handler via.
Proof.
  destruct (action_found_in_any_letter_case "Member.Kick" "member.kick")
    as (h & via & Hr & _).
  - vm_compute. tauto.
  - reflexivity.
  - exists h, via. exact Hr.
Defined.

Lemma alias_found_in_any_letter_case_witness :
  exists handler,
    DynamicHandler.resolve "Member.Mute"
      = DynamicHandler.Resolved "member.timeout" handler DynamicHandler.alias.
Proof.
  destruct (alias_found_in_any_letter_case "Member.Mute" "member.timeout" eq_refl)
    as (h & Hr & _).
  exists h. exact Hr.
Defined.

(** Ten minutes, asked for in Turkish, come out as ten days. *)
Lemma timeout_in_dakika_is_read_as_days_witness :
  LLMService.tp_duration (LLMService.timeout_plan "sustur <@42> 10 DAKIKA")
  = LLMService.Int 864000 /\
  LLMService.tp_content (LLMService.timeout_plan "sustur <@42> 10 DAKIKA")
  = Some "✅ Kullanıcı <@42> 10 gün süreyle susturuldu.".
Proof.
  destruct (timeout_in_dakika_is_read_as_days "sustur <@42> 10 DAKIKA" "10" eq_refl)
    as (d' & Hd' & _ & Hexact).
  vm_compute in Hd'. injection Hd' as <-.
  destruct Hexact as [Hdur Hcontent]; [vm_compute; discriminate|].
  split; [exact Hdur|]. apply Hcontent. discriminate.
Defined.


(** A bus with one listener of the moderation extension on the topic
    [command]. *)
Lemma wf_one_listener_bus :
  Registry.wf
    (Registry.Bus ["command"]
       ({["command" := [EventBus.Listener "command_1" (fun _ : unit => Normal (VBool true))
                          5 (Some "moderation") false]]})
       2).
Proof.
  split; [apply NoDup_singleton|]. split.
  - intros e. cbn. rewrite list_elem_of_singleton. split.
    + intros ->. rewrite lookup_singleton_eq. eauto.
    + intros [x Hx]. apply lookup_singleton_Some in Hx as [<- _]. reflexivity.
  - intros e ls Hls. cbn in Hls. apply lookup_singleton_Some in Hls as [<- <-].
    split; [split; [constructor|exact I]|].
    intros l Hl. apply list_elem_of_singleton in Hl. subst l.
    exists 1. split; [cbn; lia|reflexivity].
Qed.

(** A second listener on the topic, with a higher priority, gets the
    next id. *)
Lemma addListener_inserts_by_priority_witness :
  fst (Registry.addListener
         (Registry.Bus ["command"]
            ({["command" := [EventBus.Listener "command_1"
                               (fun _ : unit => Normal (VBool true))
                               5 (Some "moderation") false]]})
            2)
         "command" (fun _ => Normal (VBool false))
         (Registry.Options (Some 10%Z) None true))
  = "command_2".
Proof.
  apply (proj1 (proj2 (addListener_inserts_by_priority _ "command"
                         (fun _ => Normal (VBool false))
                         (Registry.Options (Some 10%Z) None true)
                         wf_one_listener_bus))).
Defined.

Lemma removeListener_undoes_addListener_witness :
  fst (Registry.removeListener
         (snd (Registry.addListener
                 (Registry.Bus ["command"]
                    ({["command" := [EventBus.Listener "command_1"
                                       (fun _ : unit => Normal (VBool true))
                                       5 (Some "moderation") false]]})
                    2)
                 "command" (fun _ => Normal (VBool false))
                 (Registry.Options (Some 10%Z) None true)))
         "command_2")
  = true.
Proof.
  apply (proj1 (removeListener_undoes_addListener _ "command"
                  (fun _ => Normal (VBool false))
                  (Registry.Options (Some 10%Z) None true)
                  wf_one_listener_bus)).
Defined.

Lemma removeExtensionListeners_removes_all_witness :
  fst (Registry.removeExtensionListeners
         (Registry.Bus ["command"]
            ({["command" := [EventBus.Listener "command_1"
                               (fun _ : unit => Normal (VBool true))
                               5 (Some "moderation") false]]})
            2)
         (Some "moderation"))
  = 1.
Proof.
  rewrite (proj1 (removeExtensionListeners_removes_all _ (Some "moderation")
                    wf_one_listener_bus)).
  unfold Registry.owned_by. cbn [Registry.events Registry.table flat_map].
  rewrite lookup_singleton_eq. reflexivity.
Defined.

(** A ban with a reason and no word for deleting. *)
Lemma ban_plan_never_deletes_messages_witness :
  LLMService.bp_deleteMessageDays (LLMService.ban_plan "ban <@42> for spam") = 0.
Proof.
  apply (ban_plan_never_deletes_messages "ban <@42> for spam"). reflexivity.
Defined.
